(** * The S390 TurboFan code generator (src/compiler/s390/code-generator-s390.cc)

    A shallow embedding of the lowering rules of [code-generator-s390.cc]
    together with an executable model of the macro-assembler calls they emit.
    The code generator is embedded as functions that build the list of
    macro-assembler calls ([MInstr]); the calls are given a semantics on a
    machine state (general and floating registers, condition code, byte
    memory), so that statements about "the emitted sequence, when executed"
    can be stated and proved.

    Layout: target parameters and machine words; registers, operands and the
    machine state; the macro-assembler calls and their execution; the
    instruction stream given to the code generator; the code generator
    itself; then the lemmas. *)

From Stdlib Require Import ZArith List Bool Lia Arith Recdef.
Import ListNotations.

Local Open Scope Z_scope.

(* ===================================================================== *)
(** ** Target parameters and machine words *)
(* ===================================================================== *)

(** The build-time switch [V8_TARGET_ARCH_S390X] of the source: [true] for
    the 64-bit build, [false] for the 31-bit build.  Every [#if] of the
    source that tests it becomes an [if] on this flag. *)
Class TargetArch : Set := V8_TARGET_ARCH_S390X : bool.

(** The operations the floating-point unit performs on binary64 bit
    patterns.  They are hardware arithmetic, so they are parameters of the
    development: nothing below depends on what they compute. *)
Class FloatOps : Set := {
  fadd : Z -> Z -> Z;
  fsub : Z -> Z -> Z;
  fmul : Z -> Z -> Z;
  fdiv : Z -> Z -> Z;
  (* rounding of a binary64 pattern to a binary32 pattern (ledbr) *)
  f64_to_f32 : Z -> Z
}.

Section Words.
Context {arch : TargetArch}.

(** Width in bits of a general register as the generated code sees it. *)
Definition kBitsPerPointer : Z := if V8_TARGET_ARCH_S390X then 64 else 32.
Definition kPointerSize : Z := if V8_TARGET_ARCH_S390X then 8 else 4.
Definition kPointerSizeLog2 : Z := if V8_TARGET_ARCH_S390X then 3 else 2.
Definition kDoubleSize : Z := 8.

(** Width in bits of an address: 64-bit addressing on S390X, 31-bit
    addressing otherwise. *)
Definition kAddressBits : Z := if V8_TARGET_ARCH_S390X then 64 else 31.

Definition wrap (n x : Z) : Z := x mod 2 ^ n.

(** The value of the low [n] bits of [x] read as a two's complement
    number. *)
Definition signed (n x : Z) : Z :=
  let u := wrap n x in if u <? 2 ^ (n - 1) then u else u - 2 ^ n.

Definition wrapP (x : Z) : Z := wrap kBitsPerPointer x.
Definition signedP (x : Z) : Z := signed kBitsPerPointer x.
Definition lo32 (x : Z) : Z := wrap 32 x.
Definition sext32 (x : Z) : Z := signed 32 x.

(** A 32-bit result written to a register leaves the rest of it alone. *)
Definition merge32 (old v : Z) : Z := (old / 2 ^ 32) * 2 ^ 32 + lo32 v.

End Words.

(* ===================================================================== *)
(** ** Registers *)
(* ===================================================================== *)

(** [Register] and [DoubleRegister] of assembler-s390.h: a register is its
    code, and [is] ([is_r], [is_d] here) compares codes. *)
Record Register : Set := Reg { reg_code : nat }.
Record DoubleRegister : Set := DReg { dreg_code : nat }.

Definition is_r (a b : Register) : bool := Nat.eqb (reg_code a) (reg_code b).
Definition is_d (a b : DoubleRegister) : bool :=
  Nat.eqb (dreg_code a) (dreg_code b).

Definition r0 := Reg 0.
Definition r1 := Reg 1.
Definition r2 := Reg 2.
Definition r3 := Reg 3.
Definition r4 := Reg 4.
Definition r5 := Reg 5.
Definition r6 := Reg 6.
Definition r7 := Reg 7.
Definition r8 := Reg 8.
Definition r9 := Reg 9.
Definition r10 := Reg 10.
Definition r14 := Reg 14.
(** Register aliases of assembler-s390.h. *)
Definition fp := Reg 11.
Definition ip := Reg 12.
Definition cp := Reg 13.
Definition sp := Reg 15.

Definition d0 := DReg 0.
Definition d1 := DReg 1.
Definition d2 := DReg 2.
Definition d3 := DReg 3.

(** [#define kScratchReg ip] (line 20 of the source). *)
Definition kScratchReg : Register := ip.
(** The reserved floating scratch register of macro-assembler-s390.h. *)
Definition kScratchDoubleReg : DoubleRegister := DReg 13.

(** A [RegList] is a bit mask over register codes. *)
Definition RegList := Z.
Definition kNumRegisters : nat := 16.

Definition reg_bit (r : Register) : RegList := 2 ^ Z.of_nat (reg_code r).
Definition dreg_bit (r : DoubleRegister) : RegList := 2 ^ Z.of_nat (dreg_code r).

(** The codes set in a register list, in ascending order. *)
Definition codes_of (regs : RegList) : list nat :=
  filter (fun i => Z.testbit regs (Z.of_nat i)) (seq 0 kNumRegisters).

(* ===================================================================== *)
(** ** Conditions and the condition code *)
(* ===================================================================== *)

(** The condition code set by compares and tests. *)
Inductive CC : Set := CC0 | CC1 | CC2 | CC3.

(** [enum Condition] of constants-s390.h.  The source's names [eq], [lt],
    [le]... are kept inside the module [Cond]. *)
Module Cond.
Inductive Condition : Set :=
  | kNoCondition | eq | ne | ge | lt | gt | le | al | unordered | ordered.
End Cond.
Definition Condition : Set := Cond.Condition.

(** The branch mask of a condition: bit 8 selects CC0, 4 selects CC1,
    2 selects CC2 and 1 selects CC3. *)
Definition cond_mask (c : Condition) : Z :=
  match c with
  | Cond.kNoCondition => 0
  | Cond.eq => 8
  | Cond.ne => 7
  | Cond.ge => 10
  | Cond.lt => 4
  | Cond.gt => 2
  | Cond.le => 12
  | Cond.al => 15
  | Cond.unordered => 1
  | Cond.ordered => 14
  end.

Definition cc_bit (c : CC) : Z :=
  match c with CC0 => 3 | CC1 => 2 | CC2 => 1 | CC3 => 0 end.

(** A branch on [c] is taken under condition code [cc]. *)
Definition cond_holds (c : Condition) (cc : CC) : bool :=
  Z.testbit (cond_mask c) (cc_bit cc).

Definition cond_eqb (a b : Condition) : bool := Z.eqb (cond_mask a) (cond_mask b).

(** [NegateCondition] of constants-s390.h. *)
Definition NegateCondition (c : Condition) : Condition :=
  match c with
  | Cond.eq => Cond.ne
  | Cond.ne => Cond.eq
  | Cond.ge => Cond.lt
  | Cond.lt => Cond.ge
  | Cond.gt => Cond.le
  | Cond.le => Cond.gt
  | Cond.unordered => Cond.ordered
  | Cond.ordered => Cond.unordered
  | c => c
  end.

(** The condition code of a compare of two numbers: CC0 equal, CC1 first
    operand low, CC2 first operand high. *)
Definition cc_compare (a b : Z) : CC :=
  if a =? b then CC0 else if a <? b then CC1 else CC2.

(* ===================================================================== *)
(** ** Binary64 bit patterns *)
(* ===================================================================== *)

Definition f64_sign (x : Z) : bool := Z.testbit x 63.
Definition f64_exponent (x : Z) : Z := (x / 2 ^ 52) mod 2 ^ 11.
Definition f64_mantissa (x : Z) : Z := x mod 2 ^ 52.

Definition is_nan (x : Z) : bool :=
  (f64_exponent x =? 2047) && negb (f64_mantissa x =? 0).

(** A quiet NaN has the leading fraction bit set. *)
Definition is_quiet_nan (x : Z) : bool := is_nan x && Z.testbit x 51.

(** The order key of a pattern that is not a NaN: the sign-magnitude
    reading, so that both zeros have key 0. *)
Definition f64_key (x : Z) : Z :=
  let m := x mod 2 ^ 63 in if f64_sign x then - m else m.

(** Compare (cdbr): CC3 when either operand is a NaN. *)
Definition f64_compare (x y : Z) : CC :=
  if is_nan x || is_nan y then CC3 else cc_compare (f64_key x) (f64_key y).

(** Widening of a binary32 pattern to binary64, which is exact. *)
Definition f32_to_f64 (f : Z) : Z :=
  let s := (f / 2 ^ 31) mod 2 in
  let e := (f / 2 ^ 23) mod 2 ^ 8 in
  let m := f mod 2 ^ 23 in
  let sign := s * 2 ^ 63 in
  if e =? 255 then sign + 2047 * 2 ^ 52 + m * 2 ^ 29
  else if e =? 0 then
    if m =? 0 then sign
    else let k := Z.log2 m in
         sign + (k - 149 + 1023) * 2 ^ 52 + (m - 2 ^ k) * 2 ^ (52 - k)
  else sign + (e - 127 + 1023) * 2 ^ 52 + m * 2 ^ 29.

(** [std::numeric_limits<float>::quiet_NaN()] and
    [std::numeric_limits<double>::quiet_NaN()] as bit patterns. *)
Definition float_quiet_NaN : Z := 0x7FC00000.
Definition double_quiet_NaN : Z := 0x7FF8000000000000.

(* ===================================================================== *)
(** ** Machine state *)
(* ===================================================================== *)

(** General registers hold integers that are read modulo the register
    width; floating registers hold binary64 bit patterns; [cc] is [None]
    after a call whose effect on the condition code is not part of its
    contract; [mem] is byte memory. *)
Record Machine : Type := mkMachine {
  gpr : Register -> Z;
  fpr : DoubleRegister -> Z;
  cc : option CC;
  mem : Z -> Z
}.

Section State.
Context {arch : TargetArch}.

Definition reg (s : Machine) (r : Register) : Z := wrapP (gpr s r).
Definition dreg (s : Machine) (d : DoubleRegister) : Z := fpr s d.

Definition set_gpr (s : Machine) (r : Register) (v : Z) : Machine :=
  mkMachine (fun r' => if is_r r r' then v else gpr s r') (fpr s) (cc s) (mem s).

Definition set_fpr (s : Machine) (d : DoubleRegister) (v : Z) : Machine :=
  mkMachine (gpr s) (fun d' => if is_d d d' then v else fpr s d') (cc s) (mem s).

Definition set_cc (s : Machine) (c : option CC) : Machine :=
  mkMachine (gpr s) (fpr s) c (mem s).

Definition set_mem (s : Machine) (m : Z -> Z) : Machine :=
  mkMachine (gpr s) (fpr s) (cc s) m.

(** A 32-bit result: the low word of the register is replaced. *)
Definition set_gpr32 (s : Machine) (r : Register) (v : Z) : Machine :=
  set_gpr s r (merge32 (reg s r) v).

(** Big-endian access to [n] bytes at address [a]. *)
Fixpoint load_bytes (n : nat) (m : Z -> Z) (a : Z) : Z :=
  match n with
  | O => 0
  | S k => (m a mod 256) * 256 ^ Z.of_nat k + load_bytes k m (a + 1)
  end.

Fixpoint store_bytes (n : nat) (m : Z -> Z) (a v : Z) : Z -> Z :=
  match n with
  | O => m
  | S k =>
      let m' := fun x => if x =? a then (v / 256 ^ Z.of_nat k) mod 256 else m x in
      store_bytes k m' (a + 1) v
  end.

Definition pointer_bytes : nat := Z.to_nat kPointerSize.

Definition wrapA (a : Z) : Z := wrap kAddressBits a.

End State.

(* ===================================================================== *)
(** ** Labels and memory operands *)
(* ===================================================================== *)

(** A label is the label of a block ([GetLabel(rpo)]), a label object
    declared by a lowering rule or owned by an out-of-line code object, the
    label that stands for a jump table, or the code generator's
    [return_label_]. *)
Inductive Label : Set :=
  | BlockLabel (rpo : nat)
  | LocalLabel (id : nat)
  | TableLabel (id : nat)
  | ReturnLabel.

Definition label_eqb (a b : Label) : bool :=
  match a, b with
  | BlockLabel x, BlockLabel y => Nat.eqb x y
  | LocalLabel x, LocalLabel y => Nat.eqb x y
  | TableLabel x, TableLabel y => Nat.eqb x y
  | ReturnLabel, ReturnLabel => true
  | _, _ => false
  end.

(** [MemOperand] of assembler-s390.h: an index register [rx], a base
    register [rb] and a displacement.  [MemOperand(rn, offset)] has base
    [rn] and no index (index [r0]); [MemOperand(rx, rb)] has index [rx] and
    base [rb]. *)
Record MemOperand : Set := mkMemOperand {
  mo_rx : Register;
  mo_rb : Register;
  mo_offset : Z
}.

Definition MemOperand_ri (rn : Register) (offset : Z) : MemOperand :=
  mkMemOperand r0 rn offset.
Definition MemOperand_rr (rx rb : Register) : MemOperand :=
  mkMemOperand rx rb 0.

(** The second operand of a call that is overloaded on a register and an
    [Operand] (an immediate). *)
Inductive Opnd2 : Set :=
  | R (r : Register)
  | I (imm : Z).

(* ===================================================================== *)
(** ** Macro-assembler calls *)
(* ===================================================================== *)

(** The calls [__ f(...)] the lowering rules make on the macro assembler.
    The macro assembler itself (src/s390/macro-assembler-s390.cc) is not part
    of the sources read here; each call is recorded as data, and [step]
    below gives it the effect its contract promises. *)

Inductive AluOp : Set := OpAndP | OpOrP | OpXorP | OpAddP | OpSubP.
Inductive ShiftOp : Set := OpShiftLeft | OpShiftRight | OpShiftRightArith.
Inductive CmpOp : Set := OpCmp32 | OpCmpLogical32 | OpCmpP | OpCmpLogicalP.
Inductive FpOp : Set := Op_adbr | Op_sdbr | Op_mdbr | Op_ddbr.
Inductive LoadOp : Set :=
  | OpLoadlB | OpLoadHalfWordP | OpLoadLogicalHalfWordP | OpLoadW | OpLoadP
  | Op_lg.
Inductive StoreOp : Set := OpStoreByte | OpStoreHalfWord | OpStoreW | OpStoreP.
Inductive FLoadOp : Set := OpLoadShortConvertToDoubleF | OpLoadF.

Inductive MInstr : Set :=
  (* integer moves and arithmetic *)
  | Alu (op : AluOp) (dst src1 : Register) (src2 : Opnd2)
  | NotP (r : Register)
  | LoadRR (dst src : Register)
  | LoadImmP (dst : Register) (imm : Z)
  | lgfr (dst src : Register)
  | lgbr (dst src : Register)
  | lbr (dst src : Register)
  | Shift (op : ShiftOp) (dst src : Register) (val : Opnd2)
  | ShiftLeftP (dst src : Register) (val : Z)
  | AddAndCheckForOverflow (dst left : Register) (right : Opnd2)
                           (overflow_dst scratch : Register)
  | SubAndCheckForOverflow (dst left right overflow_dst scratch : Register)
  | TestIfInt32 (value scratch : Register)
  | Cmp (op : CmpOp) (src1 : Register) (src2 : Opnd2)
  (* floating point *)
  | cdbr (a b : DoubleRegister)
  | ldr (dst src : DoubleRegister)
  | Fp (op : FpOp) (dst src : DoubleRegister)
  | LoadDoubleLiteral (result : DoubleRegister) (value : Z) (scratch : Register)
  (* control *)
  | b (cond : Condition) (l : Label)
  | bind (l : Label)
  | Jump (target : Register)
  | larl (dst : Register) (l : Label)
  | Ret
  | Abort
  (* memory *)
  | Load (op : LoadOp) (dst : Register) (m : MemOperand)
  | Store (op : StoreOp) (src : Register) (m : MemOperand)
  | FLoad (op : FLoadOp) (dst : DoubleRegister) (m : MemOperand)
  | StoreF (src : DoubleRegister) (m : MemOperand)
  | StoreDoubleAsFloat32 (src : DoubleRegister) (m : MemOperand)
                         (scratch : DoubleRegister)
  | lay (dst : Register) (m : MemOperand)
  (* frames *)
  | Push2 (a b : Register)
  | Prologue
  | StubPrologue
  | MultiPush (regs : RegList)
  | MultiPop (regs : RegList)
  | MultiPushDoubles (dregs : RegList)
  | MultiPopDoubles (dregs : RegList)
  | LeaveFrame (stack_adjustment : Z)
  | Drop (count : Z).

(** The source's names of the overloaded calls. *)
Definition AndP := Alu OpAndP.
Definition OrP := Alu OpOrP.
Definition XorP := Alu OpXorP.
Definition AddP := Alu OpAddP.
Definition SubP := Alu OpSubP.
Definition ShiftLeft := Shift OpShiftLeft.
Definition ShiftRight := Shift OpShiftRight.
Definition ShiftRightArith := Shift OpShiftRightArith.
Definition Cmp32 := Cmp OpCmp32.
Definition CmpLogical32 := Cmp OpCmpLogical32.
Definition CmpP := Cmp OpCmpP.
Definition CmpLogicalP := Cmp OpCmpLogicalP.
Definition adbr := Fp Op_adbr.
Definition sdbr := Fp Op_sdbr.
Definition mdbr := Fp Op_mdbr.
Definition ddbr := Fp Op_ddbr.
Definition LoadlB := Load OpLoadlB.
Definition LoadHalfWordP := Load OpLoadHalfWordP.
Definition LoadLogicalHalfWordP := Load OpLoadLogicalHalfWordP.
Definition LoadW := Load OpLoadW.
Definition LoadP := Load OpLoadP.
Definition lg := Load Op_lg.
Definition StoreByte := Store OpStoreByte.
Definition StoreHalfWord := Store OpStoreHalfWord.
Definition StoreW := Store OpStoreW.
Definition StoreP := Store OpStoreP.
Definition LoadShortConvertToDoubleF := FLoad OpLoadShortConvertToDoubleF.
Definition LoadF := FLoad OpLoadF.
Definition bge := b Cond.ge.
Definition beq := b Cond.eq.
Definition bunordered := b Cond.unordered.
Definition b_always := b Cond.al.

(* ===================================================================== *)
(** ** Execution of macro-assembler calls *)
(* ===================================================================== *)

(** What the generated code cannot know at generation time: the address a
    label is bound to, and the frame-type marker a stub frame records. *)
Class Layout : Set := {
  label_address : Label -> Z;
  stub_marker : Z
}.

(** The result of running code: it falls through to what follows, leaves
    by a branch to a label that is bound elsewhere, jumps or returns to an
    address, aborts, or branches on a condition code that no call defined. *)
Inductive Flow : Type :=
  | Next (s : Machine)
  | Taken (l : Label) (s : Machine)
  | Indirect (target : Z) (s : Machine)
  | Returned (target : Z) (s : Machine)
  | Aborted
  | Undefined.

Section Step.
Context {arch : TargetArch} {fops : FloatOps} {layout : Layout}.

Definition opnd2 (s : Machine) (x : Opnd2) : Z :=
  match x with
  | R r => reg s r
  | I imm => wrapP imm
  end.

Definition alu_sem (op : AluOp) (x y : Z) : Z :=
  match op with
  | OpAndP => Z.land x y
  | OpOrP => Z.lor x y
  | OpXorP => Z.lxor x y
  | OpAddP => x + y
  | OpSubP => x - y
  end.

(** Modelled from the spec: the shift calls of the macro assembler are not
    in the sources; section 4.2 of the specification says "Shift/rotate
    counts must be taken modulo the architecture's register width". *)
Definition shift_count (v : Z) : Z := v mod kBitsPerPointer.

Definition shift_sem (op : ShiftOp) (x c : Z) : Z :=
  match op with
  | OpShiftLeft => Z.shiftl (lo32 x) c
  | OpShiftRight => Z.shiftr (lo32 x) c
  | OpShiftRightArith => Z.shiftr (sext32 x) c
  end.

Definition cmp_sem (op : CmpOp) (x y : Z) : CC :=
  match op with
  | OpCmp32 => cc_compare (sext32 x) (sext32 y)
  | OpCmpLogical32 => cc_compare (lo32 x) (lo32 y)
  | OpCmpP => cc_compare (signedP x) (signedP y)
  | OpCmpLogicalP => cc_compare (wrapP x) (wrapP y)
  end.

Definition fp_sem (op : FpOp) (x y : Z) : Z :=
  match op with
  | Op_adbr => fadd x y
  | Op_sdbr => fsub x y
  | Op_mdbr => fmul x y
  | Op_ddbr => fdiv x y
  end.

(** The effective address of a memory operand; register 0 as index or base
    stands for no register. *)
Definition ea (s : Machine) (m : MemOperand) : Z :=
  wrapA ((if is_r (mo_rx m) r0 then 0 else reg s (mo_rx m))
         + (if is_r (mo_rb m) r0 then 0 else reg s (mo_rb m))
         + mo_offset m).

Definition load_sem (op : LoadOp) (m : Z -> Z) (a : Z) : Z :=
  match op with
  | OpLoadlB => load_bytes 1 m a
  | OpLoadHalfWordP => signed 16 (load_bytes 2 m a)
  | OpLoadLogicalHalfWordP => load_bytes 2 m a
  | OpLoadW => sext32 (load_bytes 4 m a)
  | OpLoadP => load_bytes pointer_bytes m a
  | Op_lg => load_bytes 8 m a
  end.

Definition store_width (op : StoreOp) : nat :=
  match op with
  | OpStoreByte => 1%nat
  | OpStoreHalfWord => 2%nat
  | OpStoreW => 4%nat
  | OpStoreP => pointer_bytes
  end.

Definition fload_sem (op : FLoadOp) (m : Z -> Z) (a : Z) : Z :=
  match op with
  | OpLoadShortConvertToDoubleF => f32_to_f64 (load_bytes 4 m a)
  | OpLoadF => load_bytes 8 m a
  end.

(** Pointer-sized and double-sized stack slots at [base + offset]. *)
Definition loadP (s : Machine) (base : Register) (offset : Z) : Z :=
  load_bytes pointer_bytes (mem s) (wrapA (reg s base + offset)).
Definition storeP (s : Machine) (base : Register) (offset v : Z) : Machine :=
  set_mem s (store_bytes pointer_bytes (mem s) (wrapA (reg s base + offset)) v).
Definition loadD (s : Machine) (base : Register) (offset : Z) : Z :=
  load_bytes 8 (mem s) (wrapA (reg s base + offset)).
Definition storeD (s : Machine) (base : Register) (offset v : Z) : Machine :=
  set_mem s (store_bytes 8 (mem s) (wrapA (reg s base + offset)) v).

(** [MultiPush]: the stack pointer is lowered by the size of the list, and
    the registers are stored from it upwards in ascending order of their
    codes.  [k] is the slot the next register goes to. *)
Fixpoint push_list (codes : list nat) (k : Z) (s : Machine) : Machine :=
  match codes with
  | [] => s
  | c :: rest => push_list rest (k + 1) (storeP s sp (k * kPointerSize) (reg s (Reg c)))
  end.

Fixpoint pop_list (codes : list nat) (k : Z) (s : Machine) : Machine :=
  match codes with
  | [] => s
  | c :: rest => pop_list rest (k + 1) (set_gpr s (Reg c) (loadP s sp (k * kPointerSize)))
  end.

Fixpoint push_list_d (codes : list nat) (k : Z) (s : Machine) : Machine :=
  match codes with
  | [] => s
  | c :: rest => push_list_d rest (k + 1) (storeD s sp (k * kDoubleSize) (dreg s (DReg c)))
  end.

Fixpoint pop_list_d (codes : list nat) (k : Z) (s : Machine) : Machine :=
  match codes with
  | [] => s
  | c :: rest => pop_list_d rest (k + 1) (set_fpr s (DReg c) (loadD s sp (k * kDoubleSize)))
  end.

(** One macro-assembler call.  The macro assembler
    (macro-assembler-s390.cc) is not among the sources of the code
    generator: each call is given the effect of the machine instructions
    it stands for.  Calls that expand to arithmetic leave the condition
    code undefined ([None]) unless setting it is their purpose; moves,
    loads and stores keep it. *)
Definition step (i : MInstr) (s : Machine) : Flow :=
  match i with
  | Alu op dst src1 src2 =>
      Next (set_cc (set_gpr s dst (alu_sem op (reg s src1) (opnd2 s src2))) None)
  | NotP r => Next (set_cc (set_gpr s r (Z.lnot (reg s r))) None)
  | LoadRR dst src => Next (set_gpr s dst (reg s src))
  | LoadImmP dst imm => Next (set_gpr s dst imm)
  | lgfr dst src => Next (set_gpr s dst (sext32 (reg s src)))
  | lgbr dst src => Next (set_gpr s dst (signed 8 (reg s src)))
  | lbr dst src => Next (set_gpr32 s dst (signed 8 (reg s src)))
  | Shift op dst src val =>
      (* the source is first moved to the destination, then the destination
         is shifted in place by the count *)
      let s1 := if is_r dst src then s else set_gpr32 s dst (reg s src) in
      let c := shift_count (opnd2 s1 val) in
      Next (set_cc (set_gpr32 s1 dst (shift_sem op (reg s1 dst) c)) None)
  | ShiftLeftP dst src val =>
      Next (set_cc (set_gpr s dst (Z.shiftl (reg s src) (shift_count val))) None)
  | AddAndCheckForOverflow dst lhs rhs overflow_dst scratch =>
      let x := reg s lhs in
      let y := opnd2 s rhs in
      let res := wrapP (x + y) in
      let ovf := Z.land (Z.lxor res x) (Z.lxor res y) in
      let s1 := set_gpr s scratch (Z.lxor res y) in
      let s2 := set_gpr s1 overflow_dst ovf in
      let s3 := set_gpr s2 dst res in
      Next (set_cc s3 (Some (cc_compare (signedP ovf) 0)))
  | SubAndCheckForOverflow dst lhs rhs overflow_dst scratch =>
      let x := reg s lhs in
      let y := reg s rhs in
      let res := wrapP (x - y) in
      let ovf := Z.land (Z.lxor res x) (Z.lxor x y) in
      let s1 := set_gpr s scratch (Z.lxor x y) in
      let s2 := set_gpr s1 overflow_dst ovf in
      let s3 := set_gpr s2 dst res in
      Next (set_cc s3 (Some (cc_compare (signedP ovf) 0)))
  | TestIfInt32 value scratch =>
      (* lgfr(scratch, value); CmpP(scratch, value) *)
      let s1 := set_gpr s scratch (sext32 (reg s value)) in
      Next (set_cc s1 (Some (cmp_sem OpCmpP (reg s1 scratch) (reg s1 value))))
  | Cmp op src1 src2 =>
      Next (set_cc s (Some (cmp_sem op (reg s src1) (opnd2 s src2))))
  | cdbr x y => Next (set_cc s (Some (f64_compare (dreg s x) (dreg s y))))
  | ldr dst src => Next (set_fpr s dst (dreg s src))
  | Fp op dst src =>
      Next (set_cc (set_fpr s dst (fp_sem op (dreg s dst) (dreg s src))) None)
  | LoadDoubleLiteral result value scratch =>
      Next (set_cc (set_fpr (set_gpr s scratch value) result value) None)
  | b cond l =>
      if cond_eqb cond Cond.al then Taken l s
      else match cc s with
           | Some c => if cond_holds cond c then Taken l s else Next s
           | None => Undefined
           end
  | bind l => Next s
  | Jump target => Indirect (reg s target) s
  | larl dst l => Next (set_gpr s dst (label_address l))
  | Ret => Returned (reg s r14) s
  | Abort => Aborted
  | Load op dst m => Next (set_gpr s dst (load_sem op (mem s) (ea s m)))
  | Store op src m =>
      Next (set_mem s (store_bytes (store_width op) (mem s) (ea s m) (reg s src)))
  | FLoad op dst m => Next (set_fpr s dst (fload_sem op (mem s) (ea s m)))
  | StoreF src m => Next (set_mem s (store_bytes 8 (mem s) (ea s m) (dreg s src)))
  | StoreDoubleAsFloat32 src m scratch =>
      let f := f64_to_f32 (dreg s src) in
      let s1 := set_fpr s scratch (f * 2 ^ 32) in
      Next (set_mem s1 (store_bytes 4 (mem s1) (ea s1 m) f))
  | lay dst m => Next (set_gpr s dst (ea s m))
  | Push2 x y =>
      (* pushes the leftmost register first, to the higher address *)
      let s1 := storeP s sp (- kPointerSize) (reg s x) in
      let s2 := storeP s1 sp (- 2 * kPointerSize) (reg s y) in
      Next (set_cc (set_gpr s2 sp (reg s sp - 2 * kPointerSize)) None)
  | Prologue =>
      (* PushFixedFrame(r3): r14, fp, cp and the function; fp then points
         at the saved fp *)
      let s1 := storeP s sp (- kPointerSize) (reg s r14) in
      let s2 := storeP s1 sp (- 2 * kPointerSize) (reg s fp) in
      let s3 := storeP s2 sp (- 3 * kPointerSize) (reg s cp) in
      let s4 := storeP s3 sp (- 4 * kPointerSize) (reg s r3) in
      let s5 := set_gpr s4 fp (reg s sp - 2 * kPointerSize) in
      Next (set_cc (set_gpr s5 sp (reg s sp - 4 * kPointerSize)) None)
  | StubPrologue =>
      (* PushFixedFrame(): r14, fp, cp; then the frame-type marker *)
      let s1 := storeP s sp (- kPointerSize) (reg s r14) in
      let s2 := storeP s1 sp (- 2 * kPointerSize) (reg s fp) in
      let s3 := storeP s2 sp (- 3 * kPointerSize) (reg s cp) in
      let s4 := storeP s3 sp (- 4 * kPointerSize) stub_marker in
      let s5 := set_gpr s4 fp (reg s sp - 2 * kPointerSize) in
      Next (set_cc (set_gpr s5 sp (reg s sp - 4 * kPointerSize)) None)
  | MultiPush regs =>
      let codes := codes_of regs in
      let s1 := set_gpr s sp (reg s sp - Z.of_nat (length codes) * kPointerSize) in
      Next (set_cc (push_list codes 0 s1) None)
  | MultiPop regs =>
      let codes := codes_of regs in
      let s1 := pop_list codes 0 s in
      Next (set_cc (set_gpr s1 sp (reg s1 sp + Z.of_nat (length codes) * kPointerSize)) None)
  | MultiPushDoubles dregs =>
      let codes := codes_of dregs in
      let s1 := set_gpr s sp (reg s sp - Z.of_nat (length codes) * kDoubleSize) in
      Next (set_cc (push_list_d codes 0 s1) None)
  | MultiPopDoubles dregs =>
      let codes := codes_of dregs in
      let s1 := pop_list_d codes 0 s in
      Next (set_cc (set_gpr s1 sp (reg s1 sp + Z.of_nat (length codes) * kDoubleSize)) None)
  | LeaveFrame stack_adjustment =>
      (* kCallerPCOffset = kPointerSize, kCallerFPOffset = 0,
         kCallerSPOffset = 2 * kPointerSize *)
      let s1 := set_gpr s r14 (loadP s fp kPointerSize) in
      let s2 := set_gpr s1 r1 (wrapA (reg s1 fp + 2 * kPointerSize + stack_adjustment)) in
      let s3 := set_gpr s2 fp (loadP s2 fp 0) in
      Next (set_cc (set_gpr s3 sp (reg s3 r1)) None)
  | Drop count =>
      if 0 <? count then Next (set_gpr s sp (reg s sp + count * kPointerSize))
      else Next s
  end.

End Step.

(* ===================================================================== *)
(** ** Out-of-line code and the execution of emitted code *)
(* ===================================================================== *)

(** The three out-of-line code classes used by the checked loads (lines
    108-147): what they are constructed with, and the labels every
    [OutOfLineCode] owns. *)
Inductive OutOfLineKind : Set :=
  | OutOfLineLoadNAN32 (result : DoubleRegister)
  | OutOfLineLoadNAN64 (result : DoubleRegister)
  | OutOfLineLoadZero (result : Register).

Record OutOfLineCode : Set := mkOOL {
  ool_kind : OutOfLineKind;
  ool_entry : Label;
  ool_exit : Label
}.

(** [Generate()] of each class.  The float NaN is passed to a [double]
    parameter, that is, widened. *)
Definition Generate (o : OutOfLineCode) : list MInstr :=
  match ool_kind o with
  | OutOfLineLoadNAN32 result =>
      [LoadDoubleLiteral result (f32_to_f64 float_quiet_NaN) kScratchReg]
  | OutOfLineLoadNAN64 result =>
      [LoadDoubleLiteral result double_quiet_NaN kScratchReg]
  | OutOfLineLoadZero result => [LoadImmP result 0]
  end.

Definition find_ool (l : Label) (ools : list OutOfLineCode) : option OutOfLineCode :=
  find (fun o => label_eqb l (ool_entry o)) ools.

Inductive Mode : Set :=
  | Running
  | Seeking (l : Label).

Section Exec.
Context {arch : TargetArch} {fops : FloatOps} {layout : Layout}.

(** Code without branches, as the body of an out-of-line code object. *)
Fixpoint exec_straight (code : list MInstr) (s : Machine) : option Machine :=
  match code with
  | [] => Some s
  | i :: rest =>
      match step i s with
      | Next s' => exec_straight rest s'
      | _ => None
      end
  end.

(** Running a sequence of calls.  Every branch of the lowering rules is a
    forward branch: a taken branch skips to where its label is bound, and
    leaves the sequence ([Taken]) when the label is not bound in the rest of
    it.  A branch to the entry of an out-of-line code object runs its body
    and goes on to its exit label, as the code assembled for the object
    does. *)
Fixpoint exec_from (ools : list OutOfLineCode) (mode : Mode)
                   (code : list MInstr) (s : Machine) : Flow :=
  match code with
  | [] =>
      match mode with
      | Running => Next s
      | Seeking l => Taken l s
      end
  | i :: rest =>
      match mode with
      | Seeking l =>
          match i with
          | bind l' =>
              if label_eqb l l' then exec_from ools Running rest s
              else exec_from ools (Seeking l) rest s
          | _ => exec_from ools (Seeking l) rest s
          end
      | Running =>
          match step i s with
          | Next s' => exec_from ools Running rest s'
          | Taken l s' =>
              match find_ool l ools with
              | Some o =>
                  match exec_straight (Generate o) s' with
                  | Some s'' => exec_from ools (Seeking (ool_exit o)) rest s''
                  | None => Undefined
                  end
              | None => exec_from ools (Seeking l) rest s'
              end
          | other => other
          end
      end
  end.

Definition exec (ools : list OutOfLineCode) (code : list MInstr) (s : Machine) : Flow :=
  exec_from ools Running code s.

End Exec.

(* ===================================================================== *)
(** ** The instruction stream *)
(* ===================================================================== *)

(** [Constant] of instruction.h. *)
Inductive Constant : Set :=
  | kInt32 (v : Z)
  | kInt64 (v : Z)
  | kFloat32 (bits : Z)
  | kFloat64 (bits : Z)
  | kExternalReference (address : Z)
  | kHeapObject (handle : Z)
  | kRpoNumber (rpo : nat).

(** [InstructionOperand] after register allocation. *)
Inductive InstructionOperand : Set :=
  | RegisterOperand (r : Register)
  | DoubleRegisterOperand (d : DoubleRegister)
  | StackSlotOperand (index : Z)
  | DoubleStackSlotOperand (index : Z)
  | ImmediateOperand (c : Constant).

Definition IsRegister (op : InstructionOperand) : bool :=
  match op with RegisterOperand _ => true | _ => false end.
Definition IsDoubleRegister (op : InstructionOperand) : bool :=
  match op with DoubleRegisterOperand _ => true | _ => false end.
Definition IsImmediate (op : InstructionOperand) : bool :=
  match op with ImmediateOperand _ => true | _ => false end.

(** The architecture opcodes whose lowering rules are embedded here. *)
Inductive ArchOpcode : Set :=
  | kArchNop | kArchRet | kArchTableSwitch
  | kS390_And | kS390_AndComplement | kS390_Or | kS390_OrComplement | kS390_Xor
  | kS390_ShiftLeft32 | kS390_ShiftRight32 | kS390_ShiftRightAlg32
  | kS390_Add | kS390_AddWithOverflow32 | kS390_AddDouble
  | kS390_Sub | kS390_SubWithOverflow32 | kS390_SubDouble
  | kS390_MulDouble | kS390_DivDouble
  | kS390_Cmp32 | kS390_Cmp64 | kS390_CmpDouble
  | kS390_LoadWordS8 | kS390_LoadWordU8 | kS390_LoadWordU16 | kS390_LoadWordS16
  | kS390_LoadWordS32 | kS390_LoadWord64 | kS390_LoadFloat32 | kS390_LoadDouble
  | kS390_StoreWord8 | kS390_StoreWord16 | kS390_StoreWord32 | kS390_StoreWord64
  | kS390_StoreFloat32 | kS390_StoreDouble
  | kCheckedLoadInt8 | kCheckedLoadUint8 | kCheckedLoadInt16 | kCheckedLoadUint16
  | kCheckedLoadWord32 | kCheckedLoadWord64 | kCheckedLoadFloat32 | kCheckedLoadFloat64
  | kCheckedStoreWord8 | kCheckedStoreWord16 | kCheckedStoreWord32
  | kCheckedStoreWord64 | kCheckedStoreFloat32 | kCheckedStoreFloat64.

Inductive AddressingMode : Set := kMode_None | kMode_MRI | kMode_MRR.

Inductive FlagsMode : Set := kFlags_none | kFlags_branch | kFlags_set.

(** [FlagsCondition] of instruction-codes.h: the conditions the source
    names, and the two unordered ones that reach its [default] case. *)
Inductive FlagsCondition : Set :=
  | kEqual | kNotEqual
  | kSignedLessThan | kSignedGreaterThanOrEqual
  | kSignedLessThanOrEqual | kSignedGreaterThan
  | kUnsignedLessThan | kUnsignedGreaterThanOrEqual
  | kUnsignedLessThanOrEqual | kUnsignedGreaterThan
  | kUnorderedEqual | kUnorderedNotEqual
  | kOverflow | kNotOverflow.

(** An instruction with the bit fields of its opcode word decoded
    ([ArchOpcodeField], [AddressingModeField], [FlagsModeField],
    [FlagsConditionField]). *)
Record Instruction : Set := mkInstruction {
  arch_opcode : ArchOpcode;
  addressing_mode : AddressingMode;
  flags_mode : FlagsMode;
  flags_condition : FlagsCondition;
  inputs : list InstructionOperand;
  outputs : list InstructionOperand
}.

Definition InputCount (instr : Instruction) : nat := length (inputs instr).
Definition OutputCount (instr : Instruction) : nat := length (outputs instr).
Definition InputAt (instr : Instruction) (i : nat) : option InstructionOperand :=
  nth_error (inputs instr) i.
Definition OutputAt (instr : Instruction) (i : nat) : option InstructionOperand :=
  nth_error (outputs instr) i.

(** [BranchInfo] of code-generator.h. *)
Record BranchInfo : Set := mkBranchInfo {
  condition : FlagsCondition;
  true_label : Label;
  false_label : Label;
  fallthru : bool
}.

(* ===================================================================== *)
(** ** The code generator's state *)
(* ===================================================================== *)

(** What the code generator reads of its surroundings: the incoming call
    descriptor ([linkage()->GetIncomingDescriptor()]), the frame
    ([frame()]) and the compilation info ([info()]). *)
Inductive CallKind : Set := kCallCodeObject | kCallJSFunction | kCallAddress.

Record CallDescriptor : Set := mkCallDescriptor {
  kind : CallKind;
  StackParameterCount : Z;
  CalleeSavedRegisters : RegList;
  CalleeSavedFPRegisters : RegList
}.

Definition IsCFunctionCall (d : CallDescriptor) : bool :=
  match kind d with kCallAddress => true | _ => false end.
Definition IsJSFunctionCall (d : CallDescriptor) : bool :=
  match kind d with kCallJSFunction => true | _ => false end.

Record CodeGenerator : Set := mkCodeGenerator {
  descriptor : CallDescriptor;
  needs_frame : bool;
  GetSpillSlotCount : Z;
  (* the padding [frame()->AlignSavedCalleeRegisterSlots()] returns *)
  AlignSavedCalleeRegisterSlots : Z;
  is_osr : bool;
  (* [OsrHelper(info()).UnoptimizedFrameSlots()] *)
  UnoptimizedFrameSlots : Z
}.

(** What an emission changes: the instructions emitted so far, the label
    objects created, the out-of-line code objects (the newest first, as
    each one links itself in front of the list), the jump tables, whether
    [return_label_] is bound, and the callee-saved slots the frame has
    allocated. *)
Record Assembler : Set := mkAssembler {
  buffer : list MInstr;
  next_label : nat;
  ools : list OutOfLineCode;
  jump_tables : list (Label * list Label);
  return_label_bound : bool;
  callee_saved_slots : Z
}.

Definition empty_assembler : Assembler := mkAssembler [] 0 [] [] false 0.

(** Emission either goes on with a value, or stops the generation of the
    function ([UNREACHABLE], [UNIMPLEMENTED], an operand of the wrong
    kind). *)
Definition Gen (A : Type) : Type := Assembler -> option (A * Assembler).

Definition gret {A} (x : A) : Gen A := fun a => Some (x, a).
Definition gbind {A B} (m : Gen A) (f : A -> Gen B) : Gen B :=
  fun a => match m a with
           | Some (x, a') => f x a'
           | None => None
           end.
Definition UNREACHABLE {A} : Gen A := fun _ => None.
Definition lift {A} (o : option A) : Gen A :=
  fun a => match o with Some x => Some (x, a) | None => None end.

Notation "x <- m ;; f" := (gbind m (fun x => f))
  (at level 61, m at next level, right associativity).
Notation "m ;; f" := (gbind m (fun _ => f))
  (at level 61, right associativity).

Definition emit (i : MInstr) : Gen unit :=
  fun a => Some (tt, mkAssembler (buffer a ++ [i]) (next_label a) (ools a)
                                 (jump_tables a) (return_label_bound a)
                                 (callee_saved_slots a)).

(** A label object declared by a rule ([Label done;]). *)
Definition new_label : Gen Label :=
  fun a => Some (LocalLabel (next_label a),
                 mkAssembler (buffer a) (S (next_label a)) (ools a)
                             (jump_tables a) (return_label_bound a)
                             (callee_saved_slots a)).

(** [new (zone()) OutOfLine...(this, ...)]: the object gets its entry and
    exit labels and is put in front of the generator's list. *)
Definition new_ool (k : OutOfLineKind) : Gen OutOfLineCode :=
  fun a =>
    let o := mkOOL k (LocalLabel (next_label a)) (LocalLabel (S (next_label a))) in
    Some (o, mkAssembler (buffer a) (S (S (next_label a))) (o :: ools a)
                         (jump_tables a) (return_label_bound a)
                         (callee_saved_slots a)).

(** [AddJumpTable(cases, case_count)]: the table is recorded and its label
    returned. *)
Definition AddJumpTable (cases : list Label) : Gen Label :=
  fun a =>
    let l := TableLabel (length (jump_tables a)) in
    Some (l, mkAssembler (buffer a) (next_label a) (ools a)
                         (jump_tables a ++ [(l, cases)]) (return_label_bound a)
                         (callee_saved_slots a)).

Definition bind_return_label : Gen unit :=
  fun a => Some (tt, mkAssembler (buffer a ++ [bind ReturnLabel]) (next_label a)
                                 (ools a) (jump_tables a) true
                                 (callee_saved_slots a)).

Definition return_label_is_bound : Gen bool :=
  fun a => Some (return_label_bound a, a).

(** [frame()->AllocateSavedCalleeRegisterSlots(count)]. *)
Definition AllocateSavedCalleeRegisterSlots (count : Z) : Gen unit :=
  fun a => Some (tt, mkAssembler (buffer a) (next_label a) (ools a)
                                 (jump_tables a) (return_label_bound a)
                                 (callee_saved_slots a + count)).

Definition when (c : bool) (m : Gen unit) : Gen unit :=
  if c then m else gret tt.

(** The code a generation left in the buffer, when it succeeded. *)
Definition emitted {A} (m : Gen A) : option (list MInstr) :=
  match m empty_assembler with
  | Some (_, a) => Some (buffer a)
  | None => None
  end.

(* ===================================================================== *)
(** ** S390OperandConverter (lines 24-98) *)
(* ===================================================================== *)

Section Converter.
Context {arch : TargetArch}.
Variable instr : Instruction.

(** Lines 31-43. *)
Definition CompareLogical : bool :=
  match flags_condition instr with
  | kUnsignedLessThan
  | kUnsignedGreaterThanOrEqual
  | kUnsignedLessThanOrEqual
  | kUnsignedGreaterThan => true
  | _ => false
  end.

Definition InputRegister (index : nat) : Gen Register :=
  match InputAt instr index with
  | Some (RegisterOperand r) => gret r
  | _ => UNREACHABLE
  end.

Definition InputDoubleRegister (index : nat) : Gen DoubleRegister :=
  match InputAt instr index with
  | Some (DoubleRegisterOperand d) => gret d
  | _ => UNREACHABLE
  end.

Definition OutputRegister (index : nat) : Gen Register :=
  match OutputAt instr index with
  | Some (RegisterOperand r) => gret r
  | _ => UNREACHABLE
  end.

Definition OutputDoubleRegister : Gen DoubleRegister :=
  match OutputAt instr 0 with
  | Some (DoubleRegisterOperand d) => gret d
  | _ => UNREACHABLE
  end.

Definition ToConstant (index : nat) : Gen Constant :=
  match InputAt instr index with
  | Some (ImmediateOperand c) => gret c
  | _ => UNREACHABLE
  end.

Definition InputInt32 (index : nat) : Gen Z :=
  c <- ToConstant index ;;
  match c with
  | kInt32 v => gret v
  | _ => UNREACHABLE
  end.

Definition InputRpo (index : nat) : Gen nat :=
  c <- ToConstant index ;;
  match c with
  | kRpoNumber rpo => gret rpo
  | _ => UNREACHABLE
  end.

(** Lines 45-67.  The value of the [Operand] is returned; a float constant
    becomes the handle of a heap number, which has no value here, so that
    case stops too. *)
Definition InputImmediate (index : nat) : Gen Z :=
  c <- ToConstant index ;;
  match c with
  | kInt32 v => gret v
  | kInt64 v => if V8_TARGET_ARCH_S390X then gret v else UNREACHABLE
  | _ => UNREACHABLE
  end.

(** Lines 69-84: the operand, and the index after the inputs it used. *)
Definition MemoryOperand (first_index : nat) : Gen (MemOperand * nat) :=
  let index := first_index in
  match addressing_mode instr with
  | kMode_None => UNREACHABLE
  | kMode_MRI =>
      rn <- InputRegister (index + 0) ;;
      offset <- InputInt32 (index + 1) ;;
      gret (MemOperand_ri rn offset, (first_index + 2)%nat)
  | kMode_MRR =>
      rx <- InputRegister (index + 0) ;;
      rb <- InputRegister (index + 1) ;;
      gret (MemOperand_rr rx rb, (first_index + 2)%nat)
  end.

(** Lines 101-103. *)
Definition HasRegisterInput (index : nat) : bool :=
  match InputAt instr index with
  | Some op => IsRegister op
  | None => false
  end.

End Converter.

Definition GetLabel (rpo : nat) : Label := BlockLabel rpo.

(* ===================================================================== *)
(** ** FlagsConditionToCondition (lines 192-252) *)
(* ===================================================================== *)

Section CodeGen.
Context {arch : TargetArch}.

(** [None] is the [UNREACHABLE()] at the end of the function. *)
Definition FlagsConditionToCondition (condition : FlagsCondition) (op : ArchOpcode)
  : option Condition :=
  match condition with
  | kEqual => Some Cond.eq
  | kNotEqual => Some Cond.ne
  | kSignedLessThan | kUnsignedLessThan => Some Cond.lt
  | kSignedGreaterThanOrEqual | kUnsignedGreaterThanOrEqual => Some Cond.ge
  | kSignedLessThanOrEqual | kUnsignedLessThanOrEqual => Some Cond.le
  | kSignedGreaterThan | kUnsignedGreaterThan => Some Cond.gt
  | kOverflow =>
      (* Overflow checked for AddP/SubP only. *)
      match op with
      | kS390_Add | kS390_Sub =>
          if V8_TARGET_ARCH_S390X then Some Cond.lt else None
      | kS390_AddWithOverflow32 | kS390_SubWithOverflow32 =>
          if V8_TARGET_ARCH_S390X then Some Cond.ne else Some Cond.lt
      | _ => None
      end
  | kNotOverflow =>
      match op with
      | kS390_Add | kS390_Sub =>
          if V8_TARGET_ARCH_S390X then Some Cond.ge else None
      | kS390_AddWithOverflow32 | kS390_SubWithOverflow32 =>
          if V8_TARGET_ARCH_S390X then Some Cond.eq else Some Cond.ge
      | _ => None
      end
  | _ => None
  end.

(* ===================================================================== *)
(** ** The ASSEMBLE_ macros (lines 256-567) *)
(* ===================================================================== *)

Section Macros.
Variable instr : Instruction.

(** Lines 256-259. *)
Definition ASSEMBLE_FLOAT_UNOP (asm_instr : DoubleRegister -> DoubleRegister -> MInstr)
  : Gen unit :=
  out <- OutputDoubleRegister instr ;;
  in0 <- InputDoubleRegister instr 0 ;;
  emit (asm_instr out in0).

(** Lines 269-278. *)
Definition ASSEMBLE_BINOP (asm_instr_reg asm_instr_imm : Register -> Register -> Opnd2 -> MInstr)
  : Gen unit :=
  if HasRegisterInput instr 1 then
    out <- OutputRegister instr 0 ;;
    in0 <- InputRegister instr 0 ;;
    in1 <- InputRegister instr 1 ;;
    emit (asm_instr_reg out in0 (R in1))
  else
    out <- OutputRegister instr 0 ;;
    in0 <- InputRegister instr 0 ;;
    imm <- InputImmediate instr 1 ;;
    emit (asm_instr_imm out in0 (I imm)).

(** Lines 293-302. *)
Definition ASSEMBLE_ADD_WITH_OVERFLOW : Gen unit :=
  if HasRegisterInput instr 1 then
    out <- OutputRegister instr 0 ;;
    in0 <- InputRegister instr 0 ;;
    in1 <- InputRegister instr 1 ;;
    emit (AddAndCheckForOverflow out in0 (R in1) kScratchReg r0)
  else
    out <- OutputRegister instr 0 ;;
    in0 <- InputRegister instr 0 ;;
    imm <- InputInt32 instr 1 ;;
    emit (AddAndCheckForOverflow out in0 (I imm) kScratchReg r0).

(** The value of [-i.InputInt32(1)], an [int32_t] negation. *)
Definition neg_int32 (v : Z) : Z := signed 32 (- v).

(** Lines 305-314. *)
Definition ASSEMBLE_SUB_WITH_OVERFLOW : Gen unit :=
  if HasRegisterInput instr 1 then
    out <- OutputRegister instr 0 ;;
    in0 <- InputRegister instr 0 ;;
    in1 <- InputRegister instr 1 ;;
    emit (SubAndCheckForOverflow out in0 in1 kScratchReg r0)
  else
    out <- OutputRegister instr 0 ;;
    in0 <- InputRegister instr 0 ;;
    imm <- InputInt32 instr 1 ;;
    emit (AddAndCheckForOverflow out in0 (I (neg_int32 imm)) kScratchReg r0).

(** Lines 317-333. *)
Definition ASSEMBLE_ADD_WITH_OVERFLOW32 : Gen unit :=
  if V8_TARGET_ARCH_S390X then
    ASSEMBLE_BINOP AddP AddP ;;
    out <- OutputRegister instr 0 ;;
    emit (TestIfInt32 out r0)
  else ASSEMBLE_ADD_WITH_OVERFLOW.

Definition ASSEMBLE_SUB_WITH_OVERFLOW32 : Gen unit :=
  if V8_TARGET_ARCH_S390X then
    ASSEMBLE_BINOP SubP SubP ;;
    out <- OutputRegister instr 0 ;;
    emit (TestIfInt32 out r0)
  else ASSEMBLE_SUB_WITH_OVERFLOW.

(** Lines 336-351. *)
Definition ASSEMBLE_COMPARE (cmp_instr cmpl_instr : Register -> Opnd2 -> MInstr)
  : Gen unit :=
  if HasRegisterInput instr 1 then
    if CompareLogical instr then
      in0 <- InputRegister instr 0 ;;
      in1 <- InputRegister instr 1 ;;
      emit (cmpl_instr in0 (R in1))
    else
      in0 <- InputRegister instr 0 ;;
      in1 <- InputRegister instr 1 ;;
      emit (cmp_instr in0 (R in1))
  else
    if CompareLogical instr then
      in0 <- InputRegister instr 0 ;;
      imm <- InputImmediate instr 1 ;;
      emit (cmpl_instr in0 (I imm))
    else
      in0 <- InputRegister instr 0 ;;
      imm <- InputImmediate instr 1 ;;
      emit (cmp_instr in0 (I imm)).

(** Lines 413-419. *)
Definition ASSEMBLE_LOAD_FLOAT (asm_instr : DoubleRegister -> MemOperand -> MInstr)
  : Gen unit :=
  result <- OutputDoubleRegister instr ;;
  om <- MemoryOperand instr 0 ;;
  emit (asm_instr result (fst om)).

(** Lines 422-428. *)
Definition ASSEMBLE_LOAD_INTEGER (asm_instr : Register -> MemOperand -> MInstr)
  : Gen unit :=
  result <- OutputRegister instr 0 ;;
  om <- MemoryOperand instr 0 ;;
  emit (asm_instr result (fst om)).

(** Lines 431-438. *)
Definition ASSEMBLE_STORE_FLOAT32 : Gen unit :=
  om <- MemoryOperand instr 0 ;;
  value <- InputDoubleRegister instr (snd om) ;;
  emit (StoreDoubleAsFloat32 value (fst om) kScratchDoubleReg).

(** Lines 441-448. *)
Definition ASSEMBLE_STORE_DOUBLE : Gen unit :=
  om <- MemoryOperand instr 0 ;;
  value <- InputDoubleRegister instr (snd om) ;;
  emit (StoreF value (fst om)).

(** Lines 451-458. *)
Definition ASSEMBLE_STORE_INTEGER (asm_instr : Register -> MemOperand -> MInstr)
  : Gen unit :=
  om <- MemoryOperand instr 0 ;;
  value <- InputRegister instr (snd om) ;;
  emit (asm_instr value (fst om)).

(** The compare of the offset with the length that every checked access
    starts with (lines 470-476 and their copies). *)
Definition compare_offset_with_length (offset : Register) : Gen unit :=
  emit (lgfr offset offset) ;;
  if HasRegisterInput instr 2 then
    len <- InputRegister instr 2 ;;
    emit (CmpLogical32 offset (R len))
  else
    len <- InputImmediate instr 2 ;;
    emit (CmpLogical32 offset (I len)).

(** Lines 464-481; [width] selects [OutOfLineLoadNAN32] or
    [OutOfLineLoadNAN64]. *)
Definition ASSEMBLE_CHECKED_LOAD_FLOAT (asm_instr : DoubleRegister -> MemOperand -> MInstr)
                                       (width : DoubleRegister -> OutOfLineKind)
  : Gen unit :=
  result <- OutputDoubleRegister instr ;;
  om <- MemoryOperand instr 0 ;;
  let operand := fst om in
  let offset := mo_rb operand in
  compare_offset_with_length offset ;;
  ool <- new_ool (width result) ;;
  emit (bge (ool_entry ool)) ;;
  emit (asm_instr result operand) ;;
  emit (bind (ool_exit ool)).

(** Lines 485-502. *)
Definition ASSEMBLE_CHECKED_LOAD_INTEGER (asm_instr : Register -> MemOperand -> MInstr)
  : Gen unit :=
  result <- OutputRegister instr 0 ;;
  om <- MemoryOperand instr 0 ;;
  let operand := fst om in
  let offset := mo_rb operand in
  compare_offset_with_length offset ;;
  ool <- new_ool (OutOfLineLoadZero result) ;;
  emit (bge (ool_entry ool)) ;;
  emit (asm_instr result operand) ;;
  emit (bind (ool_exit ool)).

(** Lines 506-524. *)
Definition ASSEMBLE_CHECKED_STORE_FLOAT32 : Gen unit :=
  done <- new_label ;;
  om <- MemoryOperand instr 0 ;;
  let operand := fst om in
  let offset := mo_rb operand in
  compare_offset_with_length offset ;;
  emit (bge done) ;;
  value <- InputDoubleRegister instr 3 ;;
  emit (StoreDoubleAsFloat32 value operand kScratchDoubleReg) ;;
  emit (bind done).

(** Lines 528-546. *)
Definition ASSEMBLE_CHECKED_STORE_DOUBLE : Gen unit :=
  done <- new_label ;;
  om <- MemoryOperand instr 0 ;;
  let operand := fst om in
  let offset := mo_rb operand in
  compare_offset_with_length offset ;;
  emit (bge done) ;;
  value <- InputDoubleRegister instr 3 ;;
  emit (StoreF value operand) ;;
  emit (bind done).

(** Lines 550-567. *)
Definition ASSEMBLE_CHECKED_STORE_INTEGER (asm_instr : Register -> MemOperand -> MInstr)
  : Gen unit :=
  done <- new_label ;;
  om <- MemoryOperand instr 0 ;;
  let operand := fst om in
  let offset := mo_rb operand in
  compare_offset_with_length offset ;;
  emit (bge done) ;;
  value <- InputRegister instr 3 ;;
  emit (asm_instr value operand) ;;
  emit (bind done).

(** The shape shared by the three 32-bit shifts (lines 764-775, 781-792,
    798-810). *)
Definition assemble_shift32 (shift : Register -> Register -> Opnd2 -> MInstr)
  : Gen unit :=
  if HasRegisterInput instr 1 then
    out <- OutputRegister instr 0 ;;
    in1 <- InputRegister instr 1 ;;
    if is_r out in1 then
      emit (LoadRR kScratchReg in1) ;;
      in0 <- InputRegister instr 0 ;;
      emit (shift out in0 (R kScratchReg))
    else ASSEMBLE_BINOP shift shift
  else ASSEMBLE_BINOP shift shift.

(** The shape shared by [kS390_AddDouble] and [kS390_MulDouble] (lines
    897-906 and 950-959). *)
Definition assemble_commutative_double (op : DoubleRegister -> DoubleRegister -> MInstr)
  : Gen unit :=
  out <- OutputDoubleRegister instr ;;
  in0 <- InputDoubleRegister instr 0 ;;
  in1 <- InputDoubleRegister instr 1 ;;
  (* Ensure we don't clobber right/InputReg(1) *)
  if is_d out in1 then ASSEMBLE_FLOAT_UNOP op
  else
    when (negb (is_d out in0)) (emit (ldr out in0)) ;;
    emit (op out in1).

(** The shape shared by [kS390_SubDouble] and [kS390_DivDouble] (lines
    921-933 and 979-990). *)
Definition assemble_ordered_double (op : DoubleRegister -> DoubleRegister -> MInstr)
  : Gen unit :=
  out <- OutputDoubleRegister instr ;;
  in0 <- InputDoubleRegister instr 0 ;;
  in1 <- InputDoubleRegister instr 1 ;;
  if is_d out in1 then
    emit (ldr kScratchDoubleReg in1) ;;
    emit (ldr out in0) ;;
    emit (op out kScratchDoubleReg)
  else
    when (negb (is_d out in0)) (emit (ldr out in0)) ;;
    emit (op out in1).

End Macros.

(* ===================================================================== *)
(** ** AssemblePrologue and AssembleReturn (lines 1550-1647) *)
(* ===================================================================== *)

(** The register counts of frames-s390.h ([kNumCalleeSaved],
    [kNumCalleeSavedDoubles]) and the flag
    [FLAG_enable_embedded_constant_pool], which the prologue reads: they
    are defined outside this file and are left open. *)
Class FrameConstants : Set := {
  kNumCalleeSaved : Z;
  kNumCalleeSavedDoubles : Z;
  FLAG_enable_embedded_constant_pool : bool
}.

Section Frames.
Context {frame_constants : FrameConstants}.
Variable gen : CodeGenerator.

(** [JavaScriptFrameConstants::kFunctionOffset]: the slot below the
    context slot. *)
Definition kFunctionOffset : Z := - 2 * kPointerSize.

(** The number of stack slots the prologue lowers the stack pointer by
    (lines 1570-1589). *)
Definition stack_shrink_slots : Z :=
  let slots := GetSpillSlotCount gen in
  let slots := if is_osr gen then slots - UnoptimizedFrameSlots gen else slots in
  if negb (CalleeSavedFPRegisters (descriptor gen) =? 0)
  then slots + AlignSavedCalleeRegisterSlots gen
  else slots.

(** [base::bits::CountPopulation32] of a register list. *)
Definition count_bits (regs : RegList) : Z := Z.of_nat (length (codes_of regs)).

Definition AssemblePrologue : Gen unit :=
  (if IsCFunctionCall (descriptor gen) then
     emit (Push2 r14 fp) ;;
     emit (LoadRR fp sp)
   else if IsJSFunctionCall (descriptor gen) then
     emit Prologue
   else if needs_frame gen then
     (* [StubPrologue()] for a wasm function when calls do not go through
        ip, [StubPrologue(ip)] otherwise: the same frame *)
     emit StubPrologue
   else
     (* frame()->SetElidedFrameSizeInSlots(0) *)
     gret tt) ;;
  when (is_osr gen)
    ((* TurboFan OSR-compiled functions cannot be entered directly. *)
     emit Abort ;;
     emit (LoadP r3 (MemOperand_ri fp kFunctionOffset))) ;;
  let double_saves := CalleeSavedFPRegisters (descriptor gen) in
  when (0 <? stack_shrink_slots)
    (emit (lay sp (MemOperand_ri sp (- stack_shrink_slots * kPointerSize)))) ;;
  (* Save callee-saved Double registers. *)
  when (negb (double_saves =? 0))
    (emit (MultiPushDoubles double_saves) ;;
     (* DCHECK(kNumCalleeSavedDoubles == CountPopulation32(double_saves)),
        a check of debug builds *)
     AllocateSavedCalleeRegisterSlots
       (kNumCalleeSavedDoubles * (kDoubleSize / kPointerSize))) ;;
  (* Save callee-saved registers. *)
  let saves := CalleeSavedRegisters (descriptor gen) in
  when (negb (saves =? 0))
    (emit (MultiPush saves) ;;
     (* register save area does not include the fp or constant pool pointer. *)
     let num_saves :=
       kNumCalleeSaved - 1
       - (if FLAG_enable_embedded_constant_pool then 1 else 0) in
     (* DCHECK(num_saves == CountPopulation32(saves)), a check of debug
        builds *)
     AllocateSavedCalleeRegisterSlots num_saves).

Definition AssembleReturn : Gen unit :=
  let pop_count := StackParameterCount (descriptor gen) in
  (* Restore registers. *)
  let saves := CalleeSavedRegisters (descriptor gen) in
  when (negb (saves =? 0)) (emit (MultiPop saves)) ;;
  (* Restore double registers. *)
  let double_saves := CalleeSavedFPRegisters (descriptor gen) in
  when (negb (double_saves =? 0)) (emit (MultiPopDoubles double_saves)) ;;
  if IsCFunctionCall (descriptor gen) then
    emit (LeaveFrame (pop_count * kPointerSize)) ;;
    emit Ret
  else if needs_frame gen then
    (* Canonicalize JSFunction return sites for now. *)
    bound <- return_label_is_bound ;;
    if bound then emit (b_always ReturnLabel)
    else
      bind_return_label ;;
      emit (LeaveFrame (pop_count * kPointerSize)) ;;
      emit Ret
  else
    emit (Drop pop_count) ;;
    emit Ret.

End Frames.

(* ===================================================================== *)
(** ** AssembleArchTableSwitch and AssembleJumpTable *)
(* ===================================================================== *)

(** [i.InputRpo(index + 2)] for [index] from 0 to [case_count - 1], as
    labels. *)
Fixpoint case_labels (instr : Instruction) (index : nat) (n : nat) : Gen (list Label) :=
  match n with
  | O => gret []
  | S k =>
      rpo <- InputRpo instr (index + 2) ;;
      rest <- case_labels instr (S index) k ;;
      gret (GetLabel rpo :: rest)
  end.

(** Lines 1524-1539. *)
Definition AssembleArchTableSwitch (instr : Instruction) : Gen unit :=
  input <- InputRegister instr 0 ;;
  let case_count := (InputCount instr - 2)%nat in
  cases <- case_labels instr 0 case_count ;;
  table <- AddJumpTable cases ;;
  emit (CmpLogicalP input (I (Z.of_nat case_count))) ;;
  default_rpo <- InputRpo instr 1 ;;
  emit (bge (GetLabel default_rpo)) ;;
  emit (larl kScratchReg table) ;;
  emit (ShiftLeftP r1 input kPointerSizeLog2) ;;
  emit (LoadP kScratchReg (MemOperand_rr kScratchReg r1)) ;;
  emit (Jump kScratchReg).

(** What the assembler puts in the data of a jump table. *)
Inductive Data : Set := emit_label_addr (l : Label).

(** Lines 1821-1825. *)
Definition AssembleJumpTable (targets : list Label) : list Data :=
  map emit_label_addr targets.

(* ===================================================================== *)
(** ** AssembleArchInstruction (lines 594-1418) *)
(* ===================================================================== *)

Definition AssembleArchInstruction (gen : CodeGenerator) (instr : Instruction) : Gen unit :=
  match arch_opcode instr with
  | kArchTableSwitch => AssembleArchTableSwitch instr
  | kArchNop => gret tt
  | kArchRet => AssembleReturn gen
  | kS390_And => ASSEMBLE_BINOP instr AndP AndP
  | kS390_AndComplement =>
      in1 <- InputRegister instr 1 ;;
      emit (NotP in1) ;;
      out <- OutputRegister instr 0 ;;
      in0 <- InputRegister instr 0 ;;
      emit (AndP out in0 (R in1))
  | kS390_Or => ASSEMBLE_BINOP instr OrP OrP
  | kS390_OrComplement =>
      in1 <- InputRegister instr 1 ;;
      emit (NotP in1) ;;
      out <- OutputRegister instr 0 ;;
      in0 <- InputRegister instr 0 ;;
      emit (OrP out in0 (R in1))
  | kS390_Xor => ASSEMBLE_BINOP instr XorP XorP
  | kS390_ShiftLeft32 => assemble_shift32 instr ShiftLeft
  | kS390_ShiftRight32 => assemble_shift32 instr ShiftRight
  | kS390_ShiftRightAlg32 => assemble_shift32 instr ShiftRightArith
  | kS390_Add =>
      if V8_TARGET_ARCH_S390X then
        match flags_mode instr with
        | kFlags_none => ASSEMBLE_BINOP instr AddP AddP
        | _ => ASSEMBLE_ADD_WITH_OVERFLOW instr
        end
      else ASSEMBLE_BINOP instr AddP AddP
  | kS390_AddWithOverflow32 => ASSEMBLE_ADD_WITH_OVERFLOW32 instr
  | kS390_AddDouble => assemble_commutative_double instr adbr
  | kS390_Sub =>
      if V8_TARGET_ARCH_S390X then
        match flags_mode instr with
        | kFlags_none => ASSEMBLE_BINOP instr SubP SubP
        | _ => ASSEMBLE_SUB_WITH_OVERFLOW instr
        end
      else ASSEMBLE_BINOP instr SubP SubP
  | kS390_SubWithOverflow32 => ASSEMBLE_SUB_WITH_OVERFLOW32 instr
  | kS390_SubDouble => assemble_ordered_double instr sdbr
  | kS390_MulDouble => assemble_commutative_double instr mdbr
  | kS390_DivDouble => assemble_ordered_double instr ddbr
  | kS390_Cmp32 => ASSEMBLE_COMPARE instr Cmp32 CmpLogical32
  | kS390_Cmp64 =>
      if V8_TARGET_ARCH_S390X then ASSEMBLE_COMPARE instr CmpP CmpLogicalP
      else UNREACHABLE
  | kS390_CmpDouble =>
      in0 <- InputDoubleRegister instr 0 ;;
      in1 <- InputDoubleRegister instr 1 ;;
      emit (cdbr in0 in1)
  | kS390_LoadWordS8 =>
      ASSEMBLE_LOAD_INTEGER instr LoadlB ;;
      out <- OutputRegister instr 0 ;;
      if V8_TARGET_ARCH_S390X then emit (lgbr out out) else emit (lbr out out)
  | kS390_LoadWordU8 => ASSEMBLE_LOAD_INTEGER instr LoadlB
  | kS390_LoadWordU16 => ASSEMBLE_LOAD_INTEGER instr LoadLogicalHalfWordP
  | kS390_LoadWordS16 => ASSEMBLE_LOAD_INTEGER instr LoadHalfWordP
  | kS390_LoadWordS32 => ASSEMBLE_LOAD_INTEGER instr LoadW
  | kS390_LoadWord64 =>
      if V8_TARGET_ARCH_S390X then ASSEMBLE_LOAD_INTEGER instr lg else UNREACHABLE
  | kS390_LoadFloat32 => ASSEMBLE_LOAD_FLOAT instr LoadShortConvertToDoubleF
  | kS390_LoadDouble => ASSEMBLE_LOAD_FLOAT instr LoadF
  | kS390_StoreWord8 => ASSEMBLE_STORE_INTEGER instr StoreByte
  | kS390_StoreWord16 => ASSEMBLE_STORE_INTEGER instr StoreHalfWord
  | kS390_StoreWord32 => ASSEMBLE_STORE_INTEGER instr StoreW
  | kS390_StoreWord64 =>
      if V8_TARGET_ARCH_S390X then ASSEMBLE_STORE_INTEGER instr StoreP else UNREACHABLE
  | kS390_StoreFloat32 => ASSEMBLE_STORE_FLOAT32 instr
  | kS390_StoreDouble => ASSEMBLE_STORE_DOUBLE instr
  | kCheckedLoadInt8 =>
      ASSEMBLE_CHECKED_LOAD_INTEGER instr LoadlB ;;
      out <- OutputRegister instr 0 ;;
      if V8_TARGET_ARCH_S390X then emit (lgbr out out) else emit (lbr out out)
  | kCheckedLoadUint8 => ASSEMBLE_CHECKED_LOAD_INTEGER instr LoadlB
  | kCheckedLoadInt16 => ASSEMBLE_CHECKED_LOAD_INTEGER instr LoadHalfWordP
  | kCheckedLoadUint16 => ASSEMBLE_CHECKED_LOAD_INTEGER instr LoadLogicalHalfWordP
  | kCheckedLoadWord32 => ASSEMBLE_CHECKED_LOAD_INTEGER instr LoadW
  | kCheckedLoadWord64 =>
      if V8_TARGET_ARCH_S390X then ASSEMBLE_CHECKED_LOAD_INTEGER instr LoadP
      else UNREACHABLE
  | kCheckedLoadFloat32 =>
      ASSEMBLE_CHECKED_LOAD_FLOAT instr LoadShortConvertToDoubleF OutOfLineLoadNAN32
  | kCheckedLoadFloat64 => ASSEMBLE_CHECKED_LOAD_FLOAT instr LoadF OutOfLineLoadNAN64
  | kCheckedStoreWord8 => ASSEMBLE_CHECKED_STORE_INTEGER instr StoreByte
  | kCheckedStoreWord16 => ASSEMBLE_CHECKED_STORE_INTEGER instr StoreHalfWord
  | kCheckedStoreWord32 => ASSEMBLE_CHECKED_STORE_INTEGER instr StoreW
  | kCheckedStoreWord64 =>
      if V8_TARGET_ARCH_S390X then ASSEMBLE_CHECKED_STORE_INTEGER instr StoreP
      else UNREACHABLE
  | kCheckedStoreFloat32 => ASSEMBLE_CHECKED_STORE_FLOAT32 instr
  | kCheckedStoreFloat64 => ASSEMBLE_CHECKED_STORE_DOUBLE instr
  end.

(* ===================================================================== *)
(** ** AssembleArchBranch and AssembleArchBoolean (lines 1422-1510) *)
(* ===================================================================== *)

Definition opcode_eqb_CmpDouble (op : ArchOpcode) : bool :=
  match op with kS390_CmpDouble => true | _ => false end.

(** Lines 1422-1441. *)
Definition AssembleArchBranch (instr : Instruction) (branch : BranchInfo) : Gen unit :=
  let tlabel := true_label branch in
  let flabel := false_label branch in
  let op := arch_opcode instr in
  cond <- lift (FlagsConditionToCondition (condition branch) op) ;;
  when (opcode_eqb_CmpDouble op)
    ((* check for unordered if necessary
        Branching to flabel/tlabel according to what's expected by tests *)
     if cond_eqb cond Cond.le || cond_eqb cond Cond.eq || cond_eqb cond Cond.lt then
       emit (bunordered flabel)
     else if cond_eqb cond Cond.gt || cond_eqb cond Cond.ne || cond_eqb cond Cond.ge then
       emit (bunordered tlabel)
     else gret tt) ;;
  emit (b cond tlabel) ;;
  when (negb (fallthru branch)) (emit (b_always flabel)).

(** Lines 1450-1510. *)
Definition AssembleArchBoolean (instr : Instruction) (condition : FlagsCondition) : Gen unit :=
  done <- new_label ;;
  let op := arch_opcode instr in
  let check_unordered := opcode_eqb_CmpDouble op in
  (* Materialize a full 32-bit 1 or 0 value. The result register is always
     the last output of the instruction. *)
  reg <- OutputRegister instr (OutputCount instr - 1) ;;
  cond <- lift (FlagsConditionToCondition condition op) ;;
  match cond with
  | Cond.ne | Cond.ge | Cond.gt =>
      if check_unordered then
        emit (LoadImmP reg 1) ;;
        emit (LoadImmP kScratchReg 0) ;;
        emit (bunordered done) ;;
        cond_true <- new_label ;;
        emit (b cond cond_true) ;;
        emit (LoadRR reg kScratchReg) ;;
        emit (bind cond_true)
      else
        cond_true <- new_label ;;
        emit (LoadImmP reg 1) ;;
        emit (b cond cond_true) ;;
        emit (LoadImmP reg 0) ;;
        emit (bind cond_true)
  | Cond.eq | Cond.lt | Cond.le =>
      if check_unordered then
        emit (LoadImmP reg 0) ;;
        emit (LoadImmP kScratchReg 1) ;;
        emit (bunordered done) ;;
        cond_false <- new_label ;;
        emit (b (NegateCondition cond) cond_false) ;;
        emit (LoadRR reg kScratchReg) ;;
        emit (bind cond_false)
      else
        emit (LoadImmP reg 0) ;;
        cond_false <- new_label ;;
        emit (b (NegateCondition cond) cond_false) ;;
        emit (LoadImmP reg 1) ;;
        emit (bind cond_false)
  | _ => UNREACHABLE
  end ;;
  emit (bind done).

End CodeGen.

(* ===================================================================== *)
(** ** EnsureSpaceForLazyDeopt (lines 1833-1853) *)
(* ===================================================================== *)

Module LazyDeopt.

(** What the function reads and changes: the assembler's [pc_offset()], the
    generator's [last_lazy_deopt_pc_], and the nops emitted so far. *)
Record State : Set := mkState {
  pc_offset : Z;
  last_lazy_deopt_pc_ : Z;
  nops : nat
}.

(** [__ nop()] emits one two-byte instruction. *)
Definition kNopSize : Z := 2.

Definition nop (st : State) : State :=
  mkState (pc_offset st + kNopSize) (last_lazy_deopt_pc_ st) (S (nops st)).

(** The loop [while (padding_size > 0) { __ nop(); padding_size -= 2; }]. *)
Function pad (padding_size : Z) (st : State) {measure Z.to_nat padding_size}
  : State :=
  if 0 <? padding_size then pad (padding_size - 2) (nop st) else st.
Proof. intros padding_size _ Hpos. apply Z.ltb_lt in Hpos. lia. Defined.

(** [should_ensure] is [info()->ShouldEnsureSpaceForLazyDeopt()] and
    [patch_size] is [Deoptimizer::patch_size()]. *)
Definition EnsureSpaceForLazyDeopt (should_ensure : bool) (patch_size : Z)
                                   (st : State) : State :=
  if negb should_ensure then st
  else
    let space_needed := patch_size in
    let current_pc := pc_offset st in
    if current_pc <? last_lazy_deopt_pc_ st + space_needed then
      let padding_size := last_lazy_deopt_pc_ st + space_needed - current_pc in
      pad padding_size st
    else st.

(** Code of [size] bytes that is not a lazy-deopt site. *)
Definition emit_code (size : nat) (st : State) : State :=
  mkState (pc_offset st + Z.of_nat size) (last_lazy_deopt_pc_ st) (nops st).

(** Modelled from the spec: [RecordCallPosition] (code-generator.cc) is not
    in the sources; for a call site that is eligible for lazy
    deoptimization it records the offset after the call as the last
    lazy-deopt site, the place a later patch is written over (section 4.4:
    "reserve a minimum padding of native code between consecutive
    lazy-deopt-eligible call sites"). *)
Definition RecordCallPosition (st : State) : State :=
  mkState (pc_offset st) (pc_offset st) (nops st).

(** The shape of [kArchCallCodeObject] (lines 599-614):
    [EnsureSpaceForLazyDeopt(); __ Call(...); RecordCallPosition(instr)],
    with a call sequence of [call_size] bytes. *)
Definition call_site (should_ensure : bool) (patch_size : Z) (call_size : nat)
                     (st : State) : State :=
  RecordCallPosition (emit_code call_size (EnsureSpaceForLazyDeopt should_ensure patch_size st)).

End LazyDeopt.


(* ===================================================================== *)
(** ** AssembleArchJump and AssembleArchLookupSwitch (lines 1444-1521) *)
(* ===================================================================== *)

Section Jumps.
Context {arch : TargetArch}.

(** [CodeGenerator::IsNextInAssemblyOrder] is defined outside this file:
    whether a block follows the current one in assembly order is left
    open. *)
Variable IsNextInAssemblyOrder : nat -> bool.

(** Lines 1444-1446. *)
Definition AssembleArchJump (target : nat) : Gen unit :=
  when (negb (IsNextInAssemblyOrder target)) (emit (b_always (GetLabel target))).

(** One round of the loop of [AssembleArchLookupSwitch]. *)
Definition lookup_case (instr : Instruction) (input : Register) (index : nat) : Gen unit :=
  v <- InputInt32 instr (index + 0) ;;
  emit (CmpP input (I v)) ;;
  rpo <- InputRpo instr (index + 1) ;;
  emit (beq (GetLabel rpo)).

(** The loop
    [for (size_t index = 2; index < instr->InputCount(); index += 2)]. *)
Function lookup_cases (instr : Instruction) (input : Register) (index : nat)
    (a : Assembler) {measure (fun i => (InputCount instr - i)%nat) index}
  : option (unit * Assembler) :=
  if (index <? InputCount instr)%nat then
    match lookup_case instr input index a with
    | Some (_, a') => lookup_cases instr input (index + 2) a'
    | None => None
    end
  else Some (tt, a).
Proof. intros instr input index a H. intros. apply Nat.ltb_lt in H. lia. Defined.

(** Lines 1513-1521. *)
Definition AssembleArchLookupSwitch (instr : Instruction) : Gen unit :=
  input <- InputRegister instr 0 ;;
  lookup_cases instr input 2 ;;
  default_rpo <- InputRpo instr 1 ;;
  AssembleArchJump default_rpo.

End Jumps.

(* ===================================================================== *)
(** ** AssembleMove and AssembleSwap (lines 1650-1818) *)
(* ===================================================================== *)

Module Gap.

(** [FrameOffset] of frame.h: an offset from the stack pointer or from the
    frame pointer. *)
Record FrameOffset : Set := mkFrameOffset {
  from_stack_pointer : bool;
  offset : Z
}.

(** [double value = src.ToFloat32()] (line 1720), on bit patterns: the
    conversion of a [float] to a [double] widens a number or an infinity
    as it is and brings a NaN out quiet, the leading fraction bit set. *)
Definition float_to_double (bits : Z) : Z :=
  let value := f32_to_f64 bits in
  if is_nan value then Z.lor value (2 ^ 51) else value.

(** The operands of a gap move: an operand of the instruction stream, or a
    [ConstantOperand], which [IsConstant()] tells from an immediate and
    which stands for the constant of its virtual register. *)
Inductive MoveOperand : Set :=
  | Operand (op : InstructionOperand)
  | ConstantOperand (c : Constant).

Section Moves.
Context {arch : TargetArch}.

(** [frame_access_state()->GetFrameOffset(index)] is defined outside this
    file: where the frame keeps a slot is left open. *)
Variable GetFrameOffset : Z -> FrameOffset.

(** The code that loads a constant that lives in the heap or is an
    external reference (lines 1686-1709: [Move(dst, NewNumber(...))],
    [mov(dst, Operand(ExternalReference))], and for a heap object a load
    from the frame, from the root list or of the handle): it depends on the
    isolate and is left open. *)
Variable LoadHeapConstant : Register -> Constant -> list MInstr.

(** Lines 91-97. *)
Definition ToMemOperand (op : MoveOperand) : Gen MemOperand :=
  match op with
  | Operand (StackSlotOperand index) | Operand (DoubleStackSlotOperand index) =>
      let fo := GetFrameOffset index in
      gret (MemOperand_ri (if from_stack_pointer fo then sp else fp) (offset fo))
  | _ => UNREACHABLE
  end.

Definition IsRegister (op : MoveOperand) : bool :=
  match op with Operand (RegisterOperand _) => true | _ => false end.
Definition IsDoubleRegister (op : MoveOperand) : bool :=
  match op with Operand (DoubleRegisterOperand _) => true | _ => false end.
Definition IsStackSlot (op : MoveOperand) : bool :=
  match op with Operand (StackSlotOperand _) => true | _ => false end.
Definition IsDoubleStackSlot (op : MoveOperand) : bool :=
  match op with Operand (DoubleStackSlotOperand _) => true | _ => false end.
Definition IsConstant (op : MoveOperand) : bool :=
  match op with ConstantOperand _ => true | _ => false end.

Definition ToRegister (op : MoveOperand) : Gen Register :=
  match op with Operand (RegisterOperand r) => gret r | _ => UNREACHABLE end.
Definition ToDoubleRegister (op : MoveOperand) : Gen DoubleRegister :=
  match op with Operand (DoubleRegisterOperand d) => gret d | _ => UNREACHABLE end.

(** A failed [DCHECK] stops the generation. *)
Definition DCHECK (c : bool) : Gen unit := if c then gret tt else UNREACHABLE.

Fixpoint emit_list (code : list MInstr) : Gen unit :=
  match code with
  | [] => gret tt
  | i :: rest => emit i ;; emit_list rest
  end.

(** The calls of [AssembleMove] that are not calls of the lowering rules:
    [Move] copies a register (the effect of [LoadRR], of [ldr] for a
    floating register), [mov] loads an immediate (the effect of
    [LoadImmP]). *)
Definition Move (dst src : Register) : MInstr := LoadRR dst src.
Definition MoveDouble (dst src : DoubleRegister) : MInstr := ldr dst src.
Definition mov (dst : Register) (imm : Z) : MInstr := LoadImmP dst imm.

(** Lines 1650-1749. *)
Definition AssembleMove (source destination : MoveOperand) : Gen unit :=
  if IsRegister source then
    DCHECK (IsRegister destination || IsStackSlot destination) ;;
    src <- ToRegister source ;;
    if IsRegister destination then
      dst <- ToRegister destination ;;
      emit (Move dst src)
    else
      dst <- ToMemOperand destination ;;
      emit (StoreP src dst)
  else if IsStackSlot source then
    DCHECK (IsRegister destination || IsStackSlot destination) ;;
    src <- ToMemOperand source ;;
    if IsRegister destination then
      dst <- ToRegister destination ;;
      emit (LoadP dst src)
    else
      let temp := kScratchReg in
      emit (LoadP temp src) ;;
      dst <- ToMemOperand destination ;;
      emit (StoreP temp dst)
  else if IsConstant source then
    match source with
    | ConstantOperand src =>
        if IsRegister destination || IsStackSlot destination then
          dst <- (if IsRegister destination then ToRegister destination
                  else gret kScratchReg) ;;
          match src with
          | kInt32 v => emit (mov dst v)
          | kInt64 v => emit (mov dst v)
          | kFloat32 _ | kFloat64 _ | kExternalReference _ | kHeapObject _ =>
              emit_list (LoadHeapConstant dst src)
          | kRpoNumber _ => UNREACHABLE
          end ;;
          if IsStackSlot destination then
            m <- ToMemOperand destination ;;
            emit (StoreP dst m)
          else gret tt
        else
          dst <- (if IsDoubleRegister destination then ToDoubleRegister destination
                  else gret kScratchDoubleReg) ;;
          value <- match src with
                   | kFloat32 bits => gret (float_to_double bits)
                   | kFloat64 bits => gret bits
                   | _ => UNREACHABLE
                   end ;;
          emit (LoadDoubleLiteral dst value kScratchReg) ;;
          if IsDoubleStackSlot destination then
            m <- ToMemOperand destination ;;
            emit (StoreF dst m)
          else gret tt
    | _ => UNREACHABLE
    end
  else if IsDoubleRegister source then
    src <- ToDoubleRegister source ;;
    if IsDoubleRegister destination then
      dst <- ToDoubleRegister destination ;;
      emit (MoveDouble dst src)
    else
      DCHECK (IsDoubleStackSlot destination) ;;
      dst <- ToMemOperand destination ;;
      emit (StoreF src dst)
  else if IsDoubleStackSlot source then
    DCHECK (IsDoubleRegister destination || IsDoubleStackSlot destination) ;;
    src <- ToMemOperand source ;;
    if IsDoubleRegister destination then
      dst <- ToDoubleRegister destination ;;
      emit (LoadF dst src)
    else
      let temp := kScratchDoubleReg in
      emit (LoadF temp src) ;;
      dst <- ToMemOperand destination ;;
      emit (StoreF temp dst)
  else UNREACHABLE.

(** Lines 1752-1818. *)
Definition AssembleSwap (source destination : MoveOperand) : Gen unit :=
  if IsRegister source then
    (* Register-register. *)
    let temp := kScratchReg in
    src <- ToRegister source ;;
    if IsRegister destination then
      dst <- ToRegister destination ;;
      emit (LoadRR temp src) ;;
      emit (LoadRR src dst) ;;
      emit (LoadRR dst temp)
    else
      DCHECK (IsStackSlot destination) ;;
      dst <- ToMemOperand destination ;;
      emit (LoadRR temp src) ;;
      emit (LoadP src dst) ;;
      emit (StoreP temp dst)
  else if (if V8_TARGET_ARCH_S390X
           then IsStackSlot source || IsDoubleStackSlot source
           else IsStackSlot source) then
    (if V8_TARGET_ARCH_S390X then gret tt else DCHECK (IsStackSlot destination)) ;;
    let temp_0 := kScratchReg in
    let temp_1 := r0 in
    src <- ToMemOperand source ;;
    dst <- ToMemOperand destination ;;
    emit (LoadP temp_0 src) ;;
    emit (LoadP temp_1 dst) ;;
    emit (StoreP temp_0 dst) ;;
    emit (StoreP temp_1 src)
  else if IsDoubleRegister source then
    let temp := kScratchDoubleReg in
    src <- ToDoubleRegister source ;;
    if IsDoubleRegister destination then
      dst <- ToDoubleRegister destination ;;
      emit (ldr temp src) ;;
      emit (ldr src dst) ;;
      emit (ldr dst temp)
    else
      DCHECK (IsDoubleStackSlot destination) ;;
      dst <- ToMemOperand destination ;;
      emit (ldr temp src) ;;
      emit (LoadF src dst) ;;
      emit (StoreF temp dst)
  else if negb V8_TARGET_ARCH_S390X && IsDoubleStackSlot source then
    DCHECK (IsDoubleStackSlot destination) ;;
    let temp_0 := kScratchDoubleReg in
    let temp_1 := d0 in
    src <- ToMemOperand source ;;
    dst <- ToMemOperand destination ;;
    emit (LoadF temp_0 src) ;;
    emit (LoadF temp_1 dst) ;;
    emit (StoreF temp_0 dst) ;;
    emit (StoreF temp_1 src)
  else
    (* No other combinations are possible. *)
    UNREACHABLE.

End Moves.

End Gap.

(* ===================================================================== *)
(** ** Tail calls (lines 570-590) *)
(* ===================================================================== *)

Section TailCalls.
Context {arch : TargetArch}.

(** [FrameAccessState] (frame.h) and [TailCallFrameStackSlotDelta]
    (code-generator.cc) are defined outside this file: the state that says
    how slots are addressed, its operations and the slot delta of a tail
    call are left open. *)
Variable FrameAccessState : Type.
Variable SetFrameAccessToDefault : FrameAccessState -> FrameAccessState.
Variable SetFrameAccessToSP : FrameAccessState -> FrameAccessState.
Variable IncreaseSPDelta : Z -> FrameAccessState -> FrameAccessState.
Variable TailCallFrameStackSlotDelta : Z -> Z.

(** [StandardFrameConstants]: the caller's frame pointer is saved where
    the frame pointer points, the return address one word above. *)
Definition kCallerFPOffset : Z := 0 * kPointerSize.
Definition kCallerPCOffset : Z := 1 * kPointerSize.

(** Lines 570-576. *)
Definition AssembleDeconstructActivationRecord (stack_param_delta : Z)
    (fas : FrameAccessState) : Gen FrameAccessState :=
  let sp_slot_delta := TailCallFrameStackSlotDelta stack_param_delta in
  when (0 <? sp_slot_delta)
    (emit (AddP sp sp (I (sp_slot_delta * kPointerSize)))) ;;
  gret (SetFrameAccessToDefault fas).

(** Lines 579-590. *)
Definition AssemblePrepareTailCall (gen : CodeGenerator) (stack_param_delta : Z)
    (fas : FrameAccessState) : Gen FrameAccessState :=
  let sp_slot_delta := TailCallFrameStackSlotDelta stack_param_delta in
  fas <- (if sp_slot_delta <? 0 then
            emit (AddP sp sp (I (sp_slot_delta * kPointerSize))) ;;
            gret (IncreaseSPDelta (- sp_slot_delta) fas)
          else gret fas) ;;
  when (needs_frame gen)
    (emit (LoadP r14 (MemOperand_ri fp kCallerPCOffset)) ;;
     emit (LoadP fp (MemOperand_ri fp kCallerFPOffset))) ;;
  gret (SetFrameAccessToSP fas).

End TailCalls.

(* ===================================================================== *)
(** * Load elimination (src/compiler/load-elimination.cc) *)
(* ===================================================================== *)

Module LoadElimination.

(** The opcodes [ReduceLoadField] tells apart; every other opcode is
    [kOther]. *)
Inductive IrOpcode : Set :=
  | kLoadField | kStoreField
  | kBeginRegion | kStoreBuffer | kStoreElement
  | kFinishRegion | kAllocate
  | kOther.

(** [Reduction] of graph-reducer.h: no change, or the node that replaces
    the reduced one.  A [Replace] of [ReduceLoadField] also stands for its
    call of [ReplaceWithValue], which is made with the same node. *)
Inductive Reduction : Set :=
  | NoChange
  | Replace (value : nat).

(** What a walk along the effect chain comes to: a reduction, a failed
    check of an input index, or no end within the steps allowed. *)
Inductive Outcome : Set :=
  | Returns (r : Reduction)
  | Fails
  | Unfinished.

Section Graph.

(** [FieldAccess] and its [operator==] (simplified-operator.h) are defined
    outside this file: the type and the comparison are left open. *)
Variable FieldAccess : Type.
Variable access_eqb : FieldAccess -> FieldAccess -> bool.

(** What the reducer reads of a node: its opcode, of its operator the
    field access ([FieldAccessOf], for a load or a store of a field),
    and the property [kNoWrite], and its value and effect inputs; the
    operator's [EffectInputCount] is the number of the latter.  A node is known by its number; [==] on nodes is
    [Nat.eqb]. *)
Record Node : Type := mkNode {
  opcode : IrOpcode;
  FieldAccessOf : FieldAccess;
  kNoWrite : bool;
  value_inputs : list nat;
  effect_inputs : list nat
}.

Definition Graph : Type := nat -> Node.

Variable graph : Graph.

(** [NodeProperties::GetValueInput] and [GetEffectInput]: an index out of
    range fails their check. *)
Definition GetValueInput (node index : nat) : option nat :=
  nth_error (value_inputs (graph node)) index.

Definition GetEffectInput (node : nat) : option nat :=
  nth_error (effect_inputs (graph node)) 0.

Definition EffectInputCount (node : nat) : nat :=
  length (effect_inputs (graph node)).

(** The loop of [ReduceLoadField] (lines 32-82), from the effect node
    [effect] with [object] the object looked for, for at most [steps]
    rounds. *)
Fixpoint walk (steps : nat) (access : FieldAccess) (object effect : nat) : Outcome :=
  match steps with
  | O => Unfinished
  | S steps =>
      let next object :=
        match GetEffectInput effect with
        | Some effect' => walk steps access object effect'
        | None => Fails
        end in
      match opcode (graph effect) with
      | kLoadField =>
          match GetValueInput effect 0 with
          | Some input =>
              if Nat.eqb object input
                 && access_eqb access (FieldAccessOf (graph effect))
              then Returns (Replace effect)
              else next object
          | None => Fails
          end
      | kStoreField =>
          if access_eqb access (FieldAccessOf (graph effect)) then
            match GetValueInput effect 0 with
            | Some input =>
                if Nat.eqb object input then
                  match GetValueInput effect 1 with
                  | Some value => Returns (Replace value)
                  | None => Fails
                  end
                else
                  (* no alias analysis: another object node gives up *)
                  Returns NoChange
            | None => Fails
            end
          else next object
      | kBeginRegion | kStoreBuffer | kStoreElement =>
          (* These can never interfere with field loads. *)
          next object
      | kFinishRegion =>
          (* "Look through" FinishRegion nodes *)
          if Nat.eqb object effect then
            match GetValueInput effect 0 with
            | Some input => next input
            | None => Fails
            end
          else next object
      | kAllocate =>
          if Nat.eqb object effect then Returns NoChange else next object
      | kOther =>
          if negb (kNoWrite (graph effect))
             || negb (Nat.eqb (EffectInputCount effect) 1)
          then Returns NoChange
          else next object
      end
  end.

(** Lines 28-85. *)
Definition ReduceLoadField (steps : nat) (node : nat) : Outcome :=
  let access := FieldAccessOf (graph node) in
  match GetValueInput node 0 with
  | Some object =>
      match GetEffectInput node with
      | Some effect => walk steps access object effect
      | None => Fails
      end
  | None => Fails
  end.

(** Lines 17-25. *)
Definition Reduce (steps : nat) (node : nat) : Outcome :=
  match opcode (graph node) with
  | kLoadField => ReduceLoadField steps node
  | _ => Returns NoChange
  end.

End Graph.

Arguments mkNode {FieldAccess}.
Arguments opcode {FieldAccess}.
Arguments FieldAccessOf {FieldAccess}.
Arguments kNoWrite {FieldAccess}.
Arguments value_inputs {FieldAccess}.
Arguments effect_inputs {FieldAccess}.
Arguments GetValueInput {FieldAccess}.
Arguments GetEffectInput {FieldAccess}.
Arguments EffectInputCount {FieldAccess}.
Arguments walk {FieldAccess}.
Arguments ReduceLoadField {FieldAccess}.
Arguments Reduce {FieldAccess}.

End LoadElimination.
(* ===================================================================== *)
(** * Vocabulary of the statements *)
(* ===================================================================== *)

(** The value of an integer operand: the content of a register or an
    integer immediate. *)
Definition operand_value {arch : TargetArch} (s : Machine) (op : InstructionOperand)
  : option Z :=
  match op with
  | RegisterOperand r => Some (reg s r)
  | ImmediateOperand (kInt32 v) => Some v
  | ImmediateOperand (kInt64 v) => if V8_TARGET_ARCH_S390X then Some v else None
  | _ => None
  end.

(** The relation a flags condition asks for between two [width]-bit
    values. *)
Definition requested_relation (width : Z) (c : FlagsCondition) (x y : Z) : bool :=
  match c with
  | kEqual => signed width x =? signed width y
  | kNotEqual => negb (signed width x =? signed width y)
  | kSignedLessThan => signed width x <? signed width y
  | kSignedGreaterThanOrEqual => signed width y <=? signed width x
  | kSignedLessThanOrEqual => signed width x <=? signed width y
  | kSignedGreaterThan => signed width y <? signed width x
  | kUnsignedLessThan => wrap width x <? wrap width y
  | kUnsignedGreaterThanOrEqual => wrap width y <=? wrap width x
  | kUnsignedLessThanOrEqual => wrap width x <=? wrap width y
  | kUnsignedGreaterThan => wrap width y <? wrap width x
  | _ => false
  end.

(** The conditions that name an ordering or an equality of integers. *)
Definition is_ordering (c : FlagsCondition) : bool :=
  match c with
  | kUnorderedEqual | kUnorderedNotEqual | kOverflow | kNotOverflow => false
  | _ => true
  end.

Definition is_unsigned (c : FlagsCondition) : bool :=
  match c with
  | kUnsignedLessThan | kUnsignedGreaterThanOrEqual
  | kUnsignedLessThanOrEqual | kUnsignedGreaterThan => true
  | _ => false
  end.

Definition signed_variant (c : FlagsCondition) : FlagsCondition :=
  match c with
  | kUnsignedLessThan => kSignedLessThan
  | kUnsignedGreaterThanOrEqual => kSignedGreaterThanOrEqual
  | kUnsignedLessThanOrEqual => kSignedLessThanOrEqual
  | kUnsignedGreaterThan => kSignedGreaterThan
  | c => c
  end.

(** The width of the values an integer compare opcode compares. *)
Definition compare_width (op : ArchOpcode) : Z :=
  match op with kS390_Cmp64 => 64 | _ => 32 end.

(** The compare call each compare opcode should emit for a condition. *)
Definition compare_call (op : ArchOpcode) (c : FlagsCondition) : CmpOp :=
  match op, is_unsigned c with
  | kS390_Cmp64, true => OpCmpLogicalP
  | kS390_Cmp64, false => OpCmpP
  | _, true => OpCmpLogical32
  | _, false => OpCmp32
  end.

(** Where a branch after a double compare goes when the compare was
    unordered, as the comment of [AssembleArchBranch] documents it. *)
Definition unordered_target (c : FlagsCondition) (branch : BranchInfo) : Label :=
  match c with
  | kEqual
  | kSignedLessThan | kUnsignedLessThan
  | kSignedLessThanOrEqual | kUnsignedLessThanOrEqual => false_label branch
  | _ => true_label branch
  end.

(** The shift each 32-bit shift opcode stands for. *)
Definition shift_opcode (op : ArchOpcode) : option ShiftOp :=
  match op with
  | kS390_ShiftLeft32 => Some OpShiftLeft
  | kS390_ShiftRight32 => Some OpShiftRight
  | kS390_ShiftRightAlg32 => Some OpShiftRightArith
  | _ => None
  end.

(** [v] is the value of a signed integer of the register width. *)
Definition fits_pointer {arch : TargetArch} (v : Z) : bool :=
  (- 2 ^ (kBitsPerPointer - 1) <=? v) && (v <? 2 ^ (kBitsPerPointer - 1)).

(** The subtractions that are lowered through [ASSEMBLE_SUB_WITH_OVERFLOW]:
    [kS390_SubWithOverflow32] in the 31-bit build, [kS390_Sub] with a flags
    mode in the 64-bit build. *)
Definition uses_ASSEMBLE_SUB_WITH_OVERFLOW {arch : TargetArch} (instr : Instruction)
  : bool :=
  match arch_opcode instr with
  | kS390_SubWithOverflow32 => negb V8_TARGET_ARCH_S390X
  | kS390_Sub =>
      V8_TARGET_ARCH_S390X
      && match flags_mode instr with kFlags_none => false | _ => true end
  | _ => false
  end.

(** Concrete surroundings for the examples: a floating-point unit that
    treats bit patterns as integers, a layout that spreads the labels over
    distinct addresses, and a generator for a stub without a frame. *)
Definition example_float_ops : FloatOps :=
  {| fadd := Z.add; fsub := Z.sub; fmul := Z.mul; fdiv := Z.div;
     f64_to_f32 := fun x => x / 2 ^ 32 |}.

Definition example_layout : Layout :=
  {| label_address := fun l =>
       match l with
       | BlockLabel n => 4096 + 16 * Z.of_nat n
       | LocalLabel n => 8192 + 16 * Z.of_nat n
       | TableLabel n => 12288 + 256 * Z.of_nat n
       | ReturnLabel => 2048
       end;
     stub_marker := 0 |}.

(** Register counts for the examples: eight callee-saved general
    registers, the frame pointer among them, eight callee-saved floating
    registers, no embedded constant pool. *)
Definition example_frame_constants : FrameConstants :=
  {| kNumCalleeSaved := 8;
     kNumCalleeSavedDoubles := 8;
     FLAG_enable_embedded_constant_pool := false |}.

Definition example_generator : CodeGenerator :=
  mkCodeGenerator (mkCallDescriptor kCallCodeObject 0 0 0) false 0 0 false 0.

(** The arithmetic each double opcode stands for. *)
Definition double_opcode (op : ArchOpcode) : option FpOp :=
  match op with
  | kS390_AddDouble => Some Op_adbr
  | kS390_SubDouble => Some Op_sdbr
  | kS390_MulDouble => Some Op_mdbr
  | kS390_DivDouble => Some Op_ddbr
  | _ => None
  end.

Definition is_commutative_double (op : FpOp) : bool :=
  match op with Op_adbr | Op_mdbr => true | _ => false end.

(** The value the and-complement and or-complement opcodes stand for. *)
Definition complement_value (op : ArchOpcode) (x y : Z) : Z :=
  match op with
  | kS390_OrComplement => Z.lor x (Z.lnot y)
  | _ => Z.land x (Z.lnot y)
  end.

(** A machine with 10 in the floating register [d1] and 3 in [d2]. *)
Definition doubles_machine : Machine :=
  mkMachine (fun _ => 0)
            (fun d => if is_d d1 d then 10 else if is_d d2 d then 3 else 0)
            None (fun _ => 0).

(** A machine with 12 in [r2] and 10 in [r3]. *)
Definition operands_machine : Machine :=
  mkMachine (fun r => if is_r r2 r then 12 else if is_r r3 r then 10 else 0)
            (fun _ => 0) None (fun _ => 0).

(** A machine that holds zero everywhere but in one general register. *)
Definition machine_with (r : Register) (v : Z) : Machine :=
  mkMachine (fun r' => if is_r r r' then v else 0) (fun _ => 0) None (fun _ => 0).

(** The inputs of a table switch: the index register, the default block,
    then one block per case. *)
Definition table_switch_inputs (input : Register) (default : nat) (cases : list nat)
  : list InstructionOperand :=
  RegisterOperand input
    :: ImmediateOperand (kRpoNumber default)
    :: map (fun rpo => ImmediateOperand (kRpoNumber rpo)) cases.

(** The data [AssembleJumpTable] emits for [targets] is in memory at the
    address of the label [table]: one pointer-sized word per entry, holding
    the address of the entry's label. *)
Definition jump_table_in_memory {arch : TargetArch} {layout : Layout}
    (s : Machine) (table : Label) (targets : list Label) : Prop :=
  forall k l,
    nth_error (AssembleJumpTable targets) k = Some (emit_label_addr l) ->
    load_bytes pointer_bytes (mem s)
               (label_address table + Z.of_nat k * kPointerSize)
      = label_address l.

(** The code of a table switch (lines 1533-1538). *)
Definition table_switch_code {arch : TargetArch}
    (input : Register) (default : nat) (case_count : nat) (table : Label)
  : list MInstr :=
  [CmpLogicalP input (I (Z.of_nat case_count));
   bge (GetLabel default);
   larl kScratchReg table;
   ShiftLeftP r1 input kPointerSizeLog2;
   LoadP kScratchReg (MemOperand_rr kScratchReg r1);
   Jump kScratchReg].

(** A machine whose floating registers all hold the quiet NaN. *)
Definition nan_machine : Machine :=
  mkMachine (fun _ => 0) (fun _ => double_quiet_NaN) None (fun _ => 0).

(** A 64-bit machine with index 1 in [r2] and, at the address
    [example_layout] gives the first jump table, the table of the blocks 5
    and 6. *)
Definition table_machine : Machine :=
  mkMachine (fun r => if is_r r2 r then 1 else 0) (fun _ => 0) None
            (store_bytes 8
               (store_bytes 8 (fun _ => 0) 12288 (4096 + 16 * 5))
               (12288 + 8) (4096 + 16 * 6)).

(** The bounds-checked opcodes, split by what they access. *)
Definition is_checked_load_integer (op : ArchOpcode) : bool :=
  match op with
  | kCheckedLoadInt8 | kCheckedLoadUint8 | kCheckedLoadInt16 | kCheckedLoadUint16
  | kCheckedLoadWord32 | kCheckedLoadWord64 => true
  | _ => false
  end.

Definition is_checked_load_float (op : ArchOpcode) : bool :=
  match op with
  | kCheckedLoadFloat32 | kCheckedLoadFloat64 => true
  | _ => false
  end.

Definition is_checked_store (op : ArchOpcode) : bool :=
  match op with
  | kCheckedStoreWord8 | kCheckedStoreWord16 | kCheckedStoreWord32
  | kCheckedStoreWord64 | kCheckedStoreFloat32 | kCheckedStoreFloat64 => true
  | _ => false
  end.

Definition is_checked (op : ArchOpcode) : bool :=
  is_checked_load_integer op || is_checked_load_float op || is_checked_store op.

(** The opcode of the unchecked access of the same type and width. *)
Definition unchecked_opcode (op : ArchOpcode) : ArchOpcode :=
  match op with
  | kCheckedLoadInt8 => kS390_LoadWordS8
  | kCheckedLoadUint8 => kS390_LoadWordU8
  | kCheckedLoadInt16 => kS390_LoadWordS16
  | kCheckedLoadUint16 => kS390_LoadWordU16
  | kCheckedLoadWord32 => kS390_LoadWordS32
  | kCheckedLoadWord64 => kS390_LoadWord64
  | kCheckedLoadFloat32 => kS390_LoadFloat32
  | kCheckedLoadFloat64 => kS390_LoadDouble
  | kCheckedStoreWord8 => kS390_StoreWord8
  | kCheckedStoreWord16 => kS390_StoreWord16
  | kCheckedStoreWord32 => kS390_StoreWord32
  | kCheckedStoreWord64 => kS390_StoreWord64
  | kCheckedStoreFloat32 => kS390_StoreFloat32
  | kCheckedStoreFloat64 => kS390_StoreDouble
  | op => op
  end.

(** The unchecked access that corresponds to a checked one: the same
    base, offset, value and output, without the length. *)
Definition unchecked (instr : Instruction) : Instruction :=
  mkInstruction (unchecked_opcode (arch_opcode instr)) (addressing_mode instr)
                (flags_mode instr) (flags_condition instr)
                (match inputs instr with
                 | base :: offset :: _ :: rest => base :: offset :: rest
                 | l => l
                 end)
                (outputs instr).

(** What a checked access does first: the offset register is replaced by
    the sign extension of its low word ([lgfr(offset, offset)]). *)
Definition offset_sign_extended {arch : TargetArch} (s : Machine) (offset : Register)
  : Machine :=
  set_gpr s offset (sext32 (reg s offset)).

(** A 64-bit machine for a checked byte load: base [4096] in [r2], an
    offset register [r3] whose low word is 4 and whose upper word is not
    its sign extension, length 16 in [r4], and a single non-zero byte, at
    the address base + 4. *)
Definition garbled_offset_machine : Machine :=
  mkMachine (fun r => if is_r r2 r then 4096
                      else if is_r r3 r then 2 ^ 32 + 4
                      else if is_r r4 r then 16
                      else 0)
            (fun _ => 0) None
            (fun a => if a =? 4096 + 4 then 7 else 0).

(** ** Frames *)

Section FrameVocabulary.
Context {arch : TargetArch}.
Variable gen : CodeGenerator.

(** Whether the prologue builds a frame: the C frame, the frame of a
    JavaScript function, or a stub frame. *)
Definition builds_frame : bool :=
  IsCFunctionCall (descriptor gen) || IsJSFunctionCall (descriptor gen)
  || needs_frame gen.

(** The bytes the first call of the prologue pushes: return address and
    caller's frame pointer, and for the JavaScript and stub frames the
    context and the function or the frame marker. *)
Definition fixed_frame_size : Z :=
  if IsCFunctionCall (descriptor gen) then 2 * kPointerSize
  else if builds_frame then 4 * kPointerSize
  else 0.

Definition spill_area_size : Z :=
  if 0 <? stack_shrink_slots gen then stack_shrink_slots gen * kPointerSize else 0.

Definition saved_doubles : list nat := codes_of (CalleeSavedFPRegisters (descriptor gen)).
Definition saved_registers : list nat := codes_of (CalleeSavedRegisters (descriptor gen)).

(** The callee-save area: the doubles above the general registers. *)
Definition save_area_size : Z :=
  Z.of_nat (length saved_doubles) * kDoubleSize
  + Z.of_nat (length saved_registers) * kPointerSize.

Definition frame_size : Z := fixed_frame_size + spill_area_size + save_area_size.

(** The frame kinds the round trip is stated for: the function is entered
    at its prologue (not by on-stack replacement), a JavaScript function
    has its frame, a function without a frame has no spill slots, the
    stack parameter count is a count, and the callee-saved general
    registers are none of the registers the frame itself is built with
    ([r1], [fp], [r14], [sp]). *)
Definition supported_frame : bool :=
  negb (is_osr gen)
  && implb (IsJSFunctionCall (descriptor gen)) (needs_frame gen)
  && (builds_frame || (stack_shrink_slots gen <=? 0))
  && (0 <=? StackParameterCount (descriptor gen))
  && forallb (fun c => negb (Nat.eqb c 1 || Nat.eqb c 11 || Nat.eqb c 14 || Nat.eqb c 15))
             saved_registers.

(** The calls of the prologue that save the callee-saved registers, in
    the order they are emitted. *)
Definition save_sequence : list MInstr :=
  (if CalleeSavedFPRegisters (descriptor gen) =? 0 then []
   else [MultiPushDoubles (CalleeSavedFPRegisters (descriptor gen))])
  ++ (if CalleeSavedRegisters (descriptor gen) =? 0 then []
      else [MultiPush (CalleeSavedRegisters (descriptor gen))]).

(** What the prologue emits before the saves. *)
Definition frame_sequence : list MInstr :=
  (if IsCFunctionCall (descriptor gen) then [Push2 r14 fp; LoadRR fp sp]
   else if IsJSFunctionCall (descriptor gen) then [Prologue]
   else if needs_frame gen then [StubPrologue]
   else [])
  ++ (if 0 <? stack_shrink_slots gen
      then [lay sp (MemOperand_ri sp (- stack_shrink_slots gen * kPointerSize))]
      else []).

(** What the return emits after the restores. *)
Definition leave_sequence : list MInstr :=
  if IsCFunctionCall (descriptor gen) || needs_frame gen
  then (if IsCFunctionCall (descriptor gen) then [] else [bind ReturnLabel])
       ++ [LeaveFrame (StackParameterCount (descriptor gen) * kPointerSize); Ret]
  else [Drop (StackParameterCount (descriptor gen)); Ret].

(** What the body between prologue and return has to leave alone, from
    the state [s1] the prologue ends in to the state [s2] the return starts
    in: the stack and frame pointers, the callee-save area, and in a frame
    the two words that link it to the caller's. [s0] is the state on
    entry. *)
Definition preserves_frame (s0 s1 s2 : Machine) : Prop :=
  reg s2 sp = reg s1 sp /\
  reg s2 fp = reg s1 fp /\
  (forall x, reg s1 sp <= x < reg s1 sp + save_area_size -> mem s2 x = mem s1 x) /\
  (builds_frame = true ->
   forall x, reg s0 sp - 2 * kPointerSize <= x < reg s0 sp -> mem s2 x = mem s1 x).

End FrameVocabulary.

(** The call that undoes a save. *)
Definition restoring_call (i : MInstr) : MInstr :=
  match i with
  | MultiPush regs => MultiPop regs
  | MultiPushDoubles dregs => MultiPopDoubles dregs
  | i => i
  end.

(** The state after the calls that build the frame. *)
Definition frame_built {arch : TargetArch} (n : Z) (s s' : Machine) : Prop :=
  reg s' sp = reg s sp - n /\
  reg s' fp = reg s sp - 2 * kPointerSize /\
  (forall r, is_r sp r = false -> is_r fp r = false -> reg s' r = reg s r) /\
  (forall d, dreg s' d = dreg s d) /\
  (forall x, x < reg s sp - n \/ reg s sp <= x -> mem s' x = mem s x) /\
  load_bytes pointer_bytes (mem s') (reg s sp - kPointerSize) = reg s r14 /\
  load_bytes pointer_bytes (mem s') (reg s sp - 2 * kPointerSize) = reg s fp.

(** An example of a C frame on the 64-bit build: two spill slots, the
    callee-saved registers [r6] and [r7] and the floating register 8. *)
Definition c_frame_generator : CodeGenerator :=
  mkCodeGenerator (mkCallDescriptor kCallAddress 0 (2 ^ 6 + 2 ^ 7) (2 ^ 8))
                  true 2 0 false 0.

(** An example of the frame of a JavaScript function with two stack
    parameters, on the 64-bit build. *)
Definition js_frame_generator : CodeGenerator :=
  mkCodeGenerator (mkCallDescriptor kCallJSFunction 2 0 0) true 0 0 false 0.

(** The state on entry to the examples, and a body that overwrites the
    three callee-saved registers. *)
Definition entry_machine : Machine :=
  mkMachine (fun r => if is_r sp r then 4096
                      else if is_r fp r then 8192
                      else if is_r r14 r then 1234
                      else if is_r r6 r then 66
                      else if is_r r7 r then 77
                      else 0)
            (fun d => if is_d (DReg 8) d then 88 else 0) None (fun _ => 0).

Definition clobbering_body {arch : TargetArch} (s : Machine) : Machine :=
  set_fpr (set_gpr (set_gpr s r6 0) r7 0) (DReg 8) 0.


(* ===================================================================== *)
(** * Vocabulary of the further properties *)
(* ===================================================================== *)

(** Where the code of a branch leaves: by the taken branch to the true
    label, or else by falling through or by the branch to the false
    label. *)
Definition branch_outcome (branch : BranchInfo) (taken : bool) (s : Machine) : Flow :=
  if taken then Taken (true_label branch) s
  else if fallthru branch then Next s
  else Taken (false_label branch) s.

(** The assembler after more calls were emitted. *)
Definition emit_all (code : list MInstr) (a : Assembler) : Assembler :=
  mkAssembler (buffer a ++ code) (next_label a) (ools a) (jump_tables a)
              (return_label_bound a) (callee_saved_slots a).

(** The second operand of a compare, as an operand of the compare call. *)
Definition compare_operand {arch : TargetArch} (op : InstructionOperand) : option Opnd2 :=
  match op with
  | RegisterOperand r => Some (R r)
  | ImmediateOperand (kInt32 v) => Some (I v)
  | ImmediateOperand (kInt64 v) => if V8_TARGET_ARCH_S390X then Some (I v) else None
  | _ => None
  end.

(** The integer compare opcodes of a build. *)
Definition is_integer_compare {arch : TargetArch} (op : ArchOpcode) : bool :=
  match op with
  | kS390_Cmp32 => true
  | kS390_Cmp64 => V8_TARGET_ARCH_S390X
  | _ => false
  end.

(** The order of two binary64 patterns that are not NaNs, as a flags
    condition names it. *)
Definition double_order (c : FlagsCondition) (x y : Z) : bool :=
  match c with
  | kEqual => f64_key x =? f64_key y
  | kNotEqual => negb (f64_key x =? f64_key y)
  | kSignedLessThan | kUnsignedLessThan => f64_key x <? f64_key y
  | kSignedGreaterThanOrEqual | kUnsignedGreaterThanOrEqual => f64_key y <=? f64_key x
  | kSignedLessThanOrEqual | kUnsignedLessThanOrEqual => f64_key x <=? f64_key y
  | kSignedGreaterThan | kUnsignedGreaterThan => f64_key y <? f64_key x
  | _ => false
  end.

(** What the code generator makes of a condition when an operand is a NaN:
    equal, less-than and less-than-or-equal are false, their negations
    true. *)
Definition unordered_value (c : FlagsCondition) : bool :=
  match c with
  | kEqual
  | kSignedLessThan | kUnsignedLessThan
  | kSignedLessThanOrEqual | kUnsignedLessThanOrEqual => false
  | _ => true
  end.

Definition double_relation (c : FlagsCondition) (x y : Z) : bool :=
  if is_nan x || is_nan y then unordered_value c else double_order c x y.

Definition fits_signed (w v : Z) : bool := (- 2 ^ (w - 1) <=? v) && (v <? 2 ^ (w - 1)).

(** The integer width at which an instruction reports overflow: 32 bits for
    the two opcodes named for it, the register width for [kS390_Add] and
    [kS390_Sub] with a flags mode in the 64-bit build. *)
Definition overflow_width {arch : TargetArch} (instr : Instruction) : option Z :=
  match arch_opcode instr with
  | kS390_AddWithOverflow32 | kS390_SubWithOverflow32 => Some 32
  | kS390_Add | kS390_Sub =>
      if V8_TARGET_ARCH_S390X then
        match flags_mode instr with
        | kFlags_none => None
        | _ => Some kBitsPerPointer
        end
      else None
  | _ => None
  end.

Definition overflow_operation (op : ArchOpcode) : Z -> Z -> Z :=
  match op with
  | kS390_Sub | kS390_SubWithOverflow32 => Z.sub
  | _ => Z.add
  end.

(** The operand holds the [w]-bit integer [v]: a register holds it
    sign-extended to the register width, a 32-bit immediate is it. *)
Definition int_operand {arch : TargetArch} (w : Z) (s : Machine)
    (op : InstructionOperand) (v : Z) : Prop :=
  match op with
  | RegisterOperand r => signedP (reg s r) = v /\ fits_signed w v = true
  | ImmediateOperand (kInt32 i) => i = v /\ fits_signed 32 v = true
  | _ => False
  end.

(** The operands of a memory access in an addressing mode: a base register
    and an immediate offset, or two registers. *)
Definition is_address (mode : AddressingMode) (addr : list InstructionOperand) : bool :=
  match mode, addr with
  | kMode_MRI, [RegisterOperand _; ImmediateOperand (kInt32 _)] => true
  | kMode_MRR, [RegisterOperand _; RegisterOperand _] => true
  | _, _ => false
  end.

(** What an integer load reads back of a register stored by a store of the
    same width: the low bits of the register, zero- or sign-extended. *)
Definition read_back {arch : TargetArch} (st ld : ArchOpcode) : option (Z -> Z) :=
  match st, ld with
  | kS390_StoreWord8, kS390_LoadWordU8 => Some (wrap 8)
  | kS390_StoreWord8, kS390_LoadWordS8 => Some (signed 8)
  | kS390_StoreWord16, kS390_LoadWordU16 => Some (wrap 16)
  | kS390_StoreWord16, kS390_LoadWordS16 => Some (signed 16)
  | kS390_StoreWord32, kS390_LoadWordS32 => Some (signed 32)
  | kS390_StoreWord64, kS390_LoadWord64 =>
      if V8_TARGET_ARCH_S390X then Some (wrap 64) else None
  | _, _ => None
  end.

(** A machine with 1 in [r2] and -2^31, as a 32-bit pattern, in [r3]. *)
Definition overflow_machine : Machine :=
  mkMachine (fun r => if is_r r2 r then 1 else if is_r r3 r then 2 ^ 31 else 0)
            (fun _ => 0) None (fun _ => 0).

(** ** Return sites *)

(** The calls of a return that restore the callee-saved registers. *)
Definition restore_calls (gen : CodeGenerator) : list MInstr :=
  (if CalleeSavedRegisters (descriptor gen) =? 0 then []
   else [MultiPop (CalleeSavedRegisters (descriptor gen))])
  ++ (if CalleeSavedFPRegisters (descriptor gen) =? 0 then []
      else [MultiPopDoubles (CalleeSavedFPRegisters (descriptor gen))]).

(** Whether a call is part of the frame teardown. *)
Definition is_teardown (i : MInstr) : bool :=
  match i with
  | LeaveFrame _ | Ret | Drop _ => true
  | _ => false
  end.

(** ** Lookup switches *)

(** The inputs of a lookup switch: the value register, the default block,
    then a value and a block per case. *)
Definition lookup_switch_inputs (input : Register) (default : nat)
    (cases : list (Z * nat)) : list InstructionOperand :=
  RegisterOperand input
    :: ImmediateOperand (kRpoNumber default)
    :: flat_map (fun c => [ImmediateOperand (kInt32 (fst c));
                           ImmediateOperand (kRpoNumber (snd c))]) cases.

(** The compare and branch of each case. *)
Definition lookup_switch_code {arch : TargetArch} (input : Register)
    (cases : list (Z * nat)) : list MInstr :=
  flat_map (fun c => [CmpP input (I (fst c)); beq (GetLabel (snd c))]) cases.

(** The first case whose value is the one in the register. *)
Definition matching_case {arch : TargetArch} (x : Z) (cases : list (Z * nat))
  : option (Z * nat) :=
  find (fun c => wrapP (fst c) =? x) cases.

Definition is_bind (i : MInstr) : bool :=
  match i with bind _ => true | _ => false end.

(** Where a lookup switch leaves: by the branch of the first matching
    case, or else to the default block. *)
Definition lookup_switch_outcome {arch : TargetArch}
    (IsNextInAssemblyOrder : nat -> bool) (x : Z) (default : nat)
    (cases : list (Z * nat)) (s : Machine) : Flow :=
  match matching_case x cases with
  | Some c => Taken (GetLabel (snd c)) s
  | None =>
      if IsNextInAssemblyOrder default then Next s
      else Taken (GetLabel default) s
  end.

(** ** Gap moves *)

Section MoveVocabulary.
Import Gap.
Context {arch : TargetArch}.
Variable GetFrameOffset : Z -> FrameOffset.

(** The memory operand of a stack slot, and its address. *)
Definition slot_operand (index : Z) : MemOperand :=
  MemOperand_ri (if from_stack_pointer (GetFrameOffset index) then sp else fp)
                (offset (GetFrameOffset index)).

Definition slot_address (s : Machine) (index : Z) : Z := ea s (slot_operand index).

(** What an operand of a move holds: the value of a register, or the
    pointer-sized or double-sized word of a stack slot. *)
Definition content (s : Machine) (op : MoveOperand) : option Z :=
  match op with
  | Operand (RegisterOperand r) => Some (reg s r)
  | Operand (DoubleRegisterOperand d) => Some (dreg s d)
  | Operand (StackSlotOperand index) =>
      Some (load_bytes pointer_bytes (mem s) (slot_address s index))
  | Operand (DoubleStackSlotOperand index) =>
      Some (load_bytes 8 (mem s) (slot_address s index))
  | _ => None
  end.

(** The registers the register allocator can give to an operand: not the
    scratch registers of the code generator, not the stack and frame
    pointers. *)
Definition allocatable (r : Register) : bool :=
  negb (is_r kScratchReg r || is_r r0 r || is_r sp r || is_r fp r).

Definition allocatable_double (d : DoubleRegister) : bool :=
  negb (is_d kScratchDoubleReg d || is_d d0 d).

(** Two slots of [size] bytes are the same slot or do not overlap. *)
Definition separate (size a1 a2 : Z) : Prop :=
  a1 = a2 \/ a1 + size <= a2 \/ a2 + size <= a1.

(** The bytes of memory an operand names. *)
Definition covers (s : Machine) (op : MoveOperand) (x : Z) : Prop :=
  match op with
  | Operand (StackSlotOperand index) =>
      slot_address s index <= x < slot_address s index + kPointerSize
  | Operand (DoubleStackSlotOperand index) =>
      slot_address s index <= x < slot_address s index + kDoubleSize
  | _ => False
  end.

Definition names_register (op : MoveOperand) (r : Register) : bool :=
  match op with Operand (RegisterOperand r') => is_r r' r | _ => false end.

Definition names_double (op : MoveOperand) (d : DoubleRegister) : bool :=
  match op with Operand (DoubleRegisterOperand d') => is_d d' d | _ => false end.

(** The pairs of operands [AssembleSwap] exchanges, with what the
    exchange needs: allocatable registers, a binary64 pattern in a
    floating register that goes to memory, and slots that are the same or
    do not overlap. *)
Definition swappable (s : Machine) (source destination : MoveOperand) : Prop :=
  match source, destination with
  | Operand (RegisterOperand src), Operand (RegisterOperand dst) =>
      allocatable src = true /\ allocatable dst = true
  | Operand (RegisterOperand src), Operand (StackSlotOperand _) =>
      allocatable src = true
  | Operand (StackSlotOperand i), Operand (StackSlotOperand j) =>
      separate kPointerSize (slot_address s i) (slot_address s j)
  | Operand (DoubleRegisterOperand src), Operand (DoubleRegisterOperand dst) =>
      allocatable_double src = true /\ allocatable_double dst = true
  | Operand (DoubleRegisterOperand src), Operand (DoubleStackSlotOperand _) =>
      allocatable_double src = true /\ 0 <= dreg s src < 2 ^ 64
  | Operand (DoubleStackSlotOperand i), Operand (DoubleStackSlotOperand j) =>
      separate kDoubleSize (slot_address s i) (slot_address s j)
  | _, _ => False
  end.

End MoveVocabulary.

Section MovedValues.
Import Gap.
Context {arch : TargetArch}.
Variable GetFrameOffset : Z -> FrameOffset.

(** What a move brings to its destination: what the source operand holds,
    or the constant, as a number of the register width or as a binary64
    pattern (a [float] constant converted to a [double], a NaN coming out
    quiet). *)
Definition moved_value (s : Machine) (source : MoveOperand) : option Z :=
  match source with
  | ConstantOperand (kInt32 v) | ConstantOperand (kInt64 v) => Some (wrapP v)
  | ConstantOperand (kFloat32 bits) => Some (float_to_double bits)
  | ConstantOperand (kFloat64 bits) => Some bits
  | _ => content GetFrameOffset s source
  end.

(** The pairs of operands the theorem on [AssembleMove] covers: general
    registers and slots among themselves, floating registers and double
    slots among themselves, integer constants to the former and floating
    constants to the latter; what goes to a double slot is a binary64
    pattern. *)
Definition movable (s : Machine) (source destination : MoveOperand) : Prop :=
  match source, destination with
  | Operand (RegisterOperand _), Operand (RegisterOperand _)
  | Operand (RegisterOperand _), Operand (StackSlotOperand _)
  | Operand (StackSlotOperand _), Operand (RegisterOperand _)
  | Operand (StackSlotOperand _), Operand (StackSlotOperand _)
  | Operand (DoubleRegisterOperand _), Operand (DoubleRegisterOperand _)
  | Operand (DoubleStackSlotOperand _), Operand (DoubleRegisterOperand _)
  | Operand (DoubleStackSlotOperand _), Operand (DoubleStackSlotOperand _) => True
  | Operand (DoubleRegisterOperand src), Operand (DoubleStackSlotOperand _) =>
      0 <= dreg s src < 2 ^ 64
  | ConstantOperand (kInt32 _), Operand (RegisterOperand _)
  | ConstantOperand (kInt32 _), Operand (StackSlotOperand _)
  | ConstantOperand (kInt64 _), Operand (RegisterOperand _)
  | ConstantOperand (kInt64 _), Operand (StackSlotOperand _)
  | ConstantOperand (kFloat32 _), Operand (DoubleRegisterOperand _)
  | ConstantOperand (kFloat64 _), Operand (DoubleRegisterOperand _) => True
  | ConstantOperand (kFloat32 bits), Operand (DoubleStackSlotOperand _) =>
      0 <= float_to_double bits < 2 ^ 64
  | ConstantOperand (kFloat64 bits), Operand (DoubleStackSlotOperand _) =>
      0 <= bits < 2 ^ 64
  | _, _ => False
  end.

End MovedValues.

(** What a swap has to do: the code runs to its end, the operands have
    exchanged what they hold, and apart from the scratch registers nothing
    else has changed. *)
Definition exchanged {arch : TargetArch} {fops : FloatOps} {layout : Layout}
    (GetFrameOffset : Z -> Gap.FrameOffset) (source destination : Gap.MoveOperand)
    (s : Machine) : Prop :=
  exists code s',
    emitted (Gap.AssembleSwap GetFrameOffset source destination) = Some code /\
    exec [] code s = Next s' /\
    content GetFrameOffset s' source = content GetFrameOffset s destination /\
    content GetFrameOffset s' destination = content GetFrameOffset s source /\
    (forall r, is_r kScratchReg r = false -> is_r r0 r = false ->
               names_register source r = false -> names_register destination r = false ->
               reg s' r = reg s r) /\
    (forall d, is_d kScratchDoubleReg d = false -> is_d d0 d = false ->
               names_double source d = false -> names_double destination d = false ->
               dreg s' d = dreg s d) /\
    (forall x, ~ covers GetFrameOffset s source x ->
               ~ covers GetFrameOffset s destination x -> mem s' x = mem s x).

(** ** The prologue *)

Section PrologueVocabulary.
Context {arch : TargetArch} {frame_constants : FrameConstants}.
Variable gen : CodeGenerator.

(** The calls that build the frame, by the kind of call. *)
Definition frame_entry : list MInstr :=
  if IsCFunctionCall (descriptor gen) then [Push2 r14 fp; LoadRR fp sp]
  else if IsJSFunctionCall (descriptor gen) then [Prologue]
  else if needs_frame gen then [StubPrologue]
  else [].

(** The call that makes room for the spill slots. *)
Definition stack_adjust : list MInstr :=
  if 0 <? stack_shrink_slots gen
  then [lay sp (MemOperand_ri sp (- stack_shrink_slots gen * kPointerSize))]
  else [].

(** The reload of the function at the on-stack-replacement entry. *)
Definition osr_reload : MInstr := LoadP r3 (MemOperand_ri fp kFunctionOffset).


End PrologueVocabulary.

(** A JavaScript function compiled for on-stack replacement, a C function
    that saves the seven general and the eight floating callee-saved
    registers of the 64-bit build, and frame offsets that put slot [index]
    at [index + 1] words below the frame pointer of the 64-bit build. *)
Definition osr_generator : CodeGenerator :=
  mkCodeGenerator (mkCallDescriptor kCallJSFunction 0 0 0) true 4 0 true 2.


Definition example_frame_offsets (index : Z) : Gap.FrameOffset :=
  Gap.mkFrameOffset false (- (index + 1) * 8).

(** ** Load elimination *)

Section LoadEliminationVocabulary.
Import LoadElimination.
Context {FieldAccess V : Type}.
Variable graph : Graph FieldAccess.

(** The inputs the operators of simplified-operator.cc and
    common-operator.cc give the nodes the walk reads inputs of. *)
Definition arity_ok (n : nat) : bool :=
  let values := length (value_inputs (graph n)) in
  let effects := length (effect_inputs (graph n)) in
  match opcode (graph n) with
  | kLoadField | kFinishRegion => Nat.leb 1 values && Nat.leb 1 effects
  | kStoreField => Nat.leb 2 values && Nat.leb 1 effects
  | kBeginRegion | kStoreBuffer | kStoreElement | kAllocate => Nat.leb 1 effects
  | kOther => true
  end.

(** The effect chains have no cycle through the nodes the walk goes
    past: [rank] falls from such a node to its effect input.  A node of
    another opcode with several effect inputs (an effect phi) is free. *)
Definition descends (rank : nat -> nat) : Prop :=
  forall n e,
    (opcode (graph n) = kOther -> EffectInputCount graph n = 1%nat) ->
    GetEffectInput graph n = Some e ->
    (rank e < rank n)%nat.

(** A run of the graph: [value n] is what node [n] computes and
    [heap n] the fields of every object once the effect of [n] has taken
    place.  The run follows the operators' meaning, as far as the
    reducer relies on it. *)
Record follows (value : nat -> V) (heap : nat -> V -> FieldAccess -> V) : Prop := {
  load_reads : forall n o,
    opcode (graph n) = kLoadField -> GetValueInput graph n 0 = Some o ->
    value n = heap n (value o) (FieldAccessOf (graph n));
  load_keeps : forall n e x a,
    opcode (graph n) = kLoadField -> GetEffectInput graph n = Some e ->
    heap n x a = heap e x a;
  store_writes : forall n o v,
    opcode (graph n) = kStoreField ->
    GetValueInput graph n 0 = Some o -> GetValueInput graph n 1 = Some v ->
    heap n (value o) (FieldAccessOf (graph n)) = value v;
  store_keeps : forall n e x a,
    opcode (graph n) = kStoreField -> GetEffectInput graph n = Some e ->
    a <> FieldAccessOf (graph n) ->
    heap n x a = heap e x a;
  others_keep : forall n e x a,
    opcode (graph n) = kBeginRegion \/ opcode (graph n) = kStoreBuffer \/
    opcode (graph n) = kStoreElement \/ opcode (graph n) = kFinishRegion \/
    (opcode (graph n) = kOther /\ kNoWrite (graph n) = true /\
     EffectInputCount graph n = 1%nat) ->
    GetEffectInput graph n = Some e ->
    heap n x a = heap e x a;
  finish_region_value : forall n o,
    opcode (graph n) = kFinishRegion -> GetValueInput graph n 0 = Some o ->
    value n = value o;
  allocate_keeps : forall n e o a,
    opcode (graph n) = kAllocate -> GetEffectInput graph n = Some e ->
    o <> n ->
    heap n (value o) a = heap e (value o) a
}.

End LoadEliminationVocabulary.

Section LoadEliminationExample.
Import LoadElimination.

(** An allocation in a region, initialised by a store, and a load of the
    stored field through the region's end, past a store to another
    field.  A field access is stood for by its offset. *)
Definition example_graph : Graph Z := fun n =>
  match n with
  | 2%nat => mkNode kBeginRegion 0 false [] [0%nat]
  | 3%nat => mkNode kAllocate 0 false [1%nat] [2%nat]
  | 4%nat => mkNode kStoreField 8 false [3%nat; 1%nat] [3%nat]
  | 5%nat => mkNode kFinishRegion 0 false [3%nat] [4%nat]
  | 6%nat => mkNode kStoreField 16 false [5%nat; 5%nat] [5%nat]
  | 7%nat => mkNode kLoadField 8 false [5%nat] [6%nat]
  | _ => mkNode kOther 0 false [] []
  end.

Definition example_value (n : nat) : Z :=
  match n with
  | 1%nat | 7%nat => 42
  | 3%nat | 5%nat => 100
  | _ => 0
  end.

Definition write_field (h : Z -> Z -> Z) (object access value : Z) : Z -> Z -> Z :=
  fun x a => if Z.eqb x object && Z.eqb a access then value else h x a.

Definition example_heap (n : nat) : Z -> Z -> Z :=
  match n with
  | 4%nat | 5%nat => write_field (fun _ _ => 0) 100 8 42
  | 6%nat | 7%nat => write_field (write_field (fun _ _ => 0) 100 8 42) 100 16 100
  | _ => fun _ _ => 0
  end.

End LoadEliminationExample.
(* ===================================================================== *)
(** * Lemmas *)
(* ===================================================================== *)

(** ** Words and registers *)

Lemma is_r_refl (a : Register) : is_r a a = true.
Proof. unfold is_r. apply Nat.eqb_refl. Qed.

Lemma is_r_eq (a b : Register) : is_r a b = true -> a = b.
Proof.
  destruct a as [x], b as [y]. unfold is_r. simpl.
  intro H. apply Nat.eqb_eq in H. now subst.
Qed.

Lemma is_r_sym (a b : Register) : is_r a b = is_r b a.
Proof. unfold is_r. apply Nat.eqb_sym. Qed.

Lemma is_d_refl (a : DoubleRegister) : is_d a a = true.
Proof. unfold is_d. apply Nat.eqb_refl. Qed.

Lemma is_d_eq (a b : DoubleRegister) : is_d a b = true -> a = b.
Proof.
  destruct a as [x], b as [y]. unfold is_d. simpl.
  intro H. apply Nat.eqb_eq in H. now subst.
Qed.

Lemma is_d_sym (a b : DoubleRegister) : is_d a b = is_d b a.
Proof. unfold is_d. apply Nat.eqb_sym. Qed.

Section WordLemmas.
Context {arch : TargetArch}.

Lemma kBitsPerPointer_cases : kBitsPerPointer = 64 \/ kBitsPerPointer = 32.
Proof. unfold kBitsPerPointer. destruct V8_TARGET_ARCH_S390X; auto. Qed.

Lemma wrap_range (n x : Z) : 0 <= n -> 0 <= wrap n x < 2 ^ n.
Proof. intro Hn. unfold wrap. apply Z.mod_pos_bound. lia. Qed.

Lemma wrap_wrap (n x : Z) : wrap n (wrap n x) = wrap n x.
Proof. unfold wrap. apply Zmod_mod. Qed.

Lemma wrapP_wrapP (x : Z) : wrapP (wrapP x) = wrapP x.
Proof. apply wrap_wrap. Qed.

Lemma wrapP_range (x : Z) : 0 <= wrapP x < 2 ^ kBitsPerPointer.
Proof. apply wrap_range. destruct kBitsPerPointer_cases as [H|H]; rewrite H; lia. Qed.

Lemma wrap_small (n x : Z) : 0 <= x < 2 ^ n -> wrap n x = x.
Proof. intro H. unfold wrap. now apply Z.mod_small. Qed.

(** Reading fewer bits of a wrapped value. *)
Lemma wrap_wrap_le (m n x : Z) : 0 <= m <= n -> wrap m (wrap n x) = wrap m x.
Proof.
  intros [Hm Hmn]. unfold wrap.
  replace (2 ^ n) with (2 ^ m * 2 ^ (n - m)).
  - rewrite Z.rem_mul_r by (try apply Z.pow_nonzero; try apply Z.pow_pos_nonneg; lia).
    rewrite Z.mul_comm, Z_mod_plus_full. apply Zmod_mod.
  - rewrite <- Z.pow_add_r by lia. f_equal. lia.
Qed.

Lemma lo32_wrapP (x : Z) : lo32 (wrapP x) = lo32 x.
Proof.
  unfold lo32, wrapP. apply wrap_wrap_le.
  destruct kBitsPerPointer_cases as [H|H]; rewrite H; lia.
Qed.

Lemma signed_wrap_le (m n x : Z) : 0 <= m <= n -> signed m (wrap n x) = signed m x.
Proof. intro H. unfold signed. now rewrite wrap_wrap_le. Qed.

Lemma sext32_wrapP (x : Z) : sext32 (wrapP x) = sext32 x.
Proof.
  unfold sext32, wrapP. apply signed_wrap_le.
  destruct kBitsPerPointer_cases as [H|H]; rewrite H; lia.
Qed.

Lemma signedP_wrapP (x : Z) : signedP (wrapP x) = signedP x.
Proof.
  unfold signedP, wrapP. apply signed_wrap_le.
  destruct kBitsPerPointer_cases as [H|H]; rewrite H; lia.
Qed.

Lemma signed_range (n x : Z) : 0 < n -> - 2 ^ (n - 1) <= signed n x < 2 ^ (n - 1).
Proof.
  intro Hn. unfold signed.
  assert (H2 : 2 ^ n = 2 * 2 ^ (n - 1)).
  { rewrite <- Z.pow_succ_r by lia. f_equal. lia. }
  pose proof (wrap_range n x ltac:(lia)) as Hr.
  destruct (Z.ltb_spec (wrap n x) (2 ^ (n - 1))); lia.
Qed.

Lemma wrap_signed (n x : Z) : 0 < n -> wrap n (signed n x) = wrap n x.
Proof.
  intro Hn. unfold signed.
  destruct (Z.ltb_spec (wrap n x) (2 ^ (n - 1))).
  - apply wrap_wrap.
  - unfold wrap. rewrite Zminus_mod, Z_mod_same_full, Z.sub_0_r.
    now rewrite !Zmod_mod.
Qed.

(** ** The machine state *)

Lemma reg_wrapP (s : Machine) (r : Register) : wrapP (reg s r) = reg s r.
Proof. unfold reg. apply wrapP_wrapP. Qed.

Lemma reg_range (s : Machine) (r : Register) : 0 <= reg s r < 2 ^ kBitsPerPointer.
Proof. apply wrapP_range. Qed.

Lemma reg_set_gpr (s : Machine) (r r' : Register) (v : Z) :
  reg (set_gpr s r v) r' = if is_r r r' then wrapP v else reg s r'.
Proof. unfold reg, set_gpr. simpl. now destruct (is_r r r'). Qed.

Lemma reg_set_gpr_same (s : Machine) (r : Register) (v : Z) :
  reg (set_gpr s r v) r = wrapP v.
Proof. now rewrite reg_set_gpr, is_r_refl. Qed.

Lemma reg_set_gpr_other (s : Machine) (r r' : Register) (v : Z) :
  is_r r r' = false -> reg (set_gpr s r v) r' = reg s r'.
Proof. intro H. now rewrite reg_set_gpr, H. Qed.

Lemma reg_set_cc (s : Machine) (c : option CC) (r : Register) :
  reg (set_cc s c) r = reg s r.
Proof. reflexivity. Qed.

Lemma reg_set_fpr (s : Machine) (d : DoubleRegister) (v : Z) (r : Register) :
  reg (set_fpr s d v) r = reg s r.
Proof. reflexivity. Qed.

Lemma reg_set_mem (s : Machine) (m : Z -> Z) (r : Register) :
  reg (set_mem s m) r = reg s r.
Proof. reflexivity. Qed.

Lemma dreg_set_fpr (s : Machine) (d d' : DoubleRegister) (v : Z) :
  dreg (set_fpr s d v) d' = if is_d d d' then v else dreg s d'.
Proof. reflexivity. Qed.

Lemma dreg_set_gpr (s : Machine) (r : Register) (v : Z) (d : DoubleRegister) :
  dreg (set_gpr s r v) d = dreg s d.
Proof. reflexivity. Qed.

Lemma dreg_set_cc (s : Machine) (c : option CC) (d : DoubleRegister) :
  dreg (set_cc s c) d = dreg s d.
Proof. reflexivity. Qed.

Lemma dreg_set_mem (s : Machine) (m : Z -> Z) (d : DoubleRegister) :
  dreg (set_mem s m) d = dreg s d.
Proof. reflexivity. Qed.

Lemma cc_set_cc (s : Machine) (c : option CC) : cc (set_cc s c) = c.
Proof. reflexivity. Qed.

Lemma cc_set_gpr (s : Machine) (r : Register) (v : Z) : cc (set_gpr s r v) = cc s.
Proof. reflexivity. Qed.

Lemma cc_set_fpr (s : Machine) (d : DoubleRegister) (v : Z) : cc (set_fpr s d v) = cc s.
Proof. reflexivity. Qed.

Lemma cc_set_mem (s : Machine) (m : Z -> Z) : cc (set_mem s m) = cc s.
Proof. reflexivity. Qed.

Lemma mem_set_mem (s : Machine) (m : Z -> Z) : mem (set_mem s m) = m.
Proof. reflexivity. Qed.

Lemma mem_set_gpr (s : Machine) (r : Register) (v : Z) : mem (set_gpr s r v) = mem s.
Proof. reflexivity. Qed.

Lemma mem_set_fpr (s : Machine) (d : DoubleRegister) (v : Z) : mem (set_fpr s d v) = mem s.
Proof. reflexivity. Qed.

Lemma mem_set_cc (s : Machine) (c : option CC) : mem (set_cc s c) = mem s.
Proof. reflexivity. Qed.

Lemma reg_set_gpr32 (s : Machine) (r r' : Register) (v : Z) :
  reg (set_gpr32 s r v) r' = if is_r r r' then wrapP (merge32 (reg s r) v) else reg s r'.
Proof. unfold set_gpr32. apply reg_set_gpr. Qed.

Lemma cc_set_gpr32 (s : Machine) (r : Register) (v : Z) : cc (set_gpr32 s r v) = cc s.
Proof. reflexivity. Qed.

Lemma mem_set_gpr32 (s : Machine) (r : Register) (v : Z) : mem (set_gpr32 s r v) = mem s.
Proof. reflexivity. Qed.

Lemma dreg_set_gpr32 (s : Machine) (r : Register) (v : Z) (d : DoubleRegister) :
  dreg (set_gpr32 s r v) d = dreg s d.
Proof. reflexivity. Qed.

(** ** Conditions after a compare *)

Lemma holds_eq (x y : Z) : cond_holds Cond.eq (cc_compare x y) = (x =? y).
Proof.
  unfold cc_compare.
  destruct (Z.eqb_spec x y); [reflexivity|].
  destruct (Z.ltb_spec x y); reflexivity.
Qed.

Lemma holds_ne (x y : Z) : cond_holds Cond.ne (cc_compare x y) = negb (x =? y).
Proof.
  unfold cc_compare.
  destruct (Z.eqb_spec x y); [reflexivity|].
  destruct (Z.ltb_spec x y); reflexivity.
Qed.

Lemma holds_lt (x y : Z) : cond_holds Cond.lt (cc_compare x y) = (x <? y).
Proof.
  unfold cc_compare.
  destruct (Z.eqb_spec x y), (Z.ltb_spec x y); try reflexivity; lia.
Qed.

Lemma holds_ge (x y : Z) : cond_holds Cond.ge (cc_compare x y) = (y <=? x).
Proof.
  unfold cc_compare.
  destruct (Z.eqb_spec x y), (Z.ltb_spec x y), (Z.leb_spec y x);
    try reflexivity; lia.
Qed.

Lemma holds_le (x y : Z) : cond_holds Cond.le (cc_compare x y) = (x <=? y).
Proof.
  unfold cc_compare.
  destruct (Z.eqb_spec x y), (Z.ltb_spec x y), (Z.leb_spec x y);
    try reflexivity; lia.
Qed.

Lemma holds_gt (x y : Z) : cond_holds Cond.gt (cc_compare x y) = (y <? x).
Proof.
  unfold cc_compare.
  destruct (Z.eqb_spec x y), (Z.ltb_spec x y), (Z.ltb_spec y x);
    try reflexivity; lia.
Qed.

End WordLemmas.

(** The state is read through [reg], [dreg], [cc] and [mem] from here on. *)
#[global] Opaque set_gpr set_gpr32 set_fpr set_cc set_mem reg dreg.

Create Rewrite HintDb state.
#[global] Hint Rewrite @reg_set_gpr @reg_set_gpr32 @reg_set_cc @reg_set_fpr @reg_set_mem
  @dreg_set_fpr @dreg_set_gpr @dreg_set_gpr32 @dreg_set_cc @dreg_set_mem
  @cc_set_cc @cc_set_gpr @cc_set_gpr32 @cc_set_fpr @cc_set_mem
  @mem_set_mem @mem_set_gpr @mem_set_gpr32 @mem_set_fpr @mem_set_cc
  is_r_refl is_d_refl : state.

(** ** Floating compares *)

Lemma f64_compare_nan (x y : Z) :
  is_nan x || is_nan y = true -> f64_compare x y = CC3.
Proof. intro H. unfold f64_compare. now rewrite H. Qed.

(** ** Tactics *)

(** Normal form of an emission, with the register names, the sizes and the
    register tests kept as they are written. *)
Ltac emit_compute :=
  cbv - [r0 r1 r2 r3 r4 r5 r6 r7 r8 r9 r10 r14 fp ip cp sp
         d0 d1 d2 d3 kScratchReg kScratchDoubleReg is_r is_d
         kPointerSize kPointerSizeLog2 kDoubleSize kFunctionOffset
         f32_to_f64 float_quiet_NaN double_quiet_NaN neg_int32
         Z.add Z.sub Z.mul Z.opp Z.div Z.of_nat Z.eqb Z.ltb Z.leb
         stack_shrink_slots count_bits codes_of negb andb orb].

Ltac emit_compute_in H :=
  cbv - [r0 r1 r2 r3 r4 r5 r6 r7 r8 r9 r10 r14 fp ip cp sp
         d0 d1 d2 d3 kScratchReg kScratchDoubleReg is_r is_d
         kPointerSize kPointerSizeLog2 kDoubleSize kFunctionOffset
         f32_to_f64 float_quiet_NaN double_quiet_NaN neg_int32
         Z.add Z.sub Z.mul Z.opp Z.div Z.of_nat Z.eqb Z.ltb Z.leb
         stack_shrink_slots count_bits codes_of negb andb orb] in H.

(** One round of symbolic execution of emitted code. *)
Ltac exec_compute :=
  unfold exec; cbn [exec_from step find_ool find exec_straight Generate ool_kind
                    ool_entry ool_exit label_eqb Nat.eqb
                    AndP OrP XorP AddP SubP ShiftLeft ShiftRight ShiftRightArith
                    Cmp32 CmpLogical32 CmpP CmpLogicalP adbr sdbr mdbr ddbr
                    LoadlB LoadHalfWordP LoadLogicalHalfWordP LoadW LoadP lg
                    StoreByte StoreHalfWord StoreW StoreP
                    LoadShortConvertToDoubleF LoadF
                    bge beq bunordered b_always].

(** ** 32-bit results *)

Lemma lo32_merge32 (old v : Z) : lo32 (merge32 old v) = lo32 v.
Proof.
  unfold merge32, lo32, wrap.
  rewrite Z.add_comm, Z_mod_plus_full. apply Zmod_mod.
Qed.

Lemma lo32_lo32 (x : Z) : lo32 (lo32 x) = lo32 x.
Proof. apply wrap_wrap. Qed.

Lemma sext32_lo32 (x : Z) : sext32 (lo32 x) = sext32 x.
Proof. unfold sext32, lo32. apply signed_wrap_le. lia. Qed.

(** A 32-bit shift reads only the low word of its operand. *)
Lemma shift_sem_lo32 (op : ShiftOp) (x c : Z) :
  shift_sem op (lo32 x) c = shift_sem op x c.
Proof. destruct op; simpl; now rewrite ?lo32_lo32, ?sext32_lo32. Qed.

Lemma shift_sem_low_word {arch : TargetArch} (op : ShiftOp) (old x c : Z) :
  shift_sem op (wrapP (merge32 old x)) c = shift_sem op x c.
Proof.
  rewrite <- (shift_sem_lo32 op (wrapP _)), lo32_wrapP, lo32_merge32.
  apply shift_sem_lo32.
Qed.

(** ** Two's complement *)

Lemma pow2_half (n : Z) : 0 < n -> 2 ^ n = 2 * 2 ^ (n - 1).
Proof. intro H. rewrite <- Z.pow_succ_r by lia. f_equal. lia. Qed.

Lemma signed_fits (n v : Z) :
  0 < n -> - 2 ^ (n - 1) <= v < 2 ^ (n - 1) -> signed n v = v.
Proof.
  intros Hn Hv. pose proof (pow2_half n Hn) as H2.
  unfold signed, wrap.
  destruct (Z_lt_le_dec v 0).
  - replace (v mod 2 ^ n) with (v + 2 ^ n).
    + destruct (Z.ltb_spec (v + 2 ^ n) (2 ^ (n - 1))); lia.
    + apply Zmod_unique with (q := -1); lia.
  - rewrite Z.mod_small by lia.
    destruct (Z.ltb_spec v (2 ^ (n - 1))); lia.
Qed.

Lemma signed_above (n v : Z) :
  0 < n -> 2 ^ (n - 1) <= v < 2 ^ n -> signed n v = v - 2 ^ n.
Proof.
  intros Hn Hv. unfold signed, wrap. rewrite Z.mod_small by lia.
  destruct (Z.ltb_spec v (2 ^ (n - 1))); lia.
Qed.

Lemma signed_below (n v : Z) :
  0 < n -> - 2 ^ n <= v < - 2 ^ (n - 1) -> signed n v = v + 2 ^ n.
Proof.
  intros Hn Hv. pose proof (pow2_half n Hn) as H2.
  unfold signed, wrap.
  replace (v mod 2 ^ n) with (v + 2 ^ n).
  - destruct (Z.ltb_spec (v + 2 ^ n) (2 ^ (n - 1))); lia.
  - apply Zmod_unique with (q := -1); lia.
Qed.

Lemma signed_signed_wrap (n v : Z) : 0 < n -> signed n (wrap n v) = signed n v.
Proof. intro Hn. apply signed_wrap_le. lia. Qed.

(** The sign of a value is its top bit. *)
Lemma signed_neg_testbit (n z : Z) :
  0 < n -> (signed n z <? 0) = Z.testbit z (n - 1).
Proof.
  intro Hn. pose proof (pow2_half n Hn) as H2.
  pose proof (wrap_range n z ltac:(lia)) as Hr.
  rewrite <- (Z.mod_pow2_bits_low z n (n - 1)) by lia.
  fold (wrap n z). unfold signed.
  assert (Hp : 0 < 2 ^ (n - 1)) by (apply Z.pow_pos_nonneg; lia).
  destruct (Z.ltb_spec (wrap n z) (2 ^ (n - 1))).
  - destruct (Z.ltb_spec (wrap n z) 0); [lia|].
    symmetry. apply Z.testbit_false; [lia|].
    rewrite Z.div_small by lia. reflexivity.
  - destruct (Z.ltb_spec (wrap n z - 2 ^ n) 0); [|lia].
    symmetry. apply Z.testbit_true; [lia|].
    replace (wrap n z / 2 ^ (n - 1)) with 1; [reflexivity|].
    apply Zdiv_unique with (r := wrap n z - 2 ^ (n - 1)); lia.
Qed.

(** Signed overflow of an addition, read off the signs as the macro
    assembler does: the sum overflows when its sign differs from the signs
    of both operands. *)
Lemma add_overflow_sign (n x y : Z) :
  0 < n ->
  let res := wrap n (x + y) in
  (signed n (Z.land (Z.lxor res x) (Z.lxor res y)) <? 0)
  = negb ((- 2 ^ (n - 1) <=? signed n x + signed n y)
          && (signed n x + signed n y <? 2 ^ (n - 1))).
Proof.
  intros Hn res. pose proof (pow2_half n Hn) as H2.
  rewrite signed_neg_testbit by assumption.
  rewrite Z.land_spec, !Z.lxor_spec.
  rewrite <- !signed_neg_testbit by assumption.
  assert (Hres : signed n res = signed n (signed n x + signed n y)).
  { unfold res. rewrite signed_signed_wrap by assumption.
    rewrite <- (signed_signed_wrap n (signed n x + signed n y)) by assumption.
    rewrite <- (signed_signed_wrap n (x + y)) by assumption.
    f_equal. unfold wrap.
    rewrite (Zplus_mod (signed n x)). fold (wrap n (signed n x)) (wrap n (signed n y)).
    rewrite !wrap_signed by assumption. unfold wrap. now rewrite <- Zplus_mod. }
  rewrite Hres.
  pose proof (signed_range n x Hn) as Hx.
  pose proof (signed_range n y Hn) as Hy.
  set (X := signed n x) in *. set (Y := signed n y) in *.
  destruct (Z_lt_le_dec (X + Y) (- 2 ^ (n - 1))).
  - rewrite (signed_below n (X + Y)) by lia.
    destruct (Z.ltb_spec (X + Y + 2 ^ n) 0), (Z.ltb_spec X 0), (Z.ltb_spec Y 0),
      (Z.leb_spec (- 2 ^ (n - 1)) (X + Y)), (Z.ltb_spec (X + Y) (2 ^ (n - 1)));
      try reflexivity; lia.
  - destruct (Z_lt_le_dec (X + Y) (2 ^ (n - 1))).
    + rewrite (signed_fits n (X + Y)) by lia.
      destruct (Z.ltb_spec (X + Y) 0), (Z.ltb_spec X 0), (Z.ltb_spec Y 0),
        (Z.leb_spec (- 2 ^ (n - 1)) (X + Y)), (Z.ltb_spec (X + Y) (2 ^ (n - 1)));
        try reflexivity; lia.
    + rewrite (signed_above n (X + Y)) by lia.
      destruct (Z.ltb_spec (X + Y - 2 ^ n) 0), (Z.ltb_spec X 0), (Z.ltb_spec Y 0),
        (Z.leb_spec (- 2 ^ (n - 1)) (X + Y)), (Z.ltb_spec (X + Y) (2 ^ (n - 1)));
        try reflexivity; lia.
Qed.

(** ** The padding loop *)

Lemma pad_spec (padding_size : Z) (st : LazyDeopt.State) :
  LazyDeopt.pc_offset st + padding_size <= LazyDeopt.pc_offset (LazyDeopt.pad padding_size st) /\
  LazyDeopt.pc_offset st <= LazyDeopt.pc_offset (LazyDeopt.pad padding_size st) /\
  LazyDeopt.last_lazy_deopt_pc_ (LazyDeopt.pad padding_size st) = LazyDeopt.last_lazy_deopt_pc_ st /\
  (LazyDeopt.nops st <= LazyDeopt.nops (LazyDeopt.pad padding_size st))%nat /\
  LazyDeopt.pc_offset (LazyDeopt.pad padding_size st)
    = LazyDeopt.pc_offset st + LazyDeopt.kNopSize * Z.of_nat (LazyDeopt.nops (LazyDeopt.pad padding_size st) - LazyDeopt.nops st).
Proof.
  functional induction (LazyDeopt.pad padding_size st) as [p st Hpos IH | p st Hpos].
  - destruct IH as (H1 & H2 & H3 & H4 & H5).
    unfold LazyDeopt.nop, LazyDeopt.kNopSize in *.
    cbn [LazyDeopt.pc_offset LazyDeopt.last_lazy_deopt_pc_ LazyDeopt.nops] in *.
    repeat split; lia.
  - apply Z.ltb_ge in Hpos. unfold LazyDeopt.kNopSize.
    repeat split; try lia.
Qed.

(** The number of nops of the loop: half the padding, rounded up. *)
Lemma pad_count (padding_size : Z) (st : LazyDeopt.State) :
  Z.of_nat (LazyDeopt.nops (LazyDeopt.pad padding_size st))
  = Z.of_nat (LazyDeopt.nops st) + (Z.max 0 padding_size + 1) / 2.
Proof.
  functional induction (LazyDeopt.pad padding_size st) as [p st Hpos IH | p st Hpos].
  - rewrite IH. apply Z.ltb_lt in Hpos.
    unfold LazyDeopt.nop. cbn [LazyDeopt.nops].
    rewrite Nat2Z.inj_succ.
    destruct (Z.eq_dec p 1) as [->|Hp].
    { change ((Z.max 0 (1 - 2) + 1) / 2) with 0.
      change ((Z.max 0 1 + 1) / 2) with 1. lia. }
    rewrite (Z.max_r 0 (p - 2)), (Z.max_r 0 p) by lia.
    replace (p + 1) with (p - 2 + 1 + 1 * 2) by lia.
    rewrite Z.div_add by lia. lia.
  - apply Z.ltb_ge in Hpos. rewrite Z.max_l by lia.
    change ((0 + 1) / 2) with 0. lia.
Qed.


(** ** Bitwise operations on wrapped values *)

Lemma land_wrap_r (n a b : Z) :
  0 <= n -> wrap n (Z.land a (wrap n b)) = wrap n (Z.land a b).
Proof.
  intro Hn. unfold wrap. rewrite <- !Z.land_ones by assumption.
  rewrite Z.land_assoc, <- (Z.land_assoc (Z.land a b)), Z.land_diag. reflexivity.
Qed.

Lemma lor_wrap_r (n a b : Z) :
  0 <= n -> wrap n (Z.lor a (wrap n b)) = wrap n (Z.lor a b).
Proof.
  intro Hn. unfold wrap. rewrite <- !Z.land_ones by assumption.
  rewrite !Z.land_lor_distr_l, <- Z.land_assoc, Z.land_diag. reflexivity.
Qed.


(** ** Memory words, and the table switch *)

Lemma load_bytes_range (n : nat) (m : Z -> Z) (a : Z) :
  0 <= load_bytes n m a < 256 ^ Z.of_nat n.
Proof.
  revert a. induction n as [|n IH]; intro a.
  - simpl. lia.
  - cbn [load_bytes]. specialize (IH (a + 1)).
    pose proof (Z.mod_pos_bound (m a) 256 ltac:(lia)) as Hb.
    rewrite Nat2Z.inj_succ, Z.pow_succ_r by lia.
    nia.
Qed.

Lemma pointer_word {arch : TargetArch} :
  256 ^ Z.of_nat pointer_bytes = 2 ^ kBitsPerPointer.
Proof.
  unfold pointer_bytes, kPointerSize, kBitsPerPointer.
  destruct V8_TARGET_ARCH_S390X; reflexivity.
Qed.

(** [case_labels] reads the blocks of the cases from the inputs. *)
Lemma case_labels_spec {arch : TargetArch} (instr : Instruction)
    (input : Register) (default : nat) (cases : list nat) (a : Assembler) :
  inputs instr = table_switch_inputs input default cases ->
  forall n index, (index + n = length cases)%nat ->
    case_labels instr index n a = Some (map GetLabel (skipn index cases), a).
Proof.
  intros Hin n. induction n as [|n IH]; intros index Hlen.
  - simpl. rewrite skipn_all2 by lia. reflexivity.
  - cbn [case_labels]. unfold gbind, InputRpo, ToConstant, InputAt.
    rewrite Hin. unfold table_switch_inputs.
    replace (index + 2)%nat with (S (S index)) by lia.
    cbn [nth_error].
    destruct (nth_error cases index) as [rpo|] eqn:Hnth.
    + rewrite nth_error_map, Hnth. cbn.
      rewrite (IH (S index)) by lia. cbn.
      unfold gret. do 2 f_equal.
      clear - Hnth. revert index Hnth.
      induction cases as [|c cs IHc]; intros [|i] H; simpl in *; try discriminate.
      * now injection H as ->.
      * now apply IHc.
    + apply nth_error_None in Hnth. lia.
Qed.

(** What [AssembleArchTableSwitch] emits and records. *)
Lemma table_switch_emission {arch : TargetArch}
    (gen : CodeGenerator) (instr : Instruction)
    (input : Register) (default : nat) (cases : list nat) :
  arch_opcode instr = kArchTableSwitch ->
  inputs instr = table_switch_inputs input default cases ->
  AssembleArchInstruction gen instr empty_assembler
    = Some (tt, mkAssembler
                  (table_switch_code input default (length cases) (TableLabel 0))
                  0 [] [(TableLabel 0, map GetLabel cases)] false 0).
Proof.
  intros Hop Hin.
  unfold AssembleArchInstruction. rewrite Hop.
  unfold AssembleArchTableSwitch, gbind at 1.
  unfold InputRegister, InputAt. rewrite Hin. cbn [table_switch_inputs nth_error gret].
  unfold gbind at 1.
  replace (InputCount instr - 2)%nat with (length cases)
    by (unfold InputCount; rewrite Hin; simpl; rewrite length_map; lia).
  rewrite (case_labels_spec instr input default cases _ Hin (length cases) 0 eq_refl).
  cbn [skipn].
  unfold InputRpo, ToConstant, InputAt. rewrite Hin.
  reflexivity.
Qed.

Lemma shiftl_pointer {arch : TargetArch} (k : Z) :
  Z.shiftl k (shift_count kPointerSizeLog2) = k * kPointerSize.
Proof.
  unfold shift_count, kPointerSizeLog2, kBitsPerPointer, kPointerSize.
  destruct V8_TARGET_ARCH_S390X;
    [change (3 mod 64) with 3 | change (2 mod 32) with 2];
    rewrite Z.shiftl_mul_pow2 by lia; reflexivity.
Qed.

Lemma address_bits_le {arch : TargetArch} : 2 ^ kAddressBits <= 2 ^ kBitsPerPointer.
Proof.
  unfold kAddressBits, kBitsPerPointer. destruct V8_TARGET_ARCH_S390X; lia.
Qed.

Lemma kPointerSize_pos {arch : TargetArch} : 0 < kPointerSize.
Proof. unfold kPointerSize. destruct V8_TARGET_ARCH_S390X; lia. Qed.

(** A branch under a defined condition code. *)
Lemma step_b {arch : TargetArch} {fops : FloatOps} {layout : Layout}
    (cond : Condition) (l : Label) (s : Machine) (c : CC) :
  cond_eqb cond Cond.al = false -> cc s = Some c ->
  step (b cond l) s = if cond_holds cond c then Taken l s else Next s.
Proof. intros Hal Hcc. cbn [step]. now rewrite Hal, Hcc. Qed.

(** ** Bounds-checked accesses *)

Section CheckedLemmas.
Context {arch : TargetArch} {fops : FloatOps} {layout : Layout}.

Lemma ea_set_cc (s : Machine) (c : option CC) (m : MemOperand) :
  ea (set_cc s c) m = ea s m.
Proof. reflexivity. Qed.

Lemma ea_set_fpr (s : Machine) (d : DoubleRegister) (v : Z) (m : MemOperand) :
  ea (set_fpr s d v) m = ea s m.
Proof. reflexivity. Qed.

Lemma ea_set_mem (s : Machine) (f : Z -> Z) (m : MemOperand) :
  ea (set_mem s f) m = ea s m.
Proof. reflexivity. Qed.

Lemma lo32_signed32 (x : Z) : lo32 (sext32 x) = lo32 x.
Proof. unfold lo32, sext32. apply wrap_signed. lia. Qed.

Lemma lo32_offset_sign_extended (s : Machine) (offset r : Register) :
  lo32 (reg (offset_sign_extended s offset) r) = lo32 (reg s r).
Proof.
  unfold offset_sign_extended. rewrite reg_set_gpr.
  destruct (is_r offset r) eqn:E; [|reflexivity].
  apply is_r_eq in E. subst r.
  now rewrite lo32_wrapP, lo32_signed32.
Qed.

(** The compare every checked access starts with, and its branch. *)
Lemma exec_checked_prefix (ools : list OutOfLineCode) (offset : Register)
    (lv : Opnd2) (l : Label) (rest : list MInstr) (s : Machine) :
  exec ools (lgfr offset offset :: CmpLogical32 offset lv :: bge l :: rest) s
  = let s1 := offset_sign_extended s offset in
    let s2 := set_cc s1 (Some (cc_compare (lo32 (reg s offset)) (lo32 (opnd2 s1 lv)))) in
    if lo32 (opnd2 s1 lv) <=? lo32 (reg s offset) then
      match find_ool l ools with
      | Some o =>
          match exec_straight (Generate o) s2 with
          | Some s3 => exec_from ools (Seeking (ool_exit o)) rest s3
          | None => Undefined
          end
      | None => exec_from ools (Seeking l) rest s2
      end
    else exec ools rest s2.
Proof.
  unfold exec. cbn [exec_from step CmpLogical32 cmp_sem].
  fold (offset_sign_extended s offset).
  rewrite lo32_offset_sign_extended.
  unfold bge. rewrite (step_b Cond.ge _ _ _ eq_refl (cc_set_cc _ _)), holds_ge.
  cbv zeta.
  destruct (lo32 (opnd2 (offset_sign_extended s offset) lv) <=? lo32 (reg s offset));
    reflexivity.
Qed.

Lemma quiet_nan32_widened : f32_to_f64 float_quiet_NaN = double_quiet_NaN.
Proof. reflexivity. Qed.
End CheckedLemmas.

#[global] Hint Rewrite @ea_set_cc @ea_set_fpr @ea_set_mem : state.

(** The compare and branch at the head of a checked access, decided
    one way or the other by [side]. *)
Ltac checked_prefix side :=
  rewrite exec_checked_prefix; cbv zeta; cbn [opnd2];
  rewrite ?lo32_offset_sign_extended, ?lo32_wrapP;
  match goal with |- context [?a <=? ?b] => destruct (Z.leb_spec a b) end;
  [side|side]; exec_compute; reflexivity.

Ltac checked_out_of_bounds :=
  eexists;
  (split; [checked_prefix ltac:(try lia)|]);
  unfold offset_sign_extended; autorewrite with state;
  (split; [reflexivity|]);
  (split; intro; try discriminate);
  eexists; (split; [reflexivity|]); autorewrite with state;
  rewrite ?quiet_nan32_widened; try split; reflexivity.

Ltac checked_in_bounds :=
  do 3 eexists;
  (split; [emit_compute; reflexivity|]);
  (split; [checked_prefix ltac:(try lia)|]);
  (split; [exec_compute; reflexivity|]);
  (split; [|split; intro]); autorewrite with state; reflexivity.

Ltac checked_access_finish Hgen :=
  emit_compute_in Hgen; try discriminate Hgen;
  injection Hgen as <-; cbn [buffer ools];
  (split; intro; [checked_out_of_bounds|checked_in_bounds]).

Ltac checked_load_cases Hgen :=
  match type of Hgen with
  | AssembleArchInstruction _ (mkInstruction _ _ _ _ _ ?outs) _ = _ =>
      destruct outs as [|[?r|?d| | |] ?outs]; checked_access_finish Hgen
  end.

Ltac checked_store_cases Hgen :=
  match type of Hgen with
  | AssembleArchInstruction _ (mkInstruction _ _ _ _ (_ :: _ :: _ :: ?vs) _) _ = _ =>
      destruct vs as [|[?vr|?vd| | |] ?vops]; checked_access_finish Hgen
  end.

Ltac checked_access_cases Hchecked Hgen :=
  match type of Hgen with
  | AssembleArchInstruction _ (mkInstruction ?opc _ _ _ _ _) _ = _ =>
      destruct opc; try discriminate Hchecked;
      first [checked_load_cases Hgen | checked_store_cases Hgen]
  end.

(** ** Frames: the prologue and the return *)

Section ByteMemory.
Context {arch : TargetArch} {fops : FloatOps} {layout : Layout}.

Lemma store_bytes_other (n : nat) (m : Z -> Z) (a v x : Z) :
  x < a \/ a + Z.of_nat n <= x -> store_bytes n m a v x = m x.
Proof.
  revert m a. induction n as [|n IH]; intros m a H.
  - reflexivity.
  - cbn [store_bytes]. rewrite IH by lia.
    destruct (Z.eqb_spec x a); [lia|reflexivity].
Qed.

Lemma load_bytes_ext (n : nat) (m m' : Z -> Z) (a : Z) :
  (forall x, a <= x < a + Z.of_nat n -> m x = m' x) ->
  load_bytes n m a = load_bytes n m' a.
Proof.
  revert a. induction n as [|n IH]; intros a H.
  - reflexivity.
  - cbn [load_bytes]. rewrite (H a) by lia. f_equal.
    apply IH. intros x Hx. apply H. lia.
Qed.

Lemma load_store_bytes_mod (n : nat) (m : Z -> Z) (a v : Z) :
  load_bytes n (store_bytes n m a v) a = v mod 256 ^ Z.of_nat n.
Proof.
  revert m a. induction n as [|n IH]; intros m a.
  - simpl. now rewrite Z.mod_1_r.
  - cbn [load_bytes store_bytes]. rewrite IH.
    rewrite store_bytes_other by lia.
    rewrite Z.eqb_refl, Zmod_mod.
    rewrite Nat2Z.inj_succ, Z.pow_succ_r by lia.
    rewrite (Z.mul_comm 256), Z.rem_mul_r by lia. lia.
Qed.

Lemma load_store_bytes (n : nat) (m : Z -> Z) (a v : Z) :
  0 <= v < 256 ^ Z.of_nat n -> load_bytes n (store_bytes n m a v) a = v.
Proof. intro H. rewrite load_store_bytes_mod. now apply Z.mod_small. Qed.

Lemma wrapA_small (a : Z) : 0 <= a < 2 ^ kAddressBits -> wrapA a = a.
Proof. intro H. unfold wrapA. now apply wrap_small. Qed.

Lemma wrapP_small (a : Z) : 0 <= a < 2 ^ kBitsPerPointer -> wrapP a = a.
Proof. intro H. unfold wrapP. now apply wrap_small. Qed.

Lemma pointer_bytes_size : Z.of_nat pointer_bytes = kPointerSize.
Proof. unfold pointer_bytes, kPointerSize. destruct V8_TARGET_ARCH_S390X; reflexivity. Qed.

End ByteMemory.

Section PushPopLists.
Context {arch : TargetArch} {fops : FloatOps} {layout : Layout}.

Lemma is_r_code (c : nat) (r : Register) : is_r (Reg c) r = Nat.eqb c (reg_code r).
Proof. reflexivity. Qed.

Lemma double_word : 256 ^ Z.of_nat 8 = 2 ^ 64.
Proof. reflexivity. Qed.

(** *** [MultiPush] *)

Lemma push_list_reg (codes : list nat) (k : Z) (s : Machine) (r : Register) :
  reg (push_list codes k s) r = reg s r.
Proof.
  revert k s. induction codes as [|c rest IH]; intros k s; cbn [push_list].
  - reflexivity.
  - rewrite IH. unfold storeP. now autorewrite with state.
Qed.

Lemma push_list_dreg (codes : list nat) (k : Z) (s : Machine) (d : DoubleRegister) :
  dreg (push_list codes k s) d = dreg s d.
Proof.
  revert k s. induction codes as [|c rest IH]; intros k s; cbn [push_list].
  - reflexivity.
  - rewrite IH. unfold storeP. now autorewrite with state.
Qed.

Lemma push_list_mem (codes : list nat) (k : Z) (s : Machine) (x : Z) :
  0 <= k ->
  reg s sp + (k + Z.of_nat (length codes)) * kPointerSize <= 2 ^ kAddressBits ->
  x < reg s sp + k * kPointerSize
  \/ reg s sp + (k + Z.of_nat (length codes)) * kPointerSize <= x ->
  mem (push_list codes k s) x = mem s x.
Proof.
  pose proof kPointerSize_pos as Hps.
  revert k s. induction codes as [|c rest IH]; intros k s Hk Htop Hx; cbn [push_list].
  - reflexivity.
  - cbn [length] in Htop, Hx. rewrite Nat2Z.inj_succ in Htop, Hx.
    pose proof (reg_range s sp) as Hsp.
    rewrite IH; unfold storeP; autorewrite with state; try nia.
    rewrite wrapA_small by nia.
    apply store_bytes_other. rewrite pointer_bytes_size. nia.
Qed.

Lemma push_list_slot (codes : list nat) (k : Z) (s : Machine) (j : nat) (c : nat) :
  0 <= k ->
  reg s sp + (k + Z.of_nat (length codes)) * kPointerSize <= 2 ^ kAddressBits ->
  nth_error codes j = Some c ->
  load_bytes pointer_bytes (mem (push_list codes k s))
             (reg s sp + (k + Z.of_nat j) * kPointerSize)
  = reg s (Reg c).
Proof.
  pose proof kPointerSize_pos as Hps.
  revert k s j. induction codes as [|c0 rest IH]; intros k s j Hk Htop Hj.
  - destruct j; discriminate Hj.
  - cbn [length] in Htop. rewrite Nat2Z.inj_succ in Htop.
    pose proof (reg_range s sp) as Hsp.
    cbn [push_list]. destruct j as [|j].
    + injection Hj as ->.
      rewrite (load_bytes_ext _ _ (mem (storeP s sp (k * kPointerSize) (reg s (Reg c))))).
      * unfold storeP. autorewrite with state. rewrite wrapA_small by nia.
        rewrite Z.add_0_r. apply load_store_bytes.
        rewrite pointer_word. apply reg_range.
      * intros x Hx. rewrite pointer_bytes_size in Hx.
        apply push_list_mem; unfold storeP; autorewrite with state; nia.
    + cbn [nth_error] in Hj.
      specialize (IH (k + 1) (storeP s sp (k * kPointerSize) (reg s (Reg c0))) j).
      unfold storeP in IH |- *. autorewrite with state in IH.
      rewrite Nat2Z.inj_succ.
      replace (k + Z.succ (Z.of_nat j)) with (k + 1 + Z.of_nat j) by lia.
      apply IH; [lia | nia | exact Hj].
Qed.

(** *** [MultiPushDoubles] *)

Lemma push_list_d_reg (codes : list nat) (k : Z) (s : Machine) (r : Register) :
  reg (push_list_d codes k s) r = reg s r.
Proof.
  revert k s. induction codes as [|c rest IH]; intros k s; cbn [push_list_d].
  - reflexivity.
  - rewrite IH. unfold storeD. now autorewrite with state.
Qed.

Lemma push_list_d_dreg (codes : list nat) (k : Z) (s : Machine) (d : DoubleRegister) :
  dreg (push_list_d codes k s) d = dreg s d.
Proof.
  revert k s. induction codes as [|c rest IH]; intros k s; cbn [push_list_d].
  - reflexivity.
  - rewrite IH. unfold storeD. now autorewrite with state.
Qed.

Lemma push_list_d_mem (codes : list nat) (k : Z) (s : Machine) (x : Z) :
  0 <= k ->
  reg s sp + (k + Z.of_nat (length codes)) * kDoubleSize <= 2 ^ kAddressBits ->
  x < reg s sp + k * kDoubleSize
  \/ reg s sp + (k + Z.of_nat (length codes)) * kDoubleSize <= x ->
  mem (push_list_d codes k s) x = mem s x.
Proof.
  unfold kDoubleSize.
  revert k s. induction codes as [|c rest IH]; intros k s Hk Htop Hx; cbn [push_list_d].
  - reflexivity.
  - cbn [length] in Htop, Hx. rewrite Nat2Z.inj_succ in Htop, Hx.
    pose proof (reg_range s sp) as Hsp.
    rewrite IH; unfold storeD, kDoubleSize; autorewrite with state; try lia.
    rewrite wrapA_small by lia.
    apply store_bytes_other. lia.
Qed.

Lemma push_list_d_slot (codes : list nat) (k : Z) (s : Machine) (j : nat) (c : nat) :
  0 <= k ->
  reg s sp + (k + Z.of_nat (length codes)) * kDoubleSize <= 2 ^ kAddressBits ->
  nth_error codes j = Some c ->
  0 <= dreg s (DReg c) < 2 ^ 64 ->
  load_bytes 8 (mem (push_list_d codes k s))
             (reg s sp + (k + Z.of_nat j) * kDoubleSize)
  = dreg s (DReg c).
Proof.
  unfold kDoubleSize.
  revert k s j. induction codes as [|c0 rest IH]; intros k s j Hk Htop Hj Hv.
  - destruct j; discriminate Hj.
  - cbn [length] in Htop. rewrite Nat2Z.inj_succ in Htop.
    pose proof (reg_range s sp) as Hsp.
    cbn [push_list_d]. destruct j as [|j].
    + injection Hj as ->.
      rewrite (load_bytes_ext _ _ (mem (storeD s sp (k * kDoubleSize) (dreg s (DReg c))))).
      * unfold storeD, kDoubleSize. autorewrite with state. rewrite wrapA_small by lia.
        rewrite Z.add_0_r. apply load_store_bytes.
        rewrite double_word. exact Hv.
      * intros x Hx.
        apply push_list_d_mem; unfold storeD, kDoubleSize; autorewrite with state; lia.
    + cbn [nth_error] in Hj.
      specialize (IH (k + 1) (storeD s sp (k * kDoubleSize) (dreg s (DReg c0))) j).
      unfold storeD, kDoubleSize in IH |- *. autorewrite with state in IH.
      rewrite Nat2Z.inj_succ.
      replace (k + Z.succ (Z.of_nat j)) with (k + 1 + Z.of_nat j) by lia.
      apply IH; [lia | lia | exact Hj | exact Hv].
Qed.

(** *** [MultiPop] *)

Lemma pop_list_mem (codes : list nat) (k : Z) (s : Machine) :
  mem (pop_list codes k s) = mem s.
Proof.
  revert k s. induction codes as [|c rest IH]; intros k s; cbn [pop_list].
  - reflexivity.
  - rewrite IH. now autorewrite with state.
Qed.

Lemma pop_list_dreg (codes : list nat) (k : Z) (s : Machine) (d : DoubleRegister) :
  dreg (pop_list codes k s) d = dreg s d.
Proof.
  revert k s. induction codes as [|c rest IH]; intros k s; cbn [pop_list].
  - reflexivity.
  - rewrite IH. now autorewrite with state.
Qed.

Lemma pop_list_reg_other (codes : list nat) (k : Z) (s : Machine) (r : Register) :
  ~ In (reg_code r) codes -> reg (pop_list codes k s) r = reg s r.
Proof.
  revert k s. induction codes as [|c rest IH]; intros k s Hr; cbn [pop_list].
  - reflexivity.
  - rewrite IH by (intro; apply Hr; now right).
    rewrite reg_set_gpr, is_r_code.
    destruct (Nat.eqb_spec c (reg_code r)) as [->|]; [|reflexivity].
    exfalso. apply Hr. now left.
Qed.

Lemma pop_list_reg_slot (codes : list nat) (k : Z) (s : Machine) (j : nat) (c : nat) :
  NoDup codes -> ~ In 15%nat codes ->
  nth_error codes j = Some c ->
  reg (pop_list codes k s) (Reg c)
  = load_bytes pointer_bytes (mem s) (wrapA (reg s sp + (k + Z.of_nat j) * kPointerSize)).
Proof.
  revert k s j. induction codes as [|c0 rest IH]; intros k s j Hnd Hsp Hj.
  - destruct j; discriminate Hj.
  - inversion Hnd as [|? ? Hc0 Hnd']; subst.
    cbn [pop_list]. destruct j as [|j].
    + injection Hj as ->.
      rewrite pop_list_reg_other by exact Hc0.
      rewrite reg_set_gpr_same. unfold loadP.
      rewrite Z.add_0_r. apply wrapP_small.
      rewrite <- pointer_word. apply load_bytes_range.
    + cbn [nth_error] in Hj.
      rewrite (IH (k + 1) _ j Hnd'); [| intro; apply Hsp; now right | exact Hj].
      autorewrite with state. rewrite is_r_code.
      destruct (Nat.eqb_spec c0 (reg_code sp)) as [E|_].
      { exfalso. apply Hsp. left. exact E. }
      rewrite Nat2Z.inj_succ. do 3 f_equal. lia.
Qed.

(** *** [MultiPopDoubles] *)

Lemma pop_list_d_mem (codes : list nat) (k : Z) (s : Machine) :
  mem (pop_list_d codes k s) = mem s.
Proof.
  revert k s. induction codes as [|c rest IH]; intros k s; cbn [pop_list_d].
  - reflexivity.
  - rewrite IH. now autorewrite with state.
Qed.

Lemma pop_list_d_reg (codes : list nat) (k : Z) (s : Machine) (r : Register) :
  reg (pop_list_d codes k s) r = reg s r.
Proof.
  revert k s. induction codes as [|c rest IH]; intros k s; cbn [pop_list_d].
  - reflexivity.
  - rewrite IH. now autorewrite with state.
Qed.

Lemma is_d_code (c : nat) (d : DoubleRegister) : is_d (DReg c) d = Nat.eqb c (dreg_code d).
Proof. reflexivity. Qed.

Lemma pop_list_d_dreg_other (codes : list nat) (k : Z) (s : Machine) (d : DoubleRegister) :
  ~ In (dreg_code d) codes -> dreg (pop_list_d codes k s) d = dreg s d.
Proof.
  revert k s. induction codes as [|c rest IH]; intros k s Hr; cbn [pop_list_d].
  - reflexivity.
  - rewrite IH by (intro; apply Hr; now right).
    rewrite dreg_set_fpr, is_d_code.
    destruct (Nat.eqb_spec c (dreg_code d)) as [->|]; [|reflexivity].
    exfalso. apply Hr. now left.
Qed.

Lemma pop_list_d_dreg_slot (codes : list nat) (k : Z) (s : Machine) (j : nat) (c : nat) :
  NoDup codes ->
  nth_error codes j = Some c ->
  dreg (pop_list_d codes k s) (DReg c)
  = load_bytes 8 (mem s) (wrapA (reg s sp + (k + Z.of_nat j) * kDoubleSize)).
Proof.
  revert k s j. induction codes as [|c0 rest IH]; intros k s j Hnd Hj.
  - destruct j; discriminate Hj.
  - inversion Hnd as [|? ? Hc0 Hnd']; subst.
    cbn [pop_list_d]. destruct j as [|j].
    + injection Hj as ->.
      rewrite pop_list_d_dreg_other by exact Hc0.
      rewrite dreg_set_fpr, is_d_code, Nat.eqb_refl. unfold loadD.
      now rewrite Z.add_0_r.
    + cbn [nth_error] in Hj.
      rewrite (IH (k + 1) _ j Hnd' Hj).
      autorewrite with state.
      rewrite Nat2Z.inj_succ. do 3 f_equal. lia.
Qed.

Lemma codes_of_NoDup (regs : RegList) : NoDup (codes_of regs).
Proof. unfold codes_of. apply NoDup_filter, seq_NoDup. Qed.

Lemma codes_of_zero : codes_of 0 = [].
Proof. reflexivity. Qed.

End PushPopLists.

Section StackSlots.
Context {arch : TargetArch} {fops : FloatOps} {layout : Layout}.

Lemma reg_storeP (s : Machine) (b : Register) (off v : Z) (r : Register) :
  reg (storeP s b off v) r = reg s r.
Proof. unfold storeP. now autorewrite with state. Qed.

Lemma dreg_storeP (s : Machine) (b : Register) (off v : Z) (d : DoubleRegister) :
  dreg (storeP s b off v) d = dreg s d.
Proof. unfold storeP. now autorewrite with state. Qed.

Lemma mem_storeP_other (s : Machine) (b : Register) (off v x : Z) :
  0 <= reg s b + off < 2 ^ kAddressBits ->
  x < reg s b + off \/ reg s b + off + kPointerSize <= x ->
  mem (storeP s b off v) x = mem s x.
Proof.
  intros Ha Hx. unfold storeP. autorewrite with state.
  rewrite wrapA_small by exact Ha.
  apply store_bytes_other. rewrite pointer_bytes_size. lia.
Qed.

Lemma load_storeP_same (s : Machine) (b : Register) (off v a : Z) :
  a = reg s b + off ->
  0 <= reg s b + off < 2 ^ kAddressBits ->
  0 <= v < 2 ^ kBitsPerPointer ->
  load_bytes pointer_bytes (mem (storeP s b off v)) a = v.
Proof.
  intros -> Ha Hv. unfold storeP. autorewrite with state.
  rewrite wrapA_small by exact Ha.
  apply load_store_bytes. now rewrite pointer_word.
Qed.

Lemma load_storeP_other (s : Machine) (b : Register) (off v a : Z) :
  0 <= reg s b + off < 2 ^ kAddressBits ->
  a + kPointerSize <= reg s b + off \/ reg s b + off + kPointerSize <= a ->
  load_bytes pointer_bytes (mem (storeP s b off v)) a
  = load_bytes pointer_bytes (mem s) a.
Proof.
  intros Ha Hx. apply load_bytes_ext. intros x Hx'.
  rewrite pointer_bytes_size in Hx'.
  apply mem_storeP_other; [exact Ha | lia].
Qed.

(** Code that runs to its end is a prefix like any other. *)
Lemma exec_from_app (ools : list OutOfLineCode) (c1 c2 : list MInstr) :
  forall (mode : Mode) (s s' : Machine),
    exec_from ools mode c1 s = Next s' ->
    exec_from ools mode (c1 ++ c2) s = exec_from ools Running c2 s'.
Proof.
  induction c1 as [|i rest IH]; intros mode s s' H.
  - destruct mode; simpl in H; [injection H as <-; reflexivity | discriminate H].
  - rewrite <- app_comm_cons. destruct mode as [|l].
    + cbn [exec_from] in H |- *.
      destruct (step i s) as [s1|l1 s1| | | |]; try discriminate H.
      * now apply IH.
      * destruct (find_ool l1 ools) as [o|].
        -- destruct (exec_straight (Generate o) s1); [now apply IH | discriminate H].
        -- now apply IH.
    + cbn [exec_from] in H |- *.
      destruct i; try (now apply IH).
      destruct (label_eqb l l0); now apply IH.
Qed.

Lemma exec_app (c1 c2 : list MInstr) (s s' : Machine) :
  exec [] c1 s = Next s' -> exec [] (c1 ++ c2) s = exec [] c2 s'.
Proof. apply exec_from_app. Qed.

(** What the prologue and the return emit. *)
Lemma prologue_emission {frame_constants : FrameConstants} (gen : CodeGenerator) :
  is_osr gen = false ->
  emitted (AssemblePrologue gen) = Some (frame_sequence gen ++ save_sequence gen).
Proof.
  destruct gen as [[k pc saves dsaves] nf slots align osr uslots].
  cbn [is_osr]. intros ->.
  unfold emitted, AssemblePrologue, frame_sequence, save_sequence, IsCFunctionCall,
    IsJSFunctionCall.
  cbn [descriptor kind CalleeSavedFPRegisters CalleeSavedRegisters needs_frame is_osr].
  generalize (stack_shrink_slots
                (mkCodeGenerator (mkCallDescriptor k pc saves dsaves)
                                 nf slots align false uslots)).
  intro shrink.
  destruct k, nf, (0 <? shrink), (dsaves =? 0), (saves =? 0); reflexivity.
Qed.

Lemma return_emission (gen : CodeGenerator) :
  emitted (AssembleReturn gen)
  = Some (rev (map restoring_call (save_sequence gen)) ++ leave_sequence gen).
Proof.
  destruct gen as [[k pc saves dsaves] nf slots align osr uslots].
  unfold emitted, AssembleReturn, leave_sequence, save_sequence, IsCFunctionCall,
    IsJSFunctionCall.
  cbn [descriptor kind CalleeSavedFPRegisters CalleeSavedRegisters needs_frame
       StackParameterCount].
  destruct k, nf, (dsaves =? 0), (saves =? 0); reflexivity.
Qed.

End StackSlots.
#[global] Hint Rewrite @reg_storeP @dreg_storeP : state.

Section MultiPushPop.
Context {arch : TargetArch} {fops : FloatOps} {layout : Layout}.

Lemma is_r_sp (r : Register) : is_r sp r = Nat.eqb 15 (reg_code r).
Proof. reflexivity. Qed.

Lemma sp_lowered (s : Machine) (n : Z) (v : Z) :
  v = reg s sp - n -> 0 <= n <= reg s sp ->
  reg (set_gpr s sp v) sp = reg s sp - n.
Proof.
  intros -> H. rewrite reg_set_gpr_same. apply wrapP_small.
  pose proof (reg_range s sp). lia.
Qed.

(** The saves of the general registers: [s'] is [s] after
    [MultiPush(regs)], or [s] itself when the list is empty and the call is
    not emitted. *)
Lemma multi_push_spec (regs : RegList) (s : Machine) :
  Z.of_nat (length (codes_of regs)) * kPointerSize <= reg s sp ->
  reg s sp <= 2 ^ kAddressBits ->
  ~ In 15%nat (codes_of regs) ->
  exists s',
    exec [] (if regs =? 0 then [] else [MultiPush regs]) s = Next s' /\
    reg s' sp = reg s sp - Z.of_nat (length (codes_of regs)) * kPointerSize /\
    (forall r, is_r sp r = false -> reg s' r = reg s r) /\
    (forall d, dreg s' d = dreg s d) /\
    (forall x, x < reg s' sp \/ reg s sp <= x -> mem s' x = mem s x) /\
    (forall j c, nth_error (codes_of regs) j = Some c ->
       load_bytes pointer_bytes (mem s') (reg s' sp + Z.of_nat j * kPointerSize)
       = reg s (Reg c)).
Proof.
  intros Hroom Htop Hnsp.
  pose proof kPointerSize_pos as Hps.
  pose proof (reg_range s sp) as Hsp.
  destruct (Z.eqb_spec regs 0) as [->|_].
  - exists s. rewrite codes_of_zero in *. cbn [length] in *.
    split; [reflexivity|]. split; [lia|].
    split; [reflexivity|]. split; [reflexivity|]. split; [reflexivity|].
    intros j c H. destruct j; discriminate H.
  - set (codes := codes_of regs) in *.
    set (n := Z.of_nat (length codes) * kPointerSize) in *.
    assert (Hn : 0 <= n) by (unfold n; nia).
    set (s1 := set_gpr s sp (reg s sp - n)).
    assert (Hsp1 : reg s1 sp = reg s sp - n)
      by (apply (sp_lowered s n); [reflexivity | lia]).
    assert (Hother : forall r, is_r sp r = false -> reg s1 r = reg s r)
      by (intros r Hr; unfold s1; now rewrite reg_set_gpr, Hr).
    exists (set_cc (push_list codes 0 s1) None).
    split; [reflexivity|].
    split; [now rewrite reg_set_cc, push_list_reg|].
    split; [intros r Hr; rewrite reg_set_cc, push_list_reg; now apply Hother|].
    split.
    { intro d. rewrite dreg_set_cc, push_list_dreg. unfold s1. now autorewrite with state. }
    split.
    { intros x Hx. rewrite reg_set_cc, push_list_reg in Hx.
      rewrite mem_set_cc, push_list_mem.
      - unfold s1. now autorewrite with state.
      - lia.
      - rewrite Hsp1. fold n. lia.
      - rewrite Hsp1. fold n. lia. }
    intros j c Hj.
    rewrite reg_set_cc, push_list_reg, mem_set_cc.
    replace (Z.of_nat j * kPointerSize) with ((0 + Z.of_nat j) * kPointerSize) by lia.
    rewrite push_list_slot with (c := c); [| lia | rewrite Hsp1; fold n; lia | exact Hj].
    apply Hother. rewrite is_r_sp. cbn [reg_code].
    destruct (Nat.eqb_spec 15 c) as [E|_]; [|reflexivity].
    exfalso. apply Hnsp. apply nth_error_In in Hj. now rewrite <- E in Hj.
Qed.

(** The saves of the floating registers. *)
Lemma multi_push_doubles_spec (dregs : RegList) (s : Machine) :
  Z.of_nat (length (codes_of dregs)) * kDoubleSize <= reg s sp ->
  reg s sp <= 2 ^ kAddressBits ->
  (forall c, In c (codes_of dregs) -> 0 <= dreg s (DReg c) < 2 ^ 64) ->
  exists s',
    exec [] (if dregs =? 0 then [] else [MultiPushDoubles dregs]) s = Next s' /\
    reg s' sp = reg s sp - Z.of_nat (length (codes_of dregs)) * kDoubleSize /\
    (forall r, is_r sp r = false -> reg s' r = reg s r) /\
    (forall d, dreg s' d = dreg s d) /\
    (forall x, x < reg s' sp \/ reg s sp <= x -> mem s' x = mem s x) /\
    (forall j c, nth_error (codes_of dregs) j = Some c ->
       load_bytes 8 (mem s') (reg s' sp + Z.of_nat j * kDoubleSize)
       = dreg s (DReg c)).
Proof.
  intros Hroom Htop Hrange.
  pose proof (reg_range s sp) as Hsp.
  destruct (Z.eqb_spec dregs 0) as [->|_].
  - exists s. rewrite codes_of_zero in *. cbn [length] in *.
    split; [reflexivity|]. split; [lia|].
    split; [reflexivity|]. split; [reflexivity|]. split; [reflexivity|].
    intros j c H. destruct j; discriminate H.
  - set (codes := codes_of dregs) in *.
    set (n := Z.of_nat (length codes) * kDoubleSize) in *.
    assert (Hn : 0 <= n) by (unfold n, kDoubleSize; lia).
    set (s1 := set_gpr s sp (reg s sp - n)).
    assert (Hsp1 : reg s1 sp = reg s sp - n)
      by (apply (sp_lowered s n); [reflexivity | lia]).
    assert (Hd : forall d, dreg s1 d = dreg s d)
      by (intro d; unfold s1; now autorewrite with state).
    exists (set_cc (push_list_d codes 0 s1) None).
    split; [reflexivity|].
    split; [now rewrite reg_set_cc, push_list_d_reg|].
    split.
    { intros r Hr. rewrite reg_set_cc, push_list_d_reg. unfold s1.
      now rewrite reg_set_gpr, Hr. }
    split; [intro d; now rewrite dreg_set_cc, push_list_d_dreg|].
    split.
    { intros x Hx. rewrite reg_set_cc, push_list_d_reg in Hx.
      rewrite mem_set_cc, push_list_d_mem.
      - unfold s1. now autorewrite with state.
      - lia.
      - rewrite Hsp1. fold n. lia.
      - rewrite Hsp1. fold n. lia. }
    intros j c Hj.
    rewrite reg_set_cc, push_list_d_reg, mem_set_cc.
    replace (Z.of_nat j * kDoubleSize) with ((0 + Z.of_nat j) * kDoubleSize) by lia.
    rewrite push_list_d_slot with (c := c);
      [apply Hd | lia | rewrite Hsp1; fold n; lia | exact Hj |].
    rewrite Hd. apply Hrange. now apply nth_error_In in Hj.
Qed.

(** The restores: [MultiPop] and [MultiPopDoubles], or nothing for an
    empty list. *)
Lemma multi_pop_spec (regs : RegList) (s : Machine) :
  reg s sp + Z.of_nat (length (codes_of regs)) * kPointerSize < 2 ^ kAddressBits ->
  ~ In 15%nat (codes_of regs) ->
  exists s',
    exec [] (if regs =? 0 then [] else [MultiPop regs]) s = Next s' /\
    reg s' sp = reg s sp + Z.of_nat (length (codes_of regs)) * kPointerSize /\
    (forall r, is_r sp r = false -> ~ In (reg_code r) (codes_of regs) ->
       reg s' r = reg s r) /\
    (forall d, dreg s' d = dreg s d) /\
    mem s' = mem s /\
    (forall j c, nth_error (codes_of regs) j = Some c ->
       reg s' (Reg c)
       = load_bytes pointer_bytes (mem s) (reg s sp + Z.of_nat j * kPointerSize)).
Proof.
  intros Htop Hnsp.
  pose proof kPointerSize_pos as Hps.
  pose proof (reg_range s sp) as Hsp.
  pose proof address_bits_le as Hab.
  destruct (Z.eqb_spec regs 0) as [->|_].
  - exists s. rewrite codes_of_zero in *. cbn [length] in *.
    split; [reflexivity|]. split; [lia|].
    split; [reflexivity|]. split; [reflexivity|]. split; [reflexivity|].
    intros j c H. destruct j; discriminate H.
  - set (codes := codes_of regs) in *.
    set (n := Z.of_nat (length codes) * kPointerSize) in *.
    assert (Hn : 0 <= n) by (unfold n; nia).
    set (s1 := pop_list codes 0 s).
    assert (Hsp1 : reg s1 sp = reg s sp)
      by (apply pop_list_reg_other; exact Hnsp).
    exists (set_cc (set_gpr s1 sp (reg s1 sp + n)) None).
    split; [reflexivity|].
    split.
    { rewrite reg_set_cc, reg_set_gpr_same, Hsp1. apply wrapP_small. lia. }
    split.
    { intros r Hr Hin. rewrite reg_set_cc, reg_set_gpr, Hr.
      now apply pop_list_reg_other. }
    split.
    { intro d. rewrite dreg_set_cc, dreg_set_gpr. apply pop_list_dreg. }
    split.
    { rewrite mem_set_cc, mem_set_gpr. apply pop_list_mem. }
    intros j c Hj.
    rewrite reg_set_cc, reg_set_gpr, is_r_sp. cbn [reg_code].
    destruct (Nat.eqb_spec 15 c) as [E|_].
    { exfalso. apply Hnsp. apply nth_error_In in Hj. now rewrite <- E in Hj. }
    unfold s1. rewrite pop_list_reg_slot with (j := j);
      [| apply codes_of_NoDup | exact Hnsp | exact Hj].
    rewrite Z.add_0_l, wrapA_small; [reflexivity|].
    assert (Z.of_nat j < Z.of_nat (length codes))
      by (apply Nat2Z.inj_lt, nth_error_Some; fold codes; now rewrite Hj).
    unfold n in *. nia.
Qed.

Lemma multi_pop_doubles_spec (dregs : RegList) (s : Machine) :
  reg s sp + Z.of_nat (length (codes_of dregs)) * kDoubleSize < 2 ^ kAddressBits ->
  exists s',
    exec [] (if dregs =? 0 then [] else [MultiPopDoubles dregs]) s = Next s' /\
    reg s' sp = reg s sp + Z.of_nat (length (codes_of dregs)) * kDoubleSize /\
    (forall r, is_r sp r = false -> reg s' r = reg s r) /\
    (forall d, ~ In (dreg_code d) (codes_of dregs) -> dreg s' d = dreg s d) /\
    mem s' = mem s /\
    (forall j c, nth_error (codes_of dregs) j = Some c ->
       dreg s' (DReg c)
       = load_bytes 8 (mem s) (reg s sp + Z.of_nat j * kDoubleSize)).
Proof.
  intros Htop.
  pose proof (reg_range s sp) as Hsp.
  pose proof address_bits_le as Hab.
  destruct (Z.eqb_spec dregs 0) as [->|_].
  - exists s. rewrite codes_of_zero in *. cbn [length] in *.
    split; [reflexivity|]. split; [lia|].
    split; [reflexivity|]. split; [reflexivity|]. split; [reflexivity|].
    intros j c H. destruct j; discriminate H.
  - set (codes := codes_of dregs) in *.
    set (n := Z.of_nat (length codes) * kDoubleSize) in *.
    assert (Hn : 0 <= n) by (unfold n, kDoubleSize; lia).
    set (s1 := pop_list_d codes 0 s).
    exists (set_cc (set_gpr s1 sp (reg s1 sp + n)) None).
    split; [reflexivity|].
    split.
    { rewrite reg_set_cc, reg_set_gpr_same. unfold s1. rewrite pop_list_d_reg.
      apply wrapP_small. lia. }
    split.
    { intros r Hr. rewrite reg_set_cc, reg_set_gpr, Hr. apply pop_list_d_reg. }
    split.
    { intros d Hd. rewrite dreg_set_cc, dreg_set_gpr.
      now apply pop_list_d_dreg_other. }
    split.
    { rewrite mem_set_cc, mem_set_gpr. apply pop_list_d_mem. }
    intros j c Hj.
    rewrite dreg_set_cc, dreg_set_gpr.
    unfold s1. rewrite pop_list_d_dreg_slot with (j := j);
      [| apply codes_of_NoDup | exact Hj].
    rewrite Z.add_0_l, wrapA_small; [reflexivity|].
    assert (Z.of_nat j < Z.of_nat (length codes))
      by (apply Nat2Z.inj_lt, nth_error_Some; fold codes; now rewrite Hj).
    unfold n, kDoubleSize in *. lia.
Qed.

End MultiPushPop.

Section FrameCalls.
Context {arch : TargetArch} {fops : FloatOps} {layout : Layout}.

Lemma is_r_fp (r : Register) : is_r fp r = Nat.eqb 11 (reg_code r).
Proof. reflexivity. Qed.

Ltac frame_regs :=
  autorewrite with state;
  cbn [is_r reg_code fp sp r14 r1 r0 Nat.eqb];
  rewrite ?wrapP_wrapP, ?reg_wrapP.

Ltac frame_stores :=
  repeat first
    [ rewrite reg_storeP
    | rewrite mem_storeP_other by (rewrite ?reg_storeP; lia)
    | rewrite load_storeP_same by (rewrite ?reg_storeP; first [lia | apply reg_range])
    | rewrite load_storeP_other by (rewrite ?reg_storeP; lia) ].

Ltac frame_built_tac s :=
  unfold frame_built;
  split; [frame_regs; apply wrapP_small; lia|];
  split; [frame_regs; apply wrapP_small; lia|];
  split; [intros r H1 H2; autorewrite with state; now rewrite ?H1, ?H2|];
  split; [intro d; now autorewrite with state|];
  split; [intros x Hx; autorewrite with state; frame_stores; reflexivity|];
  split; autorewrite with state; frame_stores; reflexivity.

Lemma exec_c_frame (s : Machine) :
  2 * kPointerSize <= reg s sp -> reg s sp <= 2 ^ kAddressBits ->
  exists s', exec [] [Push2 r14 fp; LoadRR fp sp] s = Next s'
             /\ frame_built (2 * kPointerSize) s s'.
Proof.
  intros Hroom Htop.
  pose proof kPointerSize_pos as Hps.
  pose proof (reg_range s sp) as Hsp.
  pose proof address_bits_le as Hab.
  eexists. split; [exec_compute; reflexivity|].
  frame_built_tac s.
Qed.

Lemma exec_js_frame (s : Machine) :
  4 * kPointerSize <= reg s sp -> reg s sp <= 2 ^ kAddressBits ->
  exists s', exec [] [Prologue] s = Next s' /\ frame_built (4 * kPointerSize) s s'.
Proof.
  intros Hroom Htop.
  pose proof kPointerSize_pos as Hps.
  pose proof (reg_range s sp) as Hsp.
  pose proof address_bits_le as Hab.
  eexists. split; [exec_compute; reflexivity|].
  frame_built_tac s.
Qed.

Lemma exec_stub_frame (s : Machine) :
  4 * kPointerSize <= reg s sp -> reg s sp <= 2 ^ kAddressBits ->
  exists s', exec [] [StubPrologue] s = Next s' /\ frame_built (4 * kPointerSize) s s'.
Proof.
  intros Hroom Htop.
  pose proof kPointerSize_pos as Hps.
  pose proof (reg_range s sp) as Hsp.
  pose proof address_bits_le as Hab.
  eexists. split; [exec_compute; reflexivity|].
  frame_built_tac s.
Qed.

(** The spill slots: the stack pointer is lowered, nothing else
    changes. *)
Lemma exec_spill_area (slots : Z) (s : Machine) :
  (if 0 <? slots then slots * kPointerSize else 0) <= reg s sp ->
  reg s sp < 2 ^ kAddressBits ->
  exists s',
    exec [] (if 0 <? slots
             then [lay sp (MemOperand_ri sp (- slots * kPointerSize))] else []) s
      = Next s' /\
    reg s' sp = reg s sp - (if 0 <? slots then slots * kPointerSize else 0) /\
    (forall r, is_r sp r = false -> reg s' r = reg s r) /\
    (forall d, dreg s' d = dreg s d) /\
    mem s' = mem s.
Proof.
  intros Hroom Htop.
  pose proof kPointerSize_pos as Hps.
  pose proof (reg_range s sp) as Hsp.
  pose proof address_bits_le as Hab.
  destruct (Z.ltb_spec 0 slots) as [Hpos|Hneg].
  - eexists. split; [exec_compute; reflexivity|].
    split.
    { rewrite reg_set_gpr_same. unfold ea, MemOperand_ri.
      cbn [mo_rx mo_rb mo_offset is_r reg_code r0 sp Nat.eqb].
      fold sp.
      rewrite wrapA_small by nia. rewrite wrapP_small by nia. lia. }
    split; [intros r Hr; now rewrite reg_set_gpr, Hr|].
    split; [intro d; now autorewrite with state|].
    now autorewrite with state.
  - exists s. split; [reflexivity|]. split; [lia|].
    split; [reflexivity|]. split; reflexivity.
Qed.

(** Leaving a frame whose frame pointer is [reg s fp]. *)
Lemma exec_leave_frame (adjustment : Z) (s : Machine) :
  0 <= adjustment ->
  reg s fp + 2 * kPointerSize + adjustment < 2 ^ kAddressBits ->
  exists s',
    exec [] [LeaveFrame adjustment; Ret] s = Returned (reg s' r14) s' /\
    reg s' sp = reg s fp + 2 * kPointerSize + adjustment /\
    reg s' fp = load_bytes pointer_bytes (mem s) (reg s fp) /\
    reg s' r14 = load_bytes pointer_bytes (mem s) (reg s fp + kPointerSize) /\
    (forall r, is_r sp r = false -> is_r fp r = false -> is_r r14 r = false ->
               is_r r1 r = false -> reg s' r = reg s r) /\
    (forall d, dreg s' d = dreg s d).
Proof.
  intros Hadj Htop.
  pose proof kPointerSize_pos as Hps.
  pose proof (reg_range s fp) as Hfp.
  pose proof address_bits_le as Hab.
  eexists. split; [exec_compute; reflexivity|].
  assert (Hload : forall m a, wrapP (load_bytes pointer_bytes m a)
                              = load_bytes pointer_bytes m a).
  { intros m a. apply wrapP_small. rewrite <- pointer_word. apply load_bytes_range. }
  unfold loadP.
  split.
  { frame_regs. rewrite wrapA_small by lia. apply wrapP_small. lia. }
  split.
  { frame_regs. rewrite Z.add_0_r, wrapA_small by lia. apply Hload. }
  split.
  { frame_regs. rewrite wrapA_small by lia. apply Hload. }
  split; [intros r H1 H2 H3 H4; autorewrite with state; now rewrite ?H1, ?H2, ?H3, ?H4|].
  intro d. now autorewrite with state.
Qed.

(** Returning from a function without a frame. *)
Lemma exec_drop (count : Z) (s : Machine) :
  0 <= count ->
  reg s sp + count * kPointerSize < 2 ^ kAddressBits ->
  exists s',
    exec [] [Drop count; Ret] s = Returned (reg s' r14) s' /\
    reg s' sp = reg s sp + count * kPointerSize /\
    (forall r, is_r sp r = false -> reg s' r = reg s r) /\
    (forall d, dreg s' d = dreg s d).
Proof.
  intros Hcount Htop.
  pose proof kPointerSize_pos as Hps.
  pose proof (reg_range s sp) as Hsp.
  pose proof address_bits_le as Hab.
  destruct (Z.ltb_spec 0 count) as [Hpos|Hneg].
  - eexists. split.
    { exec_compute. destruct (Z.ltb_spec 0 count); [reflexivity|lia]. }
    split; [rewrite reg_set_gpr_same; apply wrapP_small; nia|].
    split; [intros r Hr; now rewrite reg_set_gpr, Hr|].
    intro d. now autorewrite with state.
  - exists s. split.
    { exec_compute. destruct (Z.ltb_spec 0 count); [lia|reflexivity]. }
    split; [nia|]. split; reflexivity.
Qed.

End FrameCalls.

Section FrameSequence.
Context {arch : TargetArch} {fops : FloatOps} {layout : Layout}.

Lemma restore_sequence (gen : CodeGenerator) :
  rev (map restoring_call (save_sequence gen))
  = (if CalleeSavedRegisters (descriptor gen) =? 0 then []
     else [MultiPop (CalleeSavedRegisters (descriptor gen))])
    ++ (if CalleeSavedFPRegisters (descriptor gen) =? 0 then []
        else [MultiPopDoubles (CalleeSavedFPRegisters (descriptor gen))]).
Proof.
  unfold save_sequence.
  destruct (CalleeSavedRegisters (descriptor gen) =? 0),
           (CalleeSavedFPRegisters (descriptor gen) =? 0); reflexivity.
Qed.

(** The state after the first part of the prologue: the frame, when one
    is built, and the spill slots. *)
Lemma exec_frame_sequence (gen : CodeGenerator) (s : Machine) :
  fixed_frame_size gen + spill_area_size gen <= reg s sp ->
  reg s sp < 2 ^ kAddressBits ->
  exists s',
    exec [] (frame_sequence gen) s = Next s' /\
    reg s' sp = reg s sp - fixed_frame_size gen - spill_area_size gen /\
    reg s' fp = (if builds_frame gen then reg s sp - 2 * kPointerSize else reg s fp) /\
    (forall r, is_r sp r = false -> is_r fp r = false -> reg s' r = reg s r) /\
    (forall d, dreg s' d = dreg s d) /\
    (forall x, x < reg s sp - fixed_frame_size gen \/ reg s sp <= x ->
               mem s' x = mem s x) /\
    (builds_frame gen = true ->
     load_bytes pointer_bytes (mem s') (reg s sp - kPointerSize) = reg s r14 /\
     load_bytes pointer_bytes (mem s') (reg s sp - 2 * kPointerSize) = reg s fp).
Proof.
  intros Hroom Htop.
  pose proof kPointerSize_pos as Hps.
  pose proof (reg_range s sp) as Hsp.
  assert (Hspill : 0 <= spill_area_size gen).
  { unfold spill_area_size. destruct (Z.ltb_spec 0 (stack_shrink_slots gen)); nia. }
  assert (Hfirst : exists sA,
             exec [] (if IsCFunctionCall (descriptor gen) then [Push2 r14 fp; LoadRR fp sp]
                      else if IsJSFunctionCall (descriptor gen) then [Prologue]
                      else if needs_frame gen then [StubPrologue]
                      else []) s = Next sA /\
             if builds_frame gen then frame_built (fixed_frame_size gen) s sA
             else sA = s).
  { unfold fixed_frame_size, builds_frame in *.
    destruct (IsCFunctionCall (descriptor gen)); cbn [orb] in *.
    - apply exec_c_frame; lia.
    - destruct (IsJSFunctionCall (descriptor gen)); cbn [orb] in *.
      + apply exec_js_frame; lia.
      + destruct (needs_frame gen).
        * apply exec_stub_frame; lia.
        * exists s. split; reflexivity. }
  destruct Hfirst as (sA & HexA & HA).
  assert (HspA : reg sA sp = reg s sp - fixed_frame_size gen).
  { destruct (builds_frame gen) eqn:E.
    - apply HA.
    - subst sA. unfold fixed_frame_size. rewrite E.
      unfold builds_frame in E.
      destruct (IsCFunctionCall (descriptor gen)); [discriminate E | lia]. }
  assert (Hfixed : 0 <= fixed_frame_size gen).
  { unfold fixed_frame_size.
    destruct (IsCFunctionCall (descriptor gen)), (builds_frame gen); lia. }
  destruct (exec_spill_area (stack_shrink_slots gen) sA) as (sB & HexB & HspB & HrB & HdB & HmB).
  { fold (spill_area_size gen). lia. }
  { lia. }
  fold (spill_area_size gen) in HspB.
  exists sB. split.
  { unfold frame_sequence. rewrite (exec_app _ _ _ _ HexA). exact HexB. }
  split; [lia|].
  destruct (builds_frame gen) eqn:E.
  - destruct HA as (_ & HfpA & HrA & HdA & HmA & Hl1 & Hl2).
    split; [rewrite HrB by reflexivity; exact HfpA|].
    split; [intros r H1 H2; rewrite HrB by exact H1; now apply HrA|].
    split; [intro d; now rewrite HdB|].
    split; [intros x Hx; rewrite HmB; now apply HmA|].
    intros _. rewrite HmB. split; assumption.
  - subst sA.
    split; [now rewrite HrB by reflexivity|].
    split; [intros r H1 H2; now apply HrB|].
    split; [exact HdB|].
    split; [intros x Hx; now rewrite HmB|].
    discriminate.
Qed.

End FrameSequence.

Section SupportedFrames.
Context {arch : TargetArch} {fops : FloatOps} {layout : Layout}.

Lemma supported_frame_spec (gen : CodeGenerator) :
  supported_frame gen = true ->
  is_osr gen = false /\
  (IsCFunctionCall (descriptor gen) || needs_frame gen = builds_frame gen) /\
  (builds_frame gen = false -> spill_area_size gen = 0) /\
  0 <= StackParameterCount (descriptor gen) /\
  (forall c, In c (saved_registers gen) ->
     c <> 1%nat /\ c <> 11%nat /\ c <> 14%nat /\ c <> 15%nat).
Proof.
  unfold supported_frame. intro H.
  repeat (apply andb_prop in H; destruct H as [H ?]).
  split; [now apply negb_true_iff|].
  split.
  { unfold builds_frame.
    destruct (IsCFunctionCall (descriptor gen)), (IsJSFunctionCall (descriptor gen)),
      (needs_frame gen); try reflexivity; discriminate. }
  split.
  { intro E. rewrite E in *. cbn [orb] in *. unfold spill_area_size.
    destruct (Z.ltb_spec 0 (stack_shrink_slots gen)); [|reflexivity].
    apply Z.leb_le in H2. lia. }
  split; [now apply Z.leb_le|].
  intros c Hc.
  match goal with
  | Hall : forallb _ _ = true |- _ =>
      rewrite forallb_forall in Hall; specialize (Hall c Hc);
      apply negb_true_iff in Hall;
      repeat (apply orb_false_elim in Hall; destruct Hall as [Hall ?])
  end.
  repeat split; apply Nat.eqb_neq; assumption.
Qed.

End SupportedFrames.

Lemma nth_error_lt {A} (l : list A) (j : nat) (x : A) :
  nth_error l j = Some x -> Z.of_nat j < Z.of_nat (length l).
Proof. intro H. apply Nat2Z.inj_lt, nth_error_Some. now rewrite H. Qed.

(* ===================================================================== *)
(** * Lemmas for the further properties *)
(* ===================================================================== *)

(** ** Compares, branches and materialized conditions *)

Section BranchLemmas.
Context {arch : TargetArch} {fops : FloatOps} {layout : Layout}.

Lemma emit_all_nil (a : Assembler) : emit_all [] a = a.
Proof. destruct a. unfold emit_all. cbn. now rewrite app_nil_r. Qed.

Lemma emit_all_app (l1 l2 : list MInstr) (a : Assembler) :
  emit_all l2 (emit_all l1 a) = emit_all (l1 ++ l2) a.
Proof. unfold emit_all. cbn. now rewrite app_assoc. Qed.

Lemma emit_emit_all (i : MInstr) (a : Assembler) : emit i a = Some (tt, emit_all [i] a).
Proof. reflexivity. Qed.

Lemma emitted_bind {A B} (m : Gen A) (f : A -> Gen B) (x : A) (a : Assembler) :
  m empty_assembler = Some (x, a) ->
  emitted (gbind m f) = match f x a with Some (_, a') => Some (buffer a') | None => None end.
Proof. intro H. unfold emitted, gbind. now rewrite H. Qed.

(** An integer compare emits one compare call: the logical one when the
    instruction's condition is unsigned. *)
Lemma compare_emission (gen : CodeGenerator) (instr : Instruction)
    (in0 : Register) (op1 : InstructionOperand) (v : Opnd2) (a : Assembler) :
  is_integer_compare (arch_opcode instr) = true ->
  inputs instr = [RegisterOperand in0; op1] ->
  compare_operand op1 = Some v ->
  AssembleArchInstruction gen instr a
  = Some (tt, emit_all [Cmp (compare_call (arch_opcode instr) (flags_condition instr)) in0 v] a).
Proof.
  intros Hop Hin Hv.
  destruct instr as [opc am fm fc ins outs]. simpl in *. subst ins.
  destruct opc; try discriminate Hop.
  all: destruct op1 as [r | | | | [c|c| | | | |]]; simpl in Hv; try discriminate Hv.
  all: destruct arch; try discriminate Hop; try discriminate Hv.
  all: injection Hv as <-.
  all: destruct fc; reflexivity.
Qed.

(** The value the compare call reads for its second operand. *)
Lemma compare_operand_value (s : Machine) (op1 : InstructionOperand) (y : Z) :
  operand_value s op1 = Some y ->
  exists v, compare_operand op1 = Some v /\
            (v = I y \/ exists r, v = R r /\ reg s r = y).
Proof.
  destruct op1 as [r | | | | [c|c| | | | |]]; simpl; try discriminate.
  - intros [= <-]. eexists. split; [reflexivity|]. right. now exists r.
  - intros [= <-]. eexists. split; [reflexivity|]. now left.
  - destruct V8_TARGET_ARCH_S390X; [|discriminate].
    intros [= <-]. eexists. split; [reflexivity|]. now left.
Qed.

(** The native condition of an ordering condition holds after the compare
    of the matching signedness exactly when the requested relation does. *)
Lemma compare_relation (op : ArchOpcode) (fc c : FlagsCondition) (x y : Z) :
  is_integer_compare op = true ->
  is_ordering c = true ->
  is_unsigned fc = is_unsigned c ->
  exists cond,
    FlagsConditionToCondition c op = Some cond /\
    cond_eqb cond Cond.al = false /\
    (cond = Cond.eq \/ cond = Cond.ne \/ cond = Cond.lt \/ cond = Cond.ge
     \/ cond = Cond.le \/ cond = Cond.gt) /\
    cond_holds cond (cmp_sem (compare_call op fc) x y)
    = requested_relation (compare_width op) c x y.
Proof.
  intros Hop Hord Hsign.
  unfold compare_call. rewrite Hsign.
  destruct op; try discriminate Hop.
  - destruct c; try discriminate Hord;
      (eexists; split; [reflexivity|]; split; [reflexivity|]; split; [tauto|]);
      cbn [is_unsigned cmp_sem requested_relation compare_width];
      unfold sext32, lo32;
      first [apply holds_eq | apply holds_ne | apply holds_lt | apply holds_ge
            | apply holds_le | apply holds_gt].
  - unfold is_integer_compare, V8_TARGET_ARCH_S390X in Hop. subst arch.
    destruct c; try discriminate Hord;
      (eexists; split; [reflexivity|]; split; [reflexivity|]; split; [tauto|]);
      cbn [is_unsigned cmp_sem requested_relation compare_width];
      change (signedP (arch := true)) with (signed 64);
      change (wrapP (arch := true)) with (wrap 64);
      first [apply holds_eq | apply holds_ne | apply holds_lt | apply holds_ge
            | apply holds_le | apply holds_gt].
Qed.

(** The branch of an opcode other than the double compare: one conditional
    branch to the true label, and a branch to the false label unless the
    false block follows. *)
Lemma branch_emission (instr : Instruction) (branch : BranchInfo) (cond : Condition)
    (a : Assembler) :
  FlagsConditionToCondition (condition branch) (arch_opcode instr) = Some cond ->
  opcode_eqb_CmpDouble (arch_opcode instr) = false ->
  AssembleArchBranch instr branch a
  = Some (tt, emit_all (b cond (true_label branch)
                        :: if fallthru branch then []
                           else [b_always (false_label branch)]) a).
Proof.
  intros Hc Hd. unfold AssembleArchBranch, gbind, lift, when. rewrite Hc, Hd.
  destruct a. destruct (fallthru branch); unfold emit, emit_all, gret; cbn;
    rewrite <- ?app_assoc; reflexivity.
Qed.

Lemma cmp_sem_wrapP_r (op : CmpOp) (x y : Z) : cmp_sem op x (wrapP y) = cmp_sem op x y.
Proof.
  destruct op; cbn [cmp_sem];
    now rewrite ?sext32_wrapP, ?lo32_wrapP, ?signedP_wrapP, ?wrapP_wrapP.
Qed.

Lemma exec_cons (i : MInstr) (rest : list MInstr) (s s' : Machine) :
  step i s = Next s' -> exec [] (i :: rest) s = exec [] rest s'.
Proof. intro H. unfold exec. cbn [exec_from]. now rewrite H. Qed.

(** Running a conditional branch and what follows it. *)
Lemma exec_branch (branch : BranchInfo) (cond : Condition) (c : CC) (s : Machine) :
  cond_eqb cond Cond.al = false -> cc s = Some c ->
  exec [] (b cond (true_label branch)
           :: if fallthru branch then [] else [b_always (false_label branch)]) s
  = branch_outcome branch (cond_holds cond c) s.
Proof.
  intros Hal Hcc. unfold exec, branch_outcome. cbn [exec_from].
  rewrite (step_b cond _ _ _ Hal Hcc).
  destruct (cond_holds cond c).
  - cbn [find_ool find]. destruct (fallthru branch); reflexivity.
  - destruct (fallthru branch); reflexivity.
Qed.

End BranchLemmas.

(** Evaluates the tests of a condition on a known condition code. *)
Ltac eval_cond_holds :=
  repeat match goal with
         | |- context [cond_holds ?c ?v] =>
             let r := eval vm_compute in (cond_holds c v) in
             change (cond_holds c v) with r
         end.

Section BooleanLemmas.
Context {arch : TargetArch} {fops : FloatOps} {layout : Layout}.

(** A conditional branch in code without out-of-line code objects. *)
Lemma exec_b (cond : Condition) (l : Label) (rest : list MInstr) (s : Machine) (c : CC) :
  cond_eqb cond Cond.al = false -> cc s = Some c ->
  exec [] (b cond l :: rest) s
  = if cond_holds cond c then exec_from [] (Seeking l) rest s else exec [] rest s.
Proof.
  intros Hal Hcc. unfold exec. cbn [exec_from].
  rewrite (step_b cond _ _ _ Hal Hcc).
  destruct (cond_holds cond c); reflexivity.
Qed.

Lemma wrapP_0 : wrapP 0 = 0.
Proof. unfold wrapP, wrap, kBitsPerPointer. destruct V8_TARGET_ARCH_S390X; reflexivity. Qed.

Lemma wrapP_1 : wrapP 1 = 1.
Proof. unfold wrapP, wrap, kBitsPerPointer. destruct V8_TARGET_ARCH_S390X; reflexivity. Qed.

(** An integer compare never leaves the condition code of an unordered
    compare. *)
Lemma cmp_sem_ordered (op : CmpOp) (x y : Z) : cmp_sem op x y <> CC3.
Proof.
  destruct op; cbn [cmp_sem]; unfold cc_compare;
    match goal with |- (if ?a =? ?b then _ else _) <> _ =>
      destruct (a =? b); [discriminate|]; destruct (a <? b); discriminate end.
Qed.

(** The code that materializes a condition after an opcode other than the
    double compare: it runs to its end and leaves 1 in the last output
    register when the condition holds under the condition code, 0
    otherwise. *)
Lemma boolean_spec (instr : Instruction) (c : FlagsCondition) (out : Register)
    (cond : Condition) (a : Assembler) (s : Machine) (ccv : CC) :
  opcode_eqb_CmpDouble (arch_opcode instr) = false ->
  FlagsConditionToCondition c (arch_opcode instr) = Some cond ->
  (cond = Cond.eq \/ cond = Cond.ne \/ cond = Cond.lt \/ cond = Cond.ge
   \/ cond = Cond.le \/ cond = Cond.gt) ->
  OutputAt instr (OutputCount instr - 1) = Some (RegisterOperand out) ->
  cc s = Some ccv -> ccv <> CC3 ->
  exists code s',
    AssembleArchBoolean instr c a
    = Some (tt, mkAssembler (buffer a ++ code) (S (S (next_label a))) (ools a)
                            (jump_tables a) (return_label_bound a)
                            (callee_saved_slots a)) /\
    exec [] code s = Next s' /\
    reg s' out = (if cond_holds cond ccv then 1 else 0) /\
    (forall r, is_r out r = false -> reg s' r = reg s r) /\
    (forall d, dreg s' d = dreg s d) /\
    mem s' = mem s.
Proof.
  intros Hd Hcond Hcases Hout Hcc Hordered.
  destruct a as [buf n os jt rb cs].
  destruct Hcases as [->|[->|[->|[->|[->| ->]]]]].
  all: eexists; destruct ccv; try (now contradiction Hordered); eexists.
  all: split;
    [unfold AssembleArchBoolean, gbind, new_label, lift, OutputRegister;
     cbn [next_label];
     rewrite Hout, Hcond, Hd; unfold emit; cbn;
     rewrite <- ?app_assoc; cbn [app]; reflexivity|].
  all: erewrite exec_cons by (cbn [step]; reflexivity).
  all: erewrite exec_b by (first [reflexivity | autorewrite with state; exact Hcc]).
  all: cbn [NegateCondition]; eval_cond_holds.
  all: unfold exec; cbn [exec_from step label_eqb]; rewrite ?Nat.eqb_refl.
  all: split; [reflexivity|].
  all: autorewrite with state; rewrite ?is_r_refl, ?wrapP_0, ?wrapP_1.
  all: split; [reflexivity|].
  all: split; [intros r Hr; autorewrite with state; now rewrite ?Hr|].
  all: split; [intro d|]; autorewrite with state; reflexivity.
Qed.

End BooleanLemmas.

Section DoubleLemmas.
Context {arch : TargetArch} {fops : FloatOps} {layout : Layout}.

Lemma holds_unordered_compare (x y : Z) :
  cond_holds Cond.unordered (cc_compare x y) = false.
Proof. unfold cc_compare. destruct (x =? y); [reflexivity|]. destruct (x <? y); reflexivity. Qed.

Lemma f64_compare_ordered (x y : Z) :
  is_nan x || is_nan y = false ->
  f64_compare x y = cc_compare (f64_key x) (f64_key y).
Proof. intro H. unfold f64_compare. now rewrite H. Qed.

(** The native condition of an ordering condition, on the condition code
    of a compare of two numbers. *)
Lemma double_order_holds (c : FlagsCondition) (x y : Z) :
  is_ordering c = true ->
  exists cond,
    FlagsConditionToCondition c kS390_CmpDouble = Some cond /\
    cond_eqb cond Cond.al = false /\
    cond_holds cond (cc_compare (f64_key x) (f64_key y)) = double_order c x y.
Proof.
  intro Hord.
  destruct c; try discriminate Hord;
    (eexists; split; [reflexivity|]; split; [reflexivity|]);
    cbn [double_order];
    first [apply holds_eq | apply holds_ne | apply holds_lt | apply holds_ge
          | apply holds_le | apply holds_gt].
Qed.

End DoubleLemmas.

(** ** Overflow of sums and differences *)

Section OverflowLemmas.
Context {arch : TargetArch} {fops : FloatOps} {layout : Layout}.


(** Signed overflow of a subtraction, read off the signs: the difference
    overflows when the operands differ in sign and the sign of the
    difference is not that of the first operand. *)
Lemma sub_overflow_sign (n x y : Z) :
  0 < n ->
  let res := wrap n (x - y) in
  (signed n (Z.land (Z.lxor res x) (Z.lxor x y)) <? 0)
  = negb ((- 2 ^ (n - 1) <=? signed n x - signed n y)
          && (signed n x - signed n y <? 2 ^ (n - 1))).
Proof.
  intros Hn res. pose proof (pow2_half n Hn) as H2.
  rewrite signed_neg_testbit by assumption.
  rewrite Z.land_spec, !Z.lxor_spec.
  rewrite <- !signed_neg_testbit by assumption.
  assert (Hres : signed n res = signed n (signed n x - signed n y)).
  { unfold res. rewrite signed_signed_wrap by assumption.
    rewrite <- (signed_signed_wrap n (signed n x - signed n y)) by assumption.
    rewrite <- (signed_signed_wrap n (x - y)) by assumption.
    f_equal. unfold wrap.
    rewrite (Zminus_mod (signed n x)). fold (wrap n (signed n x)) (wrap n (signed n y)).
    rewrite !wrap_signed by assumption. unfold wrap. now rewrite <- Zminus_mod. }
  rewrite Hres.
  pose proof (signed_range n x Hn) as Hx.
  pose proof (signed_range n y Hn) as Hy.
  set (X := signed n x) in *. set (Y := signed n y) in *.
  destruct (Z_lt_le_dec (X - Y) (- 2 ^ (n - 1))).
  - rewrite (signed_below n (X - Y)) by lia.
    destruct (Z.ltb_spec (X - Y + 2 ^ n) 0), (Z.ltb_spec X 0), (Z.ltb_spec Y 0),
      (Z.leb_spec (- 2 ^ (n - 1)) (X - Y)), (Z.ltb_spec (X - Y) (2 ^ (n - 1)));
      try reflexivity; lia.
  - destruct (Z_lt_le_dec (X - Y) (2 ^ (n - 1))).
    + rewrite (signed_fits n (X - Y)) by lia.
      destruct (Z.ltb_spec (X - Y) 0), (Z.ltb_spec X 0), (Z.ltb_spec Y 0),
        (Z.leb_spec (- 2 ^ (n - 1)) (X - Y)), (Z.ltb_spec (X - Y) (2 ^ (n - 1)));
        try reflexivity; lia.
    + rewrite (signed_above n (X - Y)) by lia.
      destruct (Z.ltb_spec (X - Y - 2 ^ n) 0), (Z.ltb_spec X 0), (Z.ltb_spec Y 0),
        (Z.leb_spec (- 2 ^ (n - 1)) (X - Y)), (Z.ltb_spec (X - Y) (2 ^ (n - 1)));
        try reflexivity; lia.
Qed.

(** Two's complement readings of sums and differences. *)
Lemma signed_add (n x y : Z) : 0 < n -> signed n (x + y) = signed n (signed n x + signed n y).
Proof.
  intro Hn.
  rewrite <- (signed_signed_wrap n (signed n x + signed n y)) by assumption.
  rewrite <- (signed_signed_wrap n (x + y)) by assumption.
  f_equal. unfold wrap.
  rewrite (Zplus_mod (signed n x)). fold (wrap n (signed n x)) (wrap n (signed n y)).
  rewrite !wrap_signed by assumption. unfold wrap. now rewrite <- Zplus_mod.
Qed.

Lemma signed_sub (n x y : Z) : 0 < n -> signed n (x - y) = signed n (signed n x - signed n y).
Proof.
  intro Hn.
  rewrite <- (signed_signed_wrap n (signed n x - signed n y)) by assumption.
  rewrite <- (signed_signed_wrap n (x - y)) by assumption.
  f_equal. unfold wrap.
  rewrite (Zminus_mod (signed n x)). fold (wrap n (signed n x)) (wrap n (signed n y)).
  rewrite !wrap_signed by assumption. unfold wrap. now rewrite <- Zminus_mod.
Qed.

Lemma signed_le (m n x : Z) : 0 < m <= n -> signed m (signed n x) = signed m x.
Proof.
  intro H. rewrite <- (signed_signed_wrap m (signed n x)) by lia.
  rewrite <- (wrap_wrap_le m n (signed n x)) by lia.
  rewrite wrap_signed by lia. rewrite wrap_wrap_le by lia.
  apply signed_signed_wrap. lia.
Qed.

Lemma fits_signed_spec (w v : Z) :
  fits_signed w v = true <-> - 2 ^ (w - 1) <= v < 2 ^ (w - 1).
Proof. unfold fits_signed. rewrite andb_true_iff, Z.leb_le, Z.ltb_lt. tauto. Qed.

Lemma signed_fixed (w v : Z) : 0 < w -> (signed w v =? v) = fits_signed w v.
Proof.
  intro Hw.
  destruct (fits_signed w v) eqn:E.
  - apply Z.eqb_eq. apply signed_fits; [lia|]. now apply fits_signed_spec.
  - apply Z.eqb_neq. intro H.
    pose proof (signed_range w v Hw) as R. rewrite H in R.
    apply fits_signed_spec in R. congruence.
Qed.

Lemma kBitsPerPointer_pos : 0 < kBitsPerPointer.
Proof. destruct kBitsPerPointer_cases as [H|H]; rewrite H; lia. Qed.

Lemma holds_ge_lt (c : CC) : c <> CC3 -> cond_holds Cond.ge c = negb (cond_holds Cond.lt c).
Proof. destruct c; intro H; try reflexivity; congruence. Qed.

Lemma holds_eq_ne (c : CC) : cond_holds Cond.eq c = negb (cond_holds Cond.ne c).
Proof. destruct c; reflexivity. Qed.

Lemma cc_compare_ordered (x y : Z) : cc_compare x y <> CC3.
Proof. unfold cc_compare. destruct (x =? y), (x <? y); discriminate. Qed.

(** A register that holds an integer holds its two's complement. *)
Lemma reg_of_signedP (s : Machine) (r : Register) (v : Z) :
  signedP (reg s r) = v -> wrapP v = reg s r.
Proof.
  intros <-. unfold signedP, wrapP. rewrite wrap_signed by apply kBitsPerPointer_pos.
  apply reg_wrapP.
Qed.

(** Pointer-width overflow of a sum, as [AddAndCheckForOverflow] computes it. *)
Lemma add_check_sign (X Y x y : Z) :
  signedP X = x -> signedP Y = y ->
  let res := wrapP (X + Y) in
  cond_holds Cond.lt (cc_compare (signedP (Z.land (Z.lxor res X) (Z.lxor res Y))) 0)
  = negb (fits_signed kBitsPerPointer (x + y)) /\
  signedP res = signed kBitsPerPointer (x + y).
Proof.
  intros Hx Hy res. split.
  - rewrite holds_lt. subst res. unfold signedP, wrapP in *.
    rewrite (add_overflow_sign kBitsPerPointer X Y kBitsPerPointer_pos).
    rewrite Hx, Hy. reflexivity.
  - unfold res. rewrite signedP_wrapP. unfold signedP in *.
    rewrite signed_add by apply kBitsPerPointer_pos. now rewrite Hx, Hy.
Qed.

Lemma sub_check_sign (X Y x y : Z) :
  signedP X = x -> signedP Y = y ->
  let res := wrapP (X - Y) in
  cond_holds Cond.lt (cc_compare (signedP (Z.land (Z.lxor res X) (Z.lxor X Y))) 0)
  = negb (fits_signed kBitsPerPointer (x - y)) /\
  signedP res = signed kBitsPerPointer (x - y).
Proof.
  intros Hx Hy res. split.
  - rewrite holds_lt. subst res. unfold signedP, wrapP in *.
    rewrite (sub_overflow_sign kBitsPerPointer X Y kBitsPerPointer_pos).
    rewrite Hx, Hy. reflexivity.
  - unfold res. rewrite signedP_wrapP. unfold signedP in *.
    rewrite signed_sub by apply kBitsPerPointer_pos. now rewrite Hx, Hy.
Qed.

Lemma signed_of_signedP (w X x : Z) :
  0 < w <= kBitsPerPointer -> signedP X = x -> signed w X = signed w x.
Proof. intros Hw <-. unfold signedP. symmetry. now apply signed_le. Qed.

Lemma add_result_signed (w X Y x y : Z) :
  0 < w <= kBitsPerPointer -> signedP X = x -> signedP Y = y ->
  signed w (wrapP (X + Y)) = signed w (x + y).
Proof.
  intros Hw Hx Hy. unfold wrapP. rewrite signed_wrap_le by lia.
  rewrite signed_add by lia.
  rewrite (signed_of_signedP w X x Hw Hx), (signed_of_signedP w Y y Hw Hy).
  symmetry. apply signed_add. lia.
Qed.

Lemma sub_result_signed (w X Y x y : Z) :
  0 < w <= kBitsPerPointer -> signedP X = x -> signedP Y = y ->
  signed w (wrapP (X - Y)) = signed w (x - y).
Proof.
  intros Hw Hx Hy. unfold wrapP. rewrite signed_wrap_le by lia.
  rewrite signed_sub by lia.
  rewrite (signed_of_signedP w X x Hw Hx), (signed_of_signedP w Y y Hw Hy).
  symmetry. apply signed_sub. lia.
Qed.

(** [TestIfInt32] on a register that holds the integer [v]. *)
Lemma test_if_int32_sign (R v : Z) :
  signedP R = v ->
  cond_holds Cond.ne (cc_compare (signedP (wrapP (sext32 R))) (signedP R))
  = negb (fits_signed 32 v).
Proof.
  intros Hv. rewrite holds_ne, Hv. f_equal.
  rewrite signedP_wrapP.
  assert (Hs : signedP (sext32 R) = sext32 R).
  { unfold signedP, sext32. apply signed_fits; [apply kBitsPerPointer_pos|].
    pose proof (signed_range 32 R ltac:(lia)).
    destruct kBitsPerPointer_cases as [H'|H']; rewrite H'; simpl in *; lia. }
  rewrite Hs. unfold sext32.
  rewrite (signed_of_signedP 32 R v) by
    (try assumption; destruct kBitsPerPointer_cases as [H'|H']; rewrite H'; lia).
  apply signed_fixed. lia.
Qed.

(** A register of the 64-bit build that holds the sum or difference of two
    32-bit integers. *)
Lemma wide_sum (X Y x y : Z) :
  kBitsPerPointer = 64 ->
  signedP X = x -> signedP Y = y ->
  fits_signed 32 x = true -> fits_signed 32 y = true ->
  signedP (wrapP (X + Y)) = x + y /\ signedP (wrapP (X - Y)) = x - y.
Proof.
  intros H64 Hx Hy Hfx Hfy.
  apply fits_signed_spec in Hfx, Hfy. simpl in Hfx, Hfy.
  split.
  - change (signedP (wrapP (X + Y))) with (signed kBitsPerPointer (wrapP (X + Y))).
    rewrite (add_result_signed kBitsPerPointer X Y x y) by (try assumption; rewrite H64; lia).
    apply signed_fits; rewrite H64; simpl; lia.
  - change (signedP (wrapP (X - Y))) with (signed kBitsPerPointer (wrapP (X - Y))).
    rewrite (sub_result_signed kBitsPerPointer X Y x y) by (try assumption; rewrite H64; lia).
    apply signed_fits; rewrite H64; simpl; lia.
Qed.

(** A 32-bit immediate read at the register width. *)
Lemma signedP_immediate (i : Z) : fits_signed 32 i = true -> signedP (wrapP i) = i.
Proof.
  intro H. apply fits_signed_spec in H. simpl in H.
  rewrite signedP_wrapP. unfold signedP. apply signed_fits; [apply kBitsPerPointer_pos|].
  destruct kBitsPerPointer_cases as [H'|H']; rewrite H'; simpl; lia.
Qed.

Lemma signedP_negated_immediate (i : Z) :
  fits_signed 32 i = true -> i <> - 2 ^ 31 -> signedP (wrapP (neg_int32 i)) = - i.
Proof.
  intros H Hne. apply fits_signed_spec in H. simpl in H.
  assert (Hn : neg_int32 i = - i) by (unfold neg_int32; apply signed_fits; simpl; lia).
  rewrite Hn. apply signedP_immediate. apply fits_signed_spec. simpl. lia.
Qed.

End OverflowLemmas.

Ltac width_ok := cbv [kBitsPerPointer V8_TARGET_ARCH_S390X]; lia.

(** ** Stores and loads *)

Section StoreLoadLemmas.
Context {arch : TargetArch}.

Lemma signed_wrapP_bytes (k v : Z) :
  0 < k <= 32 -> signed k (wrapP (wrap k v)) = signed k v.
Proof.
  intro Hk. unfold wrapP. rewrite signed_wrap_le
    by (destruct kBitsPerPointer_cases as [H|H]; rewrite H; lia).
  apply signed_signed_wrap. lia.
Qed.

End StoreLoadLemmas.

(** ** The padding before a lazy-deopt site *)

(** The padding loop stops as soon as the padding is used up: for an even
    padding the offset advances by exactly the padding. *)
Lemma pad_exact (padding_size : Z) (st : LazyDeopt.State) :
  padding_size mod 2 = 0 ->
  LazyDeopt.pc_offset (LazyDeopt.pad padding_size st)
  = LazyDeopt.pc_offset st + Z.max 0 padding_size.
Proof.
  functional induction (LazyDeopt.pad padding_size st) as [p st Hpos IH | p st Hpos];
    intro Heven.
  - apply Z.ltb_lt in Hpos.
    assert (Hp2 : (p - 2) mod 2 = 0).
    { replace (p - 2) with (p + (-1) * 2) by lia. now rewrite Z_mod_plus_full. }
    rewrite (IH Hp2). unfold LazyDeopt.nop, LazyDeopt.kNopSize.
    cbn [LazyDeopt.pc_offset].
    assert (p <> 1) by (intros ->; discriminate Heven). lia.
  - apply Z.ltb_ge in Hpos. lia.
Qed.

Lemma pad_nothing (padding_size : Z) (st : LazyDeopt.State) :
  padding_size <= 0 -> LazyDeopt.pad padding_size st = st.
Proof.
  intro H. rewrite LazyDeopt.pad_equation.
  destruct (Z.ltb_spec 0 padding_size); [lia | reflexivity].
Qed.

(** ** Return sites *)

Section ReturnSites.
Context {arch : TargetArch} {fops : FloatOps} {layout : Layout}.

Lemma exec_restore_calls (gen : CodeGenerator) (s : Machine) :
  exists s', exec [] (restore_calls gen) s = Next s'.
Proof.
  unfold restore_calls.
  destruct (CalleeSavedRegisters (descriptor gen) =? 0),
           (CalleeSavedFPRegisters (descriptor gen) =? 0);
    eexists; exec_compute; reflexivity.
Qed.

Lemma restore_calls_keep_frame (gen : CodeGenerator) :
  forallb (fun i => negb (is_teardown i)) (restore_calls gen) = true.
Proof.
  unfold restore_calls.
  destruct (CalleeSavedRegisters (descriptor gen) =? 0),
           (CalleeSavedFPRegisters (descriptor gen) =? 0); reflexivity.
Qed.
End ReturnSites.

(** ** The slots of the callee-saved registers *)

Section FrameAccounting.
Context {arch : TargetArch} {fops : FloatOps} {layout : Layout}.





End FrameAccounting.

(** ** Lookup switches *)

Section LookupSwitch.
Context {arch : TargetArch} {fops : FloatOps} {layout : Layout}.
Variable IsNextInAssemblyOrder : nat -> bool.

Lemma case_operands (done rest : list (Z * nat)) (c : Z * nat) :
  let ops := flat_map (fun c => [ImmediateOperand (kInt32 (fst c));
                                 ImmediateOperand (kRpoNumber (snd c))])
                      (done ++ c :: rest) in
  nth_error ops (2 * length done) = Some (ImmediateOperand (kInt32 (fst c))) /\
  nth_error ops (2 * length done + 1) = Some (ImmediateOperand (kRpoNumber (snd c))) /\
  length ops = (2 * length done + 2 + 2 * length rest)%nat.
Proof.
  induction done as [|d done IH]; cbn zeta.
  - cbn [app flat_map length Nat.mul Nat.add nth_error].
    split; [reflexivity|]. split; [reflexivity|].
    cbn. f_equal. f_equal.
    induction rest as [|r rest IHr]; [reflexivity|]. cbn. rewrite IHr. lia.
  - destruct IH as (H1 & H2 & H3).
    cbn [app flat_map length]. 
    replace (2 * S (length done))%nat with (S (S (2 * length done))) by lia.
    cbn [Nat.add nth_error app].
    split; [exact H1|]. split; [exact H2|].
    cbn [length]. rewrite H3. lia.
Qed.

(** What the loop emits for the cases it has not handled yet. *)
Lemma lookup_cases_emission (instr : Instruction) (input : Register) (default : nat) :
  forall (rest done : list (Z * nat)) (a : Assembler),
    inputs instr = lookup_switch_inputs input default (done ++ rest) ->
    lookup_cases instr input (2 + 2 * length done) a
    = Some (tt, emit_all (lookup_switch_code input rest) a).
Proof.
  induction rest as [|c rest IH]; intros done a Hin.
  - rewrite lookup_cases_equation. unfold InputCount. rewrite Hin.
    unfold lookup_switch_inputs. cbn [length].
    rewrite app_nil_r in *.
    assert (Hlen : length (flat_map (fun c => [ImmediateOperand (kInt32 (fst c));
                             ImmediateOperand (kRpoNumber (snd c))]) done)
                   = (2 * length done)%nat).
    { clear. induction done as [|d done IH]; [reflexivity|]. cbn. rewrite IH. lia. }
    rewrite Hlen.
    destruct (Nat.ltb_spec (2 + 2 * length done) (S (S (2 * length done)))); [lia|].
    cbn [lookup_switch_code flat_map]. now rewrite emit_all_nil.
  - rewrite lookup_cases_equation. unfold InputCount. rewrite Hin.
    unfold lookup_switch_inputs. cbn [length].
    destruct (case_operands done rest c) as (H1 & H2 & H3). cbn zeta in *.
    rewrite H3.
    destruct (Nat.ltb_spec (2 + 2 * length done)
                           (S (S (2 * length done + 2 + 2 * length rest)))); [|lia].
    unfold lookup_case, gbind, InputInt32, InputRpo, ToConstant, InputAt, gbind.
    rewrite Hin. unfold lookup_switch_inputs.
    replace (2 + 2 * length done + 0)%nat with (S (S (2 * length done))) by lia.
    replace (2 + 2 * length done + 1)%nat with (S (S (2 * length done + 1))) by lia.
    cbn [nth_error]. rewrite H1, H2.
    cbn [gret emit].
    replace (2 + 2 * length done + 2)%nat with (2 + 2 * length (done ++ [c]))%nat
      by (rewrite length_app; cbn [length]; lia).
    rewrite (IH (done ++ [c])) by (rewrite <- app_assoc; exact Hin).
    f_equal. f_equal. destruct a. unfold emit_all. cbn.
    rewrite <- !app_assoc. reflexivity.
Qed.

Lemma lookup_switch_emission (instr : Instruction) (input : Register) (default : nat)
    (cases : list (Z * nat)) :
  inputs instr = lookup_switch_inputs input default cases ->
  emitted (AssembleArchLookupSwitch IsNextInAssemblyOrder instr)
  = Some (lookup_switch_code input cases
          ++ if IsNextInAssemblyOrder default then []
             else [b_always (GetLabel default)]).
Proof.
  intro Hin.
  unfold emitted, AssembleArchLookupSwitch, gbind, InputRegister, InputAt.
  rewrite Hin. cbn [lookup_switch_inputs nth_error gret].
  change 2%nat with (2 + 2 * length (@nil (Z * nat)))%nat.
  rewrite (lookup_cases_emission instr input default cases [] _ Hin).
  unfold InputRpo, ToConstant, InputAt, gbind. rewrite Hin.
  cbn [lookup_switch_inputs nth_error gret].
  unfold AssembleArchJump, when.
  destruct (IsNextInAssemblyOrder default); cbn; [now rewrite app_nil_r | reflexivity].
Qed.

(** A taken branch leaves code that binds no label. *)
Lemma seek_without_bind (l : Label) (code : list MInstr) (s : Machine) :
  forallb (fun i => negb (is_bind i)) code = true ->
  exec_from [] (Seeking l) code s = Taken l s.
Proof.
  induction code as [|i rest IH]; intro H; [reflexivity|].
  cbn [forallb] in H. apply andb_prop in H as [Hi Hrest].
  cbn [exec_from]. destruct i; try discriminate Hi; now apply IH.
Qed.

Lemma lookup_switch_code_no_bind (input : Register) (cases : list (Z * nat))
    (tail : list MInstr) :
  forallb (fun i => negb (is_bind i)) tail = true ->
  forallb (fun i => negb (is_bind i)) (lookup_switch_code input cases ++ tail) = true.
Proof.
  intro H. rewrite forallb_app, H, andb_true_r.
  induction cases as [|c rest IH]; [reflexivity|]. exact IH.
Qed.

(** The compare of a case is equal exactly for the value of the case. *)
Lemma case_compare (x v : Z) :
  wrapP x = x ->
  cond_holds Cond.eq (cmp_sem OpCmpP x (wrapP v)) = (wrapP v =? x).
Proof.
  intro Hx. cbn [cmp_sem]. rewrite holds_eq.
  destruct (Z.eqb_spec (wrapP v) x) as [E|E].
  - rewrite E. apply Z.eqb_refl.
  - apply Z.eqb_neq. intro H. apply E.
    rewrite <- (wrapP_wrapP v), <- Hx. unfold wrapP, signedP in *.
    rewrite <- (wrap_signed kBitsPerPointer (wrap kBitsPerPointer v)),
            <- (wrap_signed kBitsPerPointer x) by apply kBitsPerPointer_pos.
    now rewrite H.
Qed.

Lemma exec_lookup_switch (input : Register) (default : nat) :
  forall (cases : list (Z * nat)) (s : Machine),
  exists ccv,
    exec [] (lookup_switch_code input cases
             ++ if IsNextInAssemblyOrder default then []
                else [b_always (GetLabel default)]) s
    = lookup_switch_outcome IsNextInAssemblyOrder (reg s input) default cases
        (set_cc s ccv).
Proof.
  induction cases as [|c rest IH]; intro s.
  - exists (cc s). unfold lookup_switch_outcome. cbn [matching_case find lookup_switch_code flat_map app].
    assert (E : set_cc s (cc s) = s) by (destruct s; reflexivity).
    rewrite E.
    destruct (IsNextInAssemblyOrder default); [reflexivity|].
    unfold exec. cbn [exec_from step b_always]. reflexivity.
  - cbn [lookup_switch_code flat_map app].
    change (flat_map _ rest) with (lookup_switch_code input rest).
    rewrite <- ?app_assoc; cbn [app].
    erewrite exec_cons by (cbn [step CmpP]; reflexivity).
    unfold beq. erewrite exec_b by (first [reflexivity | apply cc_set_cc]).
    cbn [opnd2]. autorewrite with state.
    rewrite (case_compare (reg s input) (fst c) (reg_wrapP s input)).
    unfold lookup_switch_outcome. cbn [matching_case find].
    destruct (wrapP (fst c) =? reg s input) eqn:E.
    + eexists. rewrite seek_without_bind; [reflexivity|].
      apply lookup_switch_code_no_bind. destruct (IsNextInAssemblyOrder default); reflexivity.
    + destruct (IH (set_cc s (Some (cmp_sem OpCmpP (reg s input) (wrapP (fst c))))))
        as (ccv & Hrest).
      exists ccv. rewrite Hrest. autorewrite with state.
      unfold lookup_switch_outcome, matching_case.
      assert (Es : forall a b, set_cc (set_cc s a) b = set_cc s b)
        by (intros; destruct s; reflexivity).
      rewrite Es. reflexivity.
Qed.

End LookupSwitch.

(** ** Gap moves *)

Section SwapLemmas.
Import Gap.
Context {arch : TargetArch} {fops : FloatOps} {layout : Layout}.

Lemma load_store_bytes_other (n : nat) (m : Z -> Z) (a a' v : Z) :
  a + Z.of_nat n <= a' \/ a' + Z.of_nat n <= a ->
  load_bytes n (store_bytes n m a v) a' = load_bytes n m a'.
Proof.
  intro H. apply load_bytes_ext. intros x Hx.
  apply store_bytes_other. lia.
Qed.

Lemma allocatable_spec (r : Register) :
  allocatable r = true ->
  is_r kScratchReg r = false /\ is_r r0 r = false /\ is_r sp r = false /\ is_r fp r = false
  /\ is_r r kScratchReg = false /\ is_r r r0 = false /\ is_r r sp = false
  /\ is_r r fp = false.
Proof.
  unfold allocatable. rewrite negb_true_iff, !orb_false_iff.
  intros [[[H1 H2] H3] H4]. rewrite !(is_r_sym r). tauto.
Qed.

Lemma allocatable_double_spec (d : DoubleRegister) :
  allocatable_double d = true ->
  is_d kScratchDoubleReg d = false /\ is_d d0 d = false
  /\ is_d d kScratchDoubleReg = false /\ is_d d d0 = false.
Proof.
  unfold allocatable_double. rewrite negb_true_iff, !orb_false_iff.
  intros [H1 H2]. rewrite !(is_d_sym d). tauto.
Qed.

Variable GetFrameOffset : Z -> FrameOffset.

Lemma slot_address_set_gpr (s : Machine) (r : Register) (v index : Z) :
  is_r r sp = false -> is_r r fp = false ->
  slot_address GetFrameOffset (set_gpr s r v) index = slot_address GetFrameOffset s index.
Proof.
  intros Hsp Hfp. unfold slot_address, slot_operand, ea, MemOperand_ri.
  cbn [mo_rx mo_rb mo_offset].
  rewrite is_r_refl.
  destruct (from_stack_pointer (GetFrameOffset index));
    rewrite reg_set_gpr, ?Hsp, ?Hfp; reflexivity.
Qed.

Lemma slot_address_set_mem (s : Machine) (f : Z -> Z) (index : Z) :
  slot_address GetFrameOffset (set_mem s f) index = slot_address GetFrameOffset s index.
Proof. reflexivity. Qed.

Lemma slot_address_set_fpr (s : Machine) (d : DoubleRegister) (v index : Z) :
  slot_address GetFrameOffset (set_fpr s d v) index = slot_address GetFrameOffset s index.
Proof. reflexivity. Qed.

Lemma wrapP_load_pointer (m : Z -> Z) (a : Z) :
  wrapP (load_bytes pointer_bytes m a) = load_bytes pointer_bytes m a.
Proof.
  apply wrapP_small. rewrite <- pointer_word. apply load_bytes_range.
Qed.

Lemma load_store_reg (s : Machine) (r : Register) (m : Z -> Z) (a : Z) :
  load_bytes pointer_bytes (store_bytes pointer_bytes m a (reg s r)) a = reg s r.
Proof.
  apply load_store_bytes. rewrite pointer_word. apply reg_range.
Qed.

Lemma load_store_load (n : nat) (m m' : Z -> Z) (a a' : Z) :
  load_bytes n (store_bytes n m a (load_bytes n m' a')) a = load_bytes n m' a'.
Proof. apply load_store_bytes. apply load_bytes_range. Qed.

End SwapLemmas.

Create Rewrite HintDb moves.
#[global] Hint Rewrite @slot_address_set_mem @slot_address_set_fpr
  @wrapP_load_pointer @load_store_reg @load_store_load : moves.

(** Normalizes a state with the facts at hand on which registers
    differ. *)
Ltac state_facts :=
  repeat progress
    (autorewrite with state moves;
     repeat match goal with
            | H : is_r _ _ = false |- _ => rewrite H
            | H : is_d _ _ = false |- _ => rewrite H
            end).

(** Rewrites the address of a slot operand to [slot_address] and moves it
    to the initial state. *)
Ltac slot_addresses G :=
  repeat match goal with
         | |- context [@ea ?A ?s (slot_operand G ?j)] =>
             change (@ea A s (slot_operand G j)) with (@slot_address A G s j)
         end;
  repeat first
    [ rewrite slot_address_set_mem
    | rewrite slot_address_set_fpr
    | rewrite slot_address_set_gpr by (first [assumption | reflexivity]) ].

Section SwapCases.
Import Gap.
Context {arch : TargetArch} {fops : FloatOps} {layout : Layout}.
Variable GetFrameOffset : Z -> FrameOffset.

Lemma swap_rr (src dst : Register) (s : Machine) :
  swappable GetFrameOffset s (Operand (RegisterOperand src)) (Operand (RegisterOperand dst)) ->
  exchanged GetFrameOffset (Operand (RegisterOperand src)) (Operand (RegisterOperand dst)) s.
Proof.
  intro Hsw. unfold exchanged.
  destruct Hsw as [Ha Hb].
  apply allocatable_spec in Ha as (Ha1 & Ha2 & Ha3 & Ha4 & Ha5 & Ha6 & Ha7 & Ha8).
  apply allocatable_spec in Hb as (Hb1 & Hb2 & Hb3 & Hb4 & Hb5 & Hb6 & Hb7 & Hb8).
  exists [LoadRR kScratchReg src; LoadRR src dst; LoadRR dst kScratchReg].
  eexists. split; [destruct arch; reflexivity|].
  split; [exec_compute; reflexivity|].
  cbn [content names_register names_double covers].
  autorewrite with state moves. rewrite ?Ha1, ?Hb1, ?Ha5, ?Hb5. autorewrite with state moves.
  rewrite ?reg_wrapP.
  split; [|split; [|split; [|split]]].
  + destruct (is_r dst src) eqn:E; [apply is_r_eq in E; subst|]; reflexivity.
  + reflexivity.
  + intros r Hr1 Hr2 Hr3 Hr4. autorewrite with state moves. now rewrite Hr1, Hr3, Hr4.
  + intros d _ _ _ _. autorewrite with state moves. reflexivity.
  + intros x _ _. autorewrite with state moves. reflexivity.
Qed.

Lemma swap_rs (src : Register) (j : Z) (s : Machine) :
  swappable GetFrameOffset s (Operand (RegisterOperand src)) (Operand (StackSlotOperand j)) ->
  exchanged GetFrameOffset (Operand (RegisterOperand src)) (Operand (StackSlotOperand j)) s.
Proof.
  intro Hsw. unfold exchanged.
  cbn [swappable] in Hsw.
  apply allocatable_spec in Hsw as (Ha1 & Ha2 & Ha3 & Ha4 & Ha5 & Ha6 & Ha7 & Ha8).
  exists [LoadRR kScratchReg src; LoadP src (slot_operand GetFrameOffset j);
          StoreP kScratchReg (slot_operand GetFrameOffset j)].
  eexists. split; [destruct arch; reflexivity|].
  split; [exec_compute; reflexivity|].
  cbn [content names_register names_double covers load_sem store_width].
  slot_addresses GetFrameOffset.
  autorewrite with state moves. rewrite ?Ha1, ?Ha5. autorewrite with state moves.
  rewrite ?Ha1, ?Ha5, ?reg_wrapP. autorewrite with state moves.
  split; [reflexivity|]. split; [reflexivity|].
  split; [intros r Hr1 Hr2 Hr3 _; autorewrite with state moves; now rewrite Hr1, Hr3|].
  split; [intros d _ _ _ _; autorewrite with state moves; reflexivity|].
  intros x _ Hx. apply store_bytes_other. rewrite pointer_bytes_size. lia.
Qed.

Lemma swap_dd (dsrc ddst : DoubleRegister) (s : Machine) :
  swappable GetFrameOffset s (Operand (DoubleRegisterOperand dsrc)) (Operand (DoubleRegisterOperand ddst)) ->
  exchanged GetFrameOffset (Operand (DoubleRegisterOperand dsrc)) (Operand (DoubleRegisterOperand ddst)) s.
Proof.
  intro Hsw. unfold exchanged.
  destruct Hsw as [Ha Hb].
  apply allocatable_double_spec in Ha as (Ha1 & Ha2 & Ha3 & Ha4).
  apply allocatable_double_spec in Hb as (Hb1 & Hb2 & Hb3 & Hb4).
  exists [ldr kScratchDoubleReg dsrc; ldr dsrc ddst; ldr ddst kScratchDoubleReg].
  eexists. split; [destruct arch; reflexivity|].
  split; [exec_compute; reflexivity|].
  cbn [content names_register names_double covers].
  state_facts.
  split; [destruct (is_d ddst dsrc) eqn:E; [apply is_d_eq in E; subst|]; reflexivity|].
  split; [reflexivity|].
  split; [intros r _ _ _ _; autorewrite with state moves; reflexivity|].
  split; [intros d Hd1 _ Hd3 Hd4; state_facts; reflexivity|].
  intros x _ _. autorewrite with state moves. reflexivity.
Qed.

Lemma swap_ds (dsrc : DoubleRegister) (j : Z) (s : Machine) :
  swappable GetFrameOffset s (Operand (DoubleRegisterOperand dsrc)) (Operand (DoubleStackSlotOperand j)) ->
  exchanged GetFrameOffset (Operand (DoubleRegisterOperand dsrc)) (Operand (DoubleStackSlotOperand j)) s.
Proof.
  intro Hsw. unfold exchanged.
  destruct Hsw as [Ha Hrange].
  apply allocatable_double_spec in Ha as (Ha1 & Ha2 & Ha3 & Ha4).
  exists [ldr kScratchDoubleReg dsrc; LoadF dsrc (slot_operand GetFrameOffset j);
          StoreF kScratchDoubleReg (slot_operand GetFrameOffset j)].
  eexists. split; [destruct arch; reflexivity|].
  split; [exec_compute; reflexivity|].
  cbn [content names_register names_double covers fload_sem].
  slot_addresses GetFrameOffset.
  state_facts.
  split; [reflexivity|].
  split; [rewrite load_store_bytes by (rewrite double_word; exact Hrange); reflexivity|].
  split; [intros r _ _ _ _; autorewrite with state moves; reflexivity|].
  split; [intros d Hd1 _ Hd3 _; state_facts; reflexivity|].
  intros x _ Hx. apply store_bytes_other. unfold kDoubleSize in Hx. lia.
Qed.

(** One call at a time, with the state normalized after each. *)
Ltac exec_step G :=
  erewrite exec_cons
    by (cbn [step LoadP StoreP LoadF load_sem store_width fload_sem]; reflexivity);
  slot_addresses G; state_facts.

Lemma swap_ss (i j : Z) (s : Machine) :
  swappable GetFrameOffset s (Operand (StackSlotOperand i)) (Operand (StackSlotOperand j)) ->
  exchanged GetFrameOffset (Operand (StackSlotOperand i)) (Operand (StackSlotOperand j)) s.
Proof.
  intro Hsw. unfold exchanged.
  cbn [swappable] in Hsw.
  assert (K1 : is_r kScratchReg r0 = false) by reflexivity.
  assert (K2 : is_r r0 kScratchReg = false) by reflexivity.
  exists [LoadP kScratchReg (slot_operand GetFrameOffset i);
          LoadP r0 (slot_operand GetFrameOffset j);
          StoreP kScratchReg (slot_operand GetFrameOffset j);
          StoreP r0 (slot_operand GetFrameOffset i)].
  eexists. split; [destruct arch; reflexivity|].
  cbn [content names_register names_double covers].
  split.
  { do 4 exec_step GetFrameOffset. reflexivity. }
  slot_addresses GetFrameOffset. state_facts.
  split; [reflexivity|].
  split.
  { destruct Hsw as [E | Hd].
    - rewrite E. autorewrite with state moves. reflexivity.
    - rewrite load_store_bytes_other by (rewrite pointer_bytes_size; lia).
      autorewrite with state moves. reflexivity. }
  split; [intros r Hr1 Hr2 _ _; state_facts; reflexivity|].
  split; [intros d _ _ _ _; autorewrite with state moves; reflexivity|].
  intros x Hx1 Hx2.
  rewrite !store_bytes_other by (rewrite pointer_bytes_size; lia). reflexivity.
Qed.

Lemma swap_tt (i j : Z) (s : Machine) :
  swappable GetFrameOffset s (Operand (DoubleStackSlotOperand i))
            (Operand (DoubleStackSlotOperand j)) ->
  exchanged GetFrameOffset (Operand (DoubleStackSlotOperand i))
            (Operand (DoubleStackSlotOperand j)) s.
Proof.
  intro Hsw. unfold exchanged.
  cbn [swappable] in Hsw. unfold kDoubleSize in Hsw.
  assert (K1 : is_r kScratchReg r0 = false) by reflexivity.
  assert (K2 : is_r r0 kScratchReg = false) by reflexivity.
  assert (K3 : is_d kScratchDoubleReg d0 = false) by reflexivity.
  assert (K4 : is_d d0 kScratchDoubleReg = false) by reflexivity.
  destruct arch.
  - exists [LoadP kScratchReg (slot_operand GetFrameOffset i);
            LoadP r0 (slot_operand GetFrameOffset j);
            StoreP kScratchReg (slot_operand GetFrameOffset j);
            StoreP r0 (slot_operand GetFrameOffset i)].
    eexists. split; [reflexivity|].
    cbn [content names_register names_double covers].
    split.
    { do 4 exec_step GetFrameOffset. reflexivity. }
    slot_addresses GetFrameOffset. state_facts.
    change (@pointer_bytes true) with 8%nat.
    state_facts.
    split; [reflexivity|].
    split.
    { destruct Hsw as [E | Hd].
      - rewrite E. autorewrite with state moves. reflexivity.
      - rewrite load_store_bytes_other by (cbn [Z.of_nat]; lia).
        autorewrite with state moves. reflexivity. }
    split; [intros r Hr1 Hr2 _ _; state_facts; reflexivity|].
    split; [intros d _ _ _ _; autorewrite with state moves; reflexivity|].
    intros x Hx1 Hx2. unfold kDoubleSize in *.
    rewrite !store_bytes_other by (cbn [Z.of_nat]; lia). reflexivity.
  - exists [LoadF kScratchDoubleReg (slot_operand GetFrameOffset i);
            LoadF d0 (slot_operand GetFrameOffset j);
            StoreF kScratchDoubleReg (slot_operand GetFrameOffset j);
            StoreF d0 (slot_operand GetFrameOffset i)].
    eexists. split; [reflexivity|].
    cbn [content names_register names_double covers].
    split.
    { do 4 exec_step GetFrameOffset. reflexivity. }
    slot_addresses GetFrameOffset. state_facts.
    split; [reflexivity|].
    split.
    { destruct Hsw as [E | Hd].
      - rewrite E. autorewrite with state moves. reflexivity.
      - rewrite load_store_bytes_other by (cbn [Z.of_nat]; lia).
        autorewrite with state moves. reflexivity. }
    split; [intros r _ _ _ _; state_facts; reflexivity|].
    split; [intros d Hd1 Hd2 _ _; state_facts; reflexivity|].
    intros x Hx1 Hx2. unfold kDoubleSize in *.
    rewrite !store_bytes_other by (cbn [Z.of_nat]; lia). reflexivity.
Qed.

End SwapCases.

Section MoveLemmas.
Context {arch : TargetArch}.

Lemma load_store_wrapP (m : Z -> Z) (a v : Z) :
  load_bytes pointer_bytes (store_bytes pointer_bytes m a (wrapP v)) a = wrapP v.
Proof. apply load_store_bytes. rewrite pointer_word. apply wrapP_range. Qed.

Lemma slot_address_set_cc (G : Z -> Gap.FrameOffset) (s : Machine) (c : option CC)
    (index : Z) :
  slot_address G (set_cc s c) index = slot_address G s index.
Proof. reflexivity. Qed.

End MoveLemmas.
#[global] Hint Rewrite @load_store_wrapP @slot_address_set_cc : moves.

Ltac move_compute :=
  cbv - [r0 sp fp kScratchReg kScratchDoubleReg Gap.from_stack_pointer Gap.offset
         MemOperand_ri f32_to_f64 Gap.float_to_double LoadP StoreP LoadF Gap.Move
         Gap.MoveDouble Gap.mov].

Ltac fold_slot_operands G :=
  repeat match goal with
         | |- context [MemOperand_ri (if Gap.from_stack_pointer (G ?j) then sp else fp)
                                     (Gap.offset (G ?j))] =>
             change (MemOperand_ri (if Gap.from_stack_pointer (G j) then sp else fp)
                                   (Gap.offset (G j)))
               with (slot_operand G j)
         end.

Ltac move_step G :=
  erewrite exec_cons
    by (cbn [step LoadP StoreP LoadF Gap.Move Gap.MoveDouble Gap.mov load_sem store_width
             fload_sem];
        reflexivity);
  slot_addresses G; state_facts.

(** ** Tail calls *)

Section TailCallLemmas.
Context {arch : TargetArch}.

Lemma ea_ri (s : Machine) (base : Register) (off : Z) :
  is_r base r0 = false -> ea s (MemOperand_ri base off) = wrapA (reg s base + off).
Proof.
  intro H. unfold ea, MemOperand_ri. cbn [mo_rx mo_rb mo_offset].
  now rewrite is_r_refl, H.
Qed.

Lemma wrapP_add_wrapP_r (x y : Z) : wrapP (x + wrapP y) = wrapP (x + y).
Proof. unfold wrapP, wrap. now rewrite Zplus_mod_idemp_r. Qed.

End TailCallLemmas.

(** ** Load elimination *)

Section LoadEliminationLemmas.
Import LoadElimination.
Context {FieldAccess V : Type}.
Variable access_eqb : FieldAccess -> FieldAccess -> bool.
Variable graph : Graph FieldAccess.

Lemma walk_more (access : FieldAccess) (steps : nat) :
  forall object effect,
    walk access_eqb graph steps access object effect <> Unfinished ->
    forall steps', (steps <= steps')%nat ->
      walk access_eqb graph steps' access object effect =
      walk access_eqb graph steps access object effect.
Proof.
  induction steps as [|steps IH]; intros object effect H steps' Hle.
  - exfalso. apply H. reflexivity.
  - destruct steps' as [|steps']; [lia|].
    assert (Hle' : (steps <= steps')%nat) by lia.
    cbn [walk] in *.
    assert (N : forall obj,
      match GetEffectInput graph effect with
      | Some effect' => walk access_eqb graph steps access obj effect'
      | None => Fails
      end <> Unfinished ->
      match GetEffectInput graph effect with
      | Some effect' => walk access_eqb graph steps' access obj effect'
      | None => Fails
      end =
      match GetEffectInput graph effect with
      | Some effect' => walk access_eqb graph steps access obj effect'
      | None => Fails
      end).
    { intros obj Hn. destruct (GetEffectInput graph effect); [|reflexivity].
      apply IH; assumption. }
    destruct (opcode (graph effect));
      repeat match goal with
      | |- context [match ?x with _ => _ end] =>
          match x with
          | GetEffectInput _ _ => fail 1
          | _ => destruct x eqn:?
          end
      | H : context [match ?x with _ => _ end] |- _ =>
          match x with
          | GetEffectInput _ _ => fail 1
          | _ => destruct x eqn:?
          end
      end; try reflexivity; try (apply N; assumption).
Qed.

Lemma walk_returns (rank : nat -> nat) (access : FieldAccess) :
  (forall n, arity_ok graph n = true) ->
  descends graph rank ->
  forall steps object effect,
    (rank effect < steps)%nat ->
    exists r, walk access_eqb graph steps access object effect = Returns r.
Proof.
  intros Hok Hd.
  induction steps as [|steps IH]; intros object effect Hr; [lia|].
  cbn [walk].
  specialize (Hok effect). unfold arity_ok in Hok.
  assert (N : forall obj,
    (opcode (graph effect) = kOther -> EffectInputCount graph effect = 1%nat) ->
    (1 <= length (effect_inputs (graph effect)))%nat ->
    exists r,
      match GetEffectInput graph effect with
      | Some effect' => walk access_eqb graph steps access obj effect'
      | None => Fails
      end = Returns r).
  { intros obj Hk Hl.
    destruct (GetEffectInput graph effect) as [e|] eqn:E.
    - apply IH. specialize (Hd effect e Hk E). lia.
    - unfold GetEffectInput in E. destruct (effect_inputs (graph effect));
        [cbn in Hl; lia | discriminate]. }
  assert (V0 : forall k, (S k <= length (value_inputs (graph effect)))%nat ->
    exists i, GetValueInput graph effect k = Some i).
  { intros k Hk. unfold GetValueInput.
    destruct (nth_error (value_inputs (graph effect)) k) eqn:E; [eauto|].
    apply nth_error_None in E. lia. }
  destruct (opcode (graph effect)) eqn:Eop.
  - apply andb_prop in Hok as [H1 H2].
    apply Nat.leb_le in H1, H2.
    destruct (V0 0%nat H1) as [i ->].
    destruct (_ && _); [eauto|]. apply N; [discriminate | assumption].
  - apply andb_prop in Hok as [H1 H2].
    apply Nat.leb_le in H1, H2.
    destruct (access_eqb _ _).
    + destruct (V0 0%nat) as [i ->]; [lia|].
      destruct (Nat.eqb _ _); [|eauto].
      destruct (V0 1%nat) as [j ->]; [lia|]. eauto.
    + apply N; [discriminate | assumption].
  - apply Nat.leb_le in Hok. apply N; [discriminate | assumption].
  - apply Nat.leb_le in Hok. apply N; [discriminate | assumption].
  - apply Nat.leb_le in Hok. apply N; [discriminate | assumption].
  - apply andb_prop in Hok as [H1 H2].
    apply Nat.leb_le in H1, H2.
    destruct (Nat.eqb _ _).
    + destruct (V0 0%nat H1) as [i ->]. apply N; [discriminate | assumption].
    + apply N; [discriminate | assumption].
  - apply Nat.leb_le in Hok.
    destruct (Nat.eqb _ _); [eauto|]. apply N; [discriminate | assumption].
  - destruct (kNoWrite (graph effect)); cbn [negb orb]; [|eauto].
    destruct (Nat.eqb (EffectInputCount graph effect) 1) eqn:E1; cbn [negb]; [|eauto].
    apply Nat.eqb_eq in E1.
    apply N; [intros _; exact E1 | unfold EffectInputCount in E1; lia].
Qed.

Variable value : nat -> V.
Variable heap : nat -> V -> FieldAccess -> V.
Hypothesis access_eqb_eq : forall a c, access_eqb a c = true <-> a = c.
Hypothesis run : follows graph value heap.

Lemma walk_sound (access : FieldAccess) :
  forall steps object effect v,
    walk access_eqb graph steps access object effect = Returns (Replace v) ->
    value v = heap effect (value object) access.
Proof.
  induction steps as [|steps IH]; intros object effect v H; [discriminate|].
  cbn [walk] in H.
  assert (N : forall obj,
    (forall e, GetEffectInput graph effect = Some e ->
       heap effect (value object) access = heap e (value obj) access) ->
    match GetEffectInput graph effect with
    | Some effect' => walk access_eqb graph steps access obj effect'
    | None => Fails
    end = Returns (Replace v) ->
    value v = heap effect (value object) access).
  { intros obj Hh Hw. destruct (GetEffectInput graph effect) as [e|]; [|discriminate].
    rewrite (Hh e eq_refl). apply IH. exact Hw. }
  assert (K : forall e x a,
    opcode (graph effect) = kBeginRegion \/ opcode (graph effect) = kStoreBuffer \/
    opcode (graph effect) = kStoreElement \/ opcode (graph effect) = kFinishRegion \/
    (opcode (graph effect) = kOther /\ kNoWrite (graph effect) = true /\
     EffectInputCount graph effect = 1%nat) ->
    GetEffectInput graph effect = Some e -> heap effect x a = heap e x a).
  { intros e x a Ho Ee. apply (others_keep _ _ _ run); assumption. }
  destruct (opcode (graph effect)) eqn:Eop.
  - destruct (GetValueInput graph effect 0) as [input|] eqn:E0; [|discriminate].
    destruct (Nat.eqb object input && access_eqb access (FieldAccessOf (graph effect))) eqn:Em.
    + injection H as <-.
      apply andb_prop in Em as [Eo Ea].
      apply Nat.eqb_eq in Eo. apply access_eqb_eq in Ea. subst input.
      rewrite (load_reads _ _ _ run effect object Eop E0), Ea. reflexivity.
    + apply (N object); [|exact H].
      intros e Ee. apply (load_keeps _ _ _ run); assumption.
  - destruct (access_eqb access (FieldAccessOf (graph effect))) eqn:Ea.
    + destruct (GetValueInput graph effect 0) as [input|] eqn:E0; [|discriminate].
      destruct (Nat.eqb object input) eqn:Eo; [|discriminate].
      destruct (GetValueInput graph effect 1) as [w|] eqn:E1; [|discriminate].
      injection H as <-.
      apply Nat.eqb_eq in Eo. apply access_eqb_eq in Ea. subst input.
      rewrite Ea. symmetry. apply (store_writes _ _ _ run); assumption.
    + apply (N object); [|exact H].
      intros e Ee. apply (store_keeps _ _ _ run); try assumption.
      intros Hc. apply access_eqb_eq in Hc. congruence.
  - apply (N object); [|exact H]. intros e Ee. apply K; auto.
  - apply (N object); [|exact H]. intros e Ee. apply K; auto.
  - apply (N object); [|exact H]. intros e Ee. apply K; auto.
  - destruct (Nat.eqb object effect) eqn:Eo.
    + destruct (GetValueInput graph effect 0) as [input|] eqn:E0; [|discriminate].
      apply Nat.eqb_eq in Eo. subst object.
      apply (N input); [|exact H]. intros e Ee.
      rewrite (finish_region_value _ _ _ run effect input Eop E0).
      apply K; auto.
    + apply (N object); [|exact H]. intros e Ee. apply K; auto.
  - destruct (Nat.eqb object effect) eqn:Eo; [discriminate|].
    apply Nat.eqb_neq in Eo.
    apply (N object); [|exact H]. intros e Ee.
    apply (allocate_keeps _ _ _ run); assumption.
  - destruct (kNoWrite (graph effect)) eqn:Ew; cbn [negb orb] in H; [|discriminate].
    destruct (Nat.eqb (EffectInputCount graph effect) 1) eqn:E1; cbn [negb] in H;
      [|discriminate].
    apply Nat.eqb_eq in E1.
    apply (N object); [|exact H]. intros e Ee. apply K; [tauto | exact Ee].
Qed.

End LoadEliminationLemmas.

Section LoadEliminationExampleLemmas.
Import LoadElimination.

Ltac inputs :=
  repeat match goal with
  | H : GetValueInput _ _ _ = Some _ |- _ => injection H as <-
  | H : GetEffectInput _ _ = Some _ |- _ => injection H as <-
  end.

Ltac each_node n :=
  do 8 (try (destruct n as [|n])); try discriminate; inputs.

Lemma example_follows : follows example_graph example_value example_heap.
Proof.
  split.
  - intros n o Hop Hin. each_node n. reflexivity.
  - intros n e x a Hop He. each_node n. reflexivity.
  - intros n o v Hop H0 H1. each_node n; reflexivity.
  - intros n e x a Hop He Ha. each_node n.
    + cbn in Ha |- *. unfold write_field.
      destruct (Z.eqb_spec a 8); [contradiction|].
      rewrite andb_false_r. reflexivity.
    + cbn in Ha |- *. unfold write_field at 1.
      destruct (Z.eqb_spec a 16); [contradiction|].
      rewrite andb_false_r. reflexivity.
  - intros n e x a Hop He.
    each_node n; try reflexivity;
      cbn in Hop; exfalso;
      repeat match goal with
      | H : _ \/ _ |- _ => destruct H
      | H : _ /\ _ |- _ => destruct H
      end; discriminate.
  - intros n o Hop Hin. each_node n. reflexivity.
  - intros n e o a Hop He Hne. each_node n. reflexivity.
Qed.

Lemma example_arity : forall n, arity_ok example_graph n = true.
Proof.
  intros n. do 8 (destruct n as [|n]; [reflexivity|]). reflexivity.
Qed.

Lemma example_descends : descends example_graph (fun n => n).
Proof.
  intros n e _ He.
  do 8 (destruct n as [|n]; [try discriminate; injection He as <-; lia|]).
  discriminate.
Qed.

End LoadEliminationExampleLemmas.
(* ===================================================================== *)
(** * Properties of the emitted code *)
(* ===================================================================== *)

(** ** C1: binary operations and register aliasing *)

(** X1.  The four double opcodes compute the operation on the values the input
    registers held before the code ran, for every aliasing of the output
    with the inputs; subtraction and division keep the operand order, and
    addition and multiplication swap the operands when the output is the
    second input. *)
Lemma double_binop_alias_safe
    {arch : TargetArch} {fops : FloatOps} {layout : Layout}
    (gen : CodeGenerator) (instr : Instruction) (fop : FpOp)
    (in0 in1 out : DoubleRegister) (s : Machine) :
  double_opcode (arch_opcode instr) = Some fop ->
  inputs instr = [DoubleRegisterOperand in0; DoubleRegisterOperand in1] ->
  outputs instr = [DoubleRegisterOperand out] ->
  is_d out kScratchDoubleReg = false ->
  is_d in0 kScratchDoubleReg = false ->
  exists code s',
    emitted (AssembleArchInstruction gen instr) = Some code /\
    exec [] code s = Next s' /\
    dreg s' out =
      if is_commutative_double fop && is_d out in1
      then fp_sem fop (dreg s in1) (dreg s in0)
      else fp_sem fop (dreg s in0) (dreg s in1).
Proof.
  intros Hop Hin Hout Hos His.
  destruct instr as [opc am fm fc ins outs]. simpl in *. subst ins outs.
  assert (Hso : is_d kScratchDoubleReg out = false) by (now rewrite is_d_sym).
  assert (Hsi : is_d kScratchDoubleReg in0 = false) by (now rewrite is_d_sym).
  destruct opc; try discriminate Hop; injection Hop as <-;
    destruct (is_d out in1) eqn:E1; destruct (is_d out in0) eqn:E0;
    (do 2 eexists; split; [emit_compute; rewrite ?E1, ?E0; reflexivity|]).
  all: try (apply is_d_eq in E1; subst in1).
  all: try (apply is_d_eq in E0; subst in0).
  all: split; [exec_compute; reflexivity|].
  all: cbn [is_commutative_double andb].
  all: autorewrite with state; rewrite ?Hso, ?Hsi, ?Hos, ?His, ?E0, ?E1.
  all: autorewrite with state; rewrite ?Hso, ?Hsi, ?Hos, ?His, ?E0, ?E1.
  all: try reflexivity.
  all: try (rewrite is_d_sym in E0; rewrite E0; reflexivity).
Qed.

(** A subtraction whose output register is its second input: 10 - 3. *)
Lemma double_binop_alias_safe_witness :
  let instr := mkInstruction kS390_SubDouble kMode_None kFlags_none kEqual
                 [DoubleRegisterOperand d1; DoubleRegisterOperand d2]
                 [DoubleRegisterOperand d2] in
  exists code s',
    emitted (AssembleArchInstruction (arch := true) example_generator instr)
      = Some code /\
    exec (arch := true) (fops := example_float_ops) (layout := example_layout)
         [] code doubles_machine = Next s' /\
    dreg s' d2 = 7.
Proof.
  intros instr.
  destruct (double_binop_alias_safe (arch := true) (fops := example_float_ops)
              (layout := example_layout) example_generator instr Op_sdbr d1 d2 d2
              doubles_machine eq_refl eq_refl eq_refl eq_refl eq_refl)
    as (code & s' & Hcode & Hexec & Hout).
  exists code, s'. split; [exact Hcode|]. split; [exact Hexec|].
  rewrite Hout. vm_compute. reflexivity.
Defined.

(** X2.  The complement opcodes compute the operation on the operand values
    when the two inputs are in different registers, whatever the output
    register is. *)
Lemma complement_distinct_inputs
    {arch : TargetArch} {fops : FloatOps} {layout : Layout}
    (gen : CodeGenerator) (instr : Instruction)
    (in0 in1 out : Register) (s : Machine) :
  arch_opcode instr = kS390_AndComplement \/ arch_opcode instr = kS390_OrComplement ->
  inputs instr = [RegisterOperand in0; RegisterOperand in1] ->
  outputs instr = [RegisterOperand out] ->
  is_r in0 in1 = false ->
  exists code s',
    emitted (AssembleArchInstruction gen instr) = Some code /\
    exec [] code s = Next s' /\
    reg s' out = wrapP (complement_value (arch_opcode instr) (reg s in0) (reg s in1)).
Proof.
  intros Hop Hin Hout Hne.
  destruct instr as [opc am fm fc ins outs]. simpl in *. subst ins outs.
  assert (Hne' : is_r in1 in0 = false) by (now rewrite is_r_sym).
  destruct Hop; subst opc;
    (do 2 eexists; split; [emit_compute; reflexivity|];
     split; [exec_compute; reflexivity|]).
  all: cbn [opnd2 alu_sem complement_value].
  all: autorewrite with state; rewrite ?Hne, ?Hne'.
  all: unfold wrapP.
  - apply land_wrap_r. destruct kBitsPerPointer_cases as [H|H]; rewrite H; lia.
  - apply lor_wrap_r. destruct kBitsPerPointer_cases as [H|H]; rewrite H; lia.
Qed.

(** An and-complement whose output register is its first input:
    12 & ~10 = 4. *)
Lemma complement_distinct_inputs_witness :
  let instr := mkInstruction kS390_AndComplement kMode_None kFlags_none kEqual
                 [RegisterOperand r2; RegisterOperand r3] [RegisterOperand r2] in
  exists code s',
    emitted (AssembleArchInstruction (arch := true) example_generator instr)
      = Some code /\
    exec (arch := true) (fops := example_float_ops) (layout := example_layout)
         [] code operands_machine = Next s' /\
    reg (arch := true) s' r2 = 4.
Proof.
  intros instr.
  destruct (complement_distinct_inputs (arch := true) (fops := example_float_ops)
              (layout := example_layout) example_generator instr r2 r3 r2
              operands_machine (or_introl eq_refl) eq_refl eq_refl eq_refl)
    as (code & s' & Hcode & Hexec & Hout).
  exists code, s'. split; [exact Hcode|]. split; [exact Hexec|].
  rewrite Hout. vm_compute. reflexivity.
Defined.

(** With both inputs in one register the complement opcodes leave the
    complement of the operand: the first operand is read after [NotP]
    overwrote it. *)
Lemma complement_same_inputs
    {arch : TargetArch} {fops : FloatOps} {layout : Layout}
    (gen : CodeGenerator) (instr : Instruction)
    (in0 out : Register) (s : Machine) :
  arch_opcode instr = kS390_AndComplement \/ arch_opcode instr = kS390_OrComplement ->
  inputs instr = [RegisterOperand in0; RegisterOperand in0] ->
  outputs instr = [RegisterOperand out] ->
  exists code s',
    emitted (AssembleArchInstruction gen instr) = Some code /\
    exec [] code s = Next s' /\
    reg s' out = wrapP (Z.lnot (reg s in0)).
Proof.
  intros Hop Hin Hout.
  destruct instr as [opc am fm fc ins outs]. simpl in *. subst ins outs.
  destruct Hop; subst opc;
    (do 2 eexists; split; [emit_compute; reflexivity|];
     split; [exec_compute; reflexivity|]).
  all: cbn [opnd2 alu_sem].
  all: autorewrite with state.
  - now rewrite Z.land_diag, wrapP_wrapP.
  - now rewrite Z.lor_diag, wrapP_wrapP.
Qed.

(** C1, at the failing input: [kS390_AndComplement] with the output and
    both inputs in [r3], which holds 5.  The value of the operation on the
    operands is [5 & ~5 = 0]; the emitted code complements [r3] in place
    before the and reads it as first operand, and leaves [~5]. *)
Theorem and_complement_same_register_result :
  let instr := mkInstruction kS390_AndComplement kMode_None kFlags_none kEqual
                 [RegisterOperand r3; RegisterOperand r3] [RegisterOperand r3] in
  let s := machine_with r3 5 in
  emitted (AssembleArchInstruction (arch := true) example_generator instr)
    = Some [NotP r3; AndP r3 r3 (R r3)] /\
  exists s',
    exec (arch := true) (fops := example_float_ops) (layout := example_layout)
         [] [NotP r3; AndP r3 r3 (R r3)] s = Next s' /\
    reg (arch := true) s' r3 = 2 ^ 64 - 6 /\
    wrapP (arch := true)
      (complement_value kS390_AndComplement (reg (arch := true) s r3)
                                            (reg (arch := true) s r3)) = 0.
Proof.
  split; [reflexivity|]. eexists. split; [reflexivity|].
  split; vm_compute; reflexivity.
Qed.

(** ** C2: bounds-checked loads and stores *)

(** C2, amended.  A checked access in register-register
    mode first sign-extends the low word of the offset register in place
    and compares that low word, unsigned, with the low word of the length.
    When the offset is at or beyond the length the code runs to its end
    with memory unchanged, an integer load leaves zero in its output and a
    float load leaves the quiet NaN.  When the offset is below the length
    the code ends with the memory and the registers the unchecked access
    of the same type and width produces from the state in which the offset
    register holds the sign extension of its low word. *)
Theorem checked_access_behaviour
    {arch : TargetArch} {fops : FloatOps} {layout : Layout}
    (gen : CodeGenerator) (instr : Instruction)
    (base offset : Register) (len_op : InstructionOperand)
    (value_ops : list InstructionOperand) (len : Z) (s : Machine) (a : Assembler) :
  is_checked (arch_opcode instr) = true ->
  addressing_mode instr = kMode_MRR ->
  inputs instr = RegisterOperand base :: RegisterOperand offset :: len_op :: value_ops ->
  AssembleArchInstruction gen instr empty_assembler = Some (tt, a) ->
  operand_value s len_op = Some len ->
  let op := arch_opcode instr in
  (lo32 len <= lo32 (reg s offset) ->
     exists s',
       exec (ools a) (buffer a) s = Next s' /\
       mem s' = mem s /\
       (is_checked_load_integer op = true ->
          exists result,
            OutputAt instr 0 = Some (RegisterOperand result) /\
            reg s' result = 0) /\
       (is_checked_load_float op = true ->
          exists result,
            OutputAt instr 0 = Some (DoubleRegisterOperand result) /\
            dreg s' result = double_quiet_NaN /\
            is_quiet_nan (dreg s' result) = true)) /\
  (lo32 (reg s offset) < lo32 len ->
     exists ucode s' s'',
       emitted (AssembleArchInstruction gen (unchecked instr)) = Some ucode /\
       exec (ools a) (buffer a) s = Next s' /\
       exec [] ucode (offset_sign_extended s offset) = Next s'' /\
       mem s' = mem s'' /\
       (forall r, reg s' r = reg s'' r) /\
       (forall d, dreg s' d = dreg s'' d)).
Proof.
  intros Hchecked Hmode Hin Hgen Hlen op. subst op.
  destruct instr as [opc am fm fc ins outs]. simpl in *. subst am ins.
  destruct arch;
    destruct len_op as [lr| | | |[lv|lv| | | | |]]; simpl in Hlen;
    try discriminate Hlen; injection Hlen as <-.
  all: checked_access_cases Hchecked Hgen.
Qed.

(** A checked 32-bit store whose offset equals the length, 16, leaves
    the memory as it was. *)
Lemma checked_access_behaviour_witness :
  let instr := mkInstruction kCheckedStoreWord32 kMode_MRR kFlags_none kEqual
                 [RegisterOperand r2; RegisterOperand r3;
                  ImmediateOperand (kInt32 16); RegisterOperand r4] [] in
  let s := machine_with r3 16 in
  exists a s',
    AssembleArchInstruction (arch := true) example_generator instr empty_assembler
      = Some (tt, a) /\
    exec (arch := true) (fops := example_float_ops) (layout := example_layout)
         (ools a) (buffer a) s = Next s' /\
    mem s' = mem s.
Proof.
  intros instr s.
  assert (Hgen : exists a,
             AssembleArchInstruction (arch := true) example_generator instr
               empty_assembler = Some (tt, a))
    by (eexists; vm_compute; reflexivity).
  destruct Hgen as [a Hgen].
  destruct (checked_access_behaviour (arch := true) (fops := example_float_ops)
              (layout := example_layout) example_generator instr r2 r3
              (ImmediateOperand (kInt32 16)) [RegisterOperand r4] 16 s a
              eq_refl eq_refl eq_refl Hgen eq_refl) as [Hout _].
  destruct Hout as (s' & Hexec & Hmem & _); [vm_compute; discriminate|].
  exists a, s'. split; [exact Hgen|]. split; [exact Hexec|exact Hmem].
Defined.

(** C2, the claim as stated fails on the 64-bit build.  The offset register
    holds 4 in its low word and a one above it; the offset, 4, is below the
    length, 16.  The checked byte load reads the byte at base + 4, which is
    7; the unchecked load of the same operands adds the whole register to
    the base and reads a byte that is zero. *)
Lemma checked_load_differs_from_unchecked :
  let instr := mkInstruction kCheckedLoadUint8 kMode_MRR kFlags_none kEqual
                 [RegisterOperand r2; RegisterOperand r3; RegisterOperand r4]
                 [RegisterOperand r5] in
  let s := garbled_offset_machine in
  lo32 (reg (arch := true) s r3) < lo32 (reg (arch := true) s r4) /\
  exists a ucode s' s'',
    AssembleArchInstruction (arch := true) example_generator instr empty_assembler
      = Some (tt, a) /\
    emitted (AssembleArchInstruction (arch := true) example_generator (unchecked instr))
      = Some ucode /\
    exec (arch := true) (fops := example_float_ops) (layout := example_layout)
         (ools a) (buffer a) s = Next s' /\
    exec (arch := true) (fops := example_float_ops) (layout := example_layout)
         [] ucode s = Next s'' /\
    reg (arch := true) s' r5 = 7 /\
    reg (arch := true) s'' r5 = 0.
Proof.
  intros instr s. subst instr s. split; [vm_compute; reflexivity|].
  do 4 eexists.
  split; [emit_compute; reflexivity|].
  split; [emit_compute; reflexivity|].
  split; [exec_compute; reflexivity|].
  split; [exec_compute; reflexivity|].
  split; vm_compute; reflexivity.
Qed.

(** ** C3: table switches *)

(** C3.  The table switch emits a logical compare of the index register
    with the number of cases, a branch on greater-or-equal to the default
    block, and an indexed jump through the jump table it records.  With the
    table's data in memory, for an index [k] below the number of cases the
    code jumps to the address of the label recorded at entry [k]; for an
    index that is at least the number of cases, and so for every index
    that is negative as a signed number, it leaves by the taken branch to
    the default block, before the table is read. *)
Theorem table_switch_dispatch
    {arch : TargetArch} {fops : FloatOps} {layout : Layout}
    (gen : CodeGenerator) (instr : Instruction)
    (input : Register) (default : nat) (cases : list nat) (s : Machine) :
  arch_opcode instr = kArchTableSwitch ->
  inputs instr = table_switch_inputs input default cases ->
  is_r input kScratchReg = false ->
  Z.of_nat (length cases) < 2 ^ 31 ->
  let table := TableLabel 0 in
  let code := table_switch_code input default (length cases) table in
  0 <= label_address table ->
  label_address table + Z.of_nat (length cases) * kPointerSize <= 2 ^ kAddressBits ->
  jump_table_in_memory s table (map GetLabel cases) ->
  AssembleArchInstruction gen instr empty_assembler
    = Some (tt, mkAssembler code 0 [] [(table, map GetLabel cases)] false 0) /\
  (forall k rpo,
     nth_error cases k = Some rpo -> reg s input = Z.of_nat k ->
     exists s', exec [] code s = Indirect (label_address (GetLabel rpo)) s') /\
  (Z.of_nat (length cases) <= reg s input ->
     exists s', exec [] code s = Taken (GetLabel default) s') /\
  (signedP (reg s input) < 0 ->
     exists s', exec [] code s = Taken (GetLabel default) s').
Proof.
  intros Hop Hin Hscratch Hcount table code Hlo Hhi Hmem.
  assert (Hscratch' : is_r kScratchReg input = false) by (now rewrite is_r_sym).
  pose proof address_bits_le as HAW.
  pose proof kPointerSize_pos as HP.
  assert (HW : 2 ^ 32 <= 2 ^ kBitsPerPointer)
    by (destruct kBitsPerPointer_cases as [H|H]; rewrite H; lia).
  assert (HN : wrapP (Z.of_nat (length cases)) = Z.of_nat (length cases)).
  { apply wrap_small. lia. }
  assert (Hcmp : forall s0,
      step (CmpLogicalP input (I (Z.of_nat (length cases)))) s0
      = Next (set_cc s0 (Some (cc_compare (reg s0 input) (Z.of_nat (length cases)))))).
  { intro s0. cbn [step CmpLogicalP opnd2 cmp_sem].
    now rewrite reg_wrapP, wrapP_wrapP, HN. }
  assert (Hdefault : Z.of_nat (length cases) <= reg s input ->
            exists s', exec [] code s = Taken (GetLabel default) s').
  { intro Hge. eexists. subst code. unfold table_switch_code, exec.
    cbn [exec_from]. rewrite Hcmp.
    unfold bge. rewrite (step_b Cond.ge _ _ _ eq_refl (cc_set_cc _ _)), holds_ge.
    destruct (Z.leb_spec (Z.of_nat (length cases)) (reg s input)); [|lia].
    reflexivity. }
  split; [now apply table_switch_emission|].
  split; [|split; [exact Hdefault|]].
  - intros k rpo Hk Hidx.
    assert (Hlt : (k < length cases)%nat) by (apply nth_error_Some; congruence).
    eexists. subst code. unfold table_switch_code, exec.
    cbn [exec_from]. rewrite Hcmp.
    unfold bge. rewrite (step_b Cond.ge _ _ _ eq_refl (cc_set_cc _ _)), holds_ge, Hidx.
    destruct (Z.leb_spec (Z.of_nat (length cases)) (Z.of_nat k)); [lia|].
    exec_compute.
    apply (f_equal2 Indirect); [|reflexivity].
    unfold ea, MemOperand_rr. cbn [mo_rx mo_rb mo_offset load_sem].
    change (is_r kScratchReg r0) with false. change (is_r r1 r0) with false.
    cbv iota.
    autorewrite with state.
    change (is_r r1 kScratchReg) with false. cbv iota.
    rewrite Hscratch', Hidx, shiftl_pointer.
    assert (Hk' : 0 <= Z.of_nat k * kPointerSize
                  < Z.of_nat (length cases) * kPointerSize) by nia.
    assert (E1 : wrapP (label_address table) = label_address table)
      by (apply wrap_small; lia).
    assert (E2 : wrapP (Z.of_nat k * kPointerSize) = Z.of_nat k * kPointerSize)
      by (apply wrap_small; lia).
    rewrite E1, E2, Z.add_0_r.
    unfold wrapA. rewrite wrap_small by lia.
    rewrite (Hmem k (GetLabel rpo)).
    + rewrite <- (Hmem k (GetLabel rpo)).
      * apply wrap_small. rewrite <- pointer_word. apply load_bytes_range.
      * unfold AssembleJumpTable. rewrite !nth_error_map, Hk. reflexivity.
    + unfold AssembleJumpTable. rewrite !nth_error_map, Hk. reflexivity.
  - intro Hneg. apply Hdefault.
    assert (Hhalf : 2 ^ 31 <= 2 ^ (kBitsPerPointer - 1))
      by (destruct kBitsPerPointer_cases as [H|H]; rewrite H; simpl; lia).
    pose proof (reg_range s input) as Hr.
    unfold signedP, signed in Hneg.
    rewrite (wrap_small _ (reg s input)) in Hneg by exact Hr.
    destruct (Z.ltb_spec (reg s input) (2 ^ (kBitsPerPointer - 1))); lia.
Qed.

(** A switch over two cases on [table_machine]. *)
Lemma table_switch_dispatch_witness :
  let instr := mkInstruction kArchTableSwitch kMode_None kFlags_none kEqual
                 (table_switch_inputs r2 9 [5; 6]%nat) [] in
  let table := TableLabel 0 in
  let code := table_switch_code (arch := true) r2 9 2 table in
  AssembleArchInstruction (arch := true) example_generator instr empty_assembler
    = Some (tt, mkAssembler code 0 [] [(table, map GetLabel [5; 6]%nat)] false 0) /\
  (forall k rpo,
     nth_error [5; 6]%nat k = Some rpo ->
     reg (arch := true) table_machine r2 = Z.of_nat k ->
     exists s',
       exec (arch := true) (fops := example_float_ops) (layout := example_layout)
            [] code table_machine
         = Indirect (label_address (Layout := example_layout) (GetLabel rpo)) s') /\
  (Z.of_nat (length [5; 6]%nat) <= reg (arch := true) table_machine r2 ->
     exists s',
       exec (arch := true) (fops := example_float_ops) (layout := example_layout)
            [] code table_machine = Taken (GetLabel 9) s') /\
  (signedP (arch := true) (reg (arch := true) table_machine r2) < 0 ->
     exists s',
       exec (arch := true) (fops := example_float_ops) (layout := example_layout)
            [] code table_machine = Taken (GetLabel 9) s').
Proof.
  intros instr table code.
  apply (table_switch_dispatch (arch := true) (fops := example_float_ops)
           (layout := example_layout) example_generator instr r2 9 [5; 6]%nat
           table_machine);
    [reflexivity | reflexivity | reflexivity | simpl; lia | simpl; lia
    | vm_compute; discriminate | ].
  intros [|[|k]] l H; simpl in H;
    [injection H as <-; vm_compute; reflexivity
    |injection H as <-; vm_compute; reflexivity
    |destruct k; discriminate H].
Defined.

(** ** C4: branches after a double compare with a NaN operand *)

(** C4.  When an operand of a [kS390_CmpDouble] is a NaN, the compare
    followed by the branch [AssembleArchBranch] assembles for any ordering
    condition leaves by a taken branch (it never falls through): to the
    false label for equal, less-than and less-than-or-equal, to the true
    label for not-equal, greater-than and greater-than-or-equal. *)
Theorem double_compare_branch_unordered
    {arch : TargetArch} {fops : FloatOps} {layout : Layout}
    (gen : CodeGenerator) (instr : Instruction) (branch : BranchInfo)
    (in0 in1 : DoubleRegister) (s : Machine) :
  arch_opcode instr = kS390_CmpDouble ->
  inputs instr = [DoubleRegisterOperand in0; DoubleRegisterOperand in1] ->
  is_ordering (condition branch) = true ->
  is_nan (dreg s in0) || is_nan (dreg s in1) = true ->
  exists code,
    emitted (AssembleArchInstruction gen instr ;; AssembleArchBranch instr branch)
      = Some code /\
    exec [] code s
      = Taken (unordered_target (condition branch) branch) (set_cc s (Some CC3)).
Proof.
  intros Hop Hin Hord Hnan.
  destruct instr as [opc am fm fc ins outs]. simpl in *. subst opc ins.
  destruct branch as [c tl fl ft]. simpl in *.
  destruct c; try discriminate Hord; destruct ft;
    (eexists; split; [cbv; reflexivity|]);
    unfold exec; cbn [exec_from step];
    rewrite (f64_compare_nan _ _ Hnan); reflexivity.
Qed.

(** A less-than branch after a compare of two NaNs. *)
Lemma double_compare_branch_unordered_witness :
  let instr := mkInstruction kS390_CmpDouble kMode_None kFlags_branch kSignedLessThan
                 [DoubleRegisterOperand d1; DoubleRegisterOperand d2] [] in
  let branch := mkBranchInfo kSignedLessThan (BlockLabel 1) (BlockLabel 2) false in
  exists code,
    emitted (AssembleArchInstruction (arch := true) example_generator instr ;;
             AssembleArchBranch (arch := true) instr branch) = Some code /\
    exec (arch := true) (fops := example_float_ops) (layout := example_layout)
         [] code nan_machine
      = Taken (unordered_target (condition branch) branch)
              (set_cc nan_machine (Some CC3)).
Proof.
  intros instr branch.
  apply (double_compare_branch_unordered (arch := true) (fops := example_float_ops)
           (layout := example_layout) example_generator instr branch d1 d2 nan_machine);
    [reflexivity | reflexivity | reflexivity | vm_compute; reflexivity].
Defined.

(** ** C5: the prologue and the return *)

(** C5, the claim as stated fails for a function with stack parameters:
    the return drops them, so the stack pointer ends above its value on
    entry.  The frame of a JavaScript function with two stack parameters,
    entered with the stack pointer at 4096 and with an empty body, returns
    with the stack pointer at 4096 + 2 * 8. *)
Lemma return_drops_stack_parameters :
  exists pcode rcode s1 s3,
    emitted (AssemblePrologue (arch := true) (frame_constants := example_frame_constants)
               js_frame_generator) = Some pcode /\
    emitted (AssembleReturn (arch := true) js_frame_generator) = Some rcode /\
    exec (arch := true) (fops := example_float_ops) (layout := example_layout)
         [] pcode entry_machine = Next s1 /\
    exec (arch := true) (fops := example_float_ops) (layout := example_layout)
         [] rcode s1 = Returned (reg (arch := true) s3 r14) s3 /\
    reg (arch := true) entry_machine sp = 4096 /\
    reg (arch := true) s3 sp = 4096 + 2 * 8.
Proof.
  do 4 eexists.
  split; [emit_compute; reflexivity|].
  split; [emit_compute; reflexivity|].
  split; [exec_compute; reflexivity|].
  split; [exec_compute; reflexivity|].
  split; vm_compute; reflexivity.
Qed.

(** C5, amended.  For a supported frame (the C frame, the frame of a
    JavaScript function, the stub frame, or no frame), with room for the
    frame on the stack: the code of [AssemblePrologue] runs to its end, and
    after any body that leaves the stack pointer, the frame pointer, the
    callee-save area and the link to the caller's frame as the prologue
    left them, the code of [AssembleReturn] returns with the frame pointer
    and every callee-saved general and floating register at its value on
    entry, and with the stack pointer at its value on entry plus the size
    of the stack parameters, which the return drops.  The restores are the
    saves undone in reverse order: the prologue ends with the doubles saved
    before the general registers, the return starts with the general
    registers popped before the doubles. *)
Theorem prologue_return_round_trip
    {arch : TargetArch} {fops : FloatOps} {layout : Layout}
    {frame_constants : FrameConstants}
    (gen : CodeGenerator) (body : Machine -> Machine) (s0 : Machine)
    (pcode rcode : list MInstr) :
  supported_frame gen = true ->
  emitted (AssemblePrologue gen) = Some pcode ->
  emitted (AssembleReturn gen) = Some rcode ->
  frame_size gen <= reg s0 sp ->
  reg s0 sp + StackParameterCount (descriptor gen) * kPointerSize < 2 ^ kAddressBits ->
  (forall c, In c (saved_doubles gen) -> 0 <= dreg s0 (DReg c) < 2 ^ 64) ->
  (forall s1, exec [] pcode s0 = Next s1 -> preserves_frame gen s0 s1 (body s1)) ->
  (exists pre post,
     pcode = pre ++ save_sequence gen /\
     rcode = rev (map restoring_call (save_sequence gen)) ++ post) /\
  exists s1 s3,
    exec [] pcode s0 = Next s1 /\
    exec [] rcode (body s1) = Returned (reg s3 r14) s3 /\
    reg s3 sp = reg s0 sp + StackParameterCount (descriptor gen) * kPointerSize /\
    reg s3 fp = reg s0 fp /\
    (forall c, In c (saved_registers gen) -> reg s3 (Reg c) = reg s0 (Reg c)) /\
    (forall c, In c (saved_doubles gen) -> dreg s3 (DReg c) = dreg s0 (DReg c)).
Proof.
  intros Hsup Hp Hr Hroom Htop Hdoubles Hbody.
  destruct (supported_frame_spec gen Hsup) as (Hosr & Hframe & Hnospill & Hpop & Hsaves).
  rewrite (prologue_emission gen Hosr) in Hp. injection Hp as <-.
  rewrite return_emission in Hr. injection Hr as <-.
  split; [do 2 eexists; split; reflexivity|].
  pose proof kPointerSize_pos as Hps.
  pose proof (reg_range s0 sp) as Hsp0.
  pose proof address_bits_le as Hab.
  set (PS := kPointerSize) in *.
  set (nd := Z.of_nat (length (saved_doubles gen)) * kDoubleSize).
  set (ns := Z.of_nat (length (saved_registers gen)) * kPointerSize).
  assert (Hnd : 0 <= nd) by (unfold nd, kDoubleSize; lia).
  assert (Hns : 0 <= ns) by (unfold ns; nia).
  assert (Hspill : 0 <= spill_area_size gen).
  { unfold spill_area_size. destruct (Z.ltb_spec 0 (stack_shrink_slots gen)); nia. }
  assert (Hfixed : 0 <= fixed_frame_size gen /\
                   (builds_frame gen = true -> 2 * PS <= fixed_frame_size gen) /\
                   (builds_frame gen = false -> fixed_frame_size gen = 0)).
  { unfold fixed_frame_size, builds_frame.
    destruct (IsCFunctionCall (descriptor gen)); cbn [orb];
      [|destruct (IsJSFunctionCall (descriptor gen) || needs_frame gen)];
      repeat split; intros; try discriminate; lia. }
  destruct Hfixed as (Hfixed & Hfixed2 & Hfixed0).
  assert (Hsize : frame_size gen = fixed_frame_size gen + spill_area_size gen + (nd + ns))
    by reflexivity.
  assert (Hnsp : ~ In 15%nat (saved_registers gen))
    by (intro Hin; destruct (Hsaves _ Hin) as (_ & _ & _ & E); now apply E).
  assert (Edc : codes_of (CalleeSavedFPRegisters (descriptor gen)) = saved_doubles gen)
    by (unfold saved_doubles; reflexivity).
  assert (Ec : codes_of (CalleeSavedRegisters (descriptor gen)) = saved_registers gen)
    by (unfold saved_registers; reflexivity).
  (* the prologue *)
  destruct (exec_frame_sequence gen s0) as (sB & HexB & HspB & HfpB & HrB & HdB & HmB & HlB);
    [lia | lia |].
  destruct (multi_push_doubles_spec (CalleeSavedFPRegisters (descriptor gen)) sB)
    as (sC & HexC & HspC & HrC & HdC & HmC & HlC).
  { rewrite Edc. fold nd. lia. }
  { lia. }
  { rewrite Edc. intros c Hc. rewrite HdB. now apply Hdoubles. }
  rewrite Edc in HspC, HlC. fold nd in HspC.
  destruct (multi_push_spec (CalleeSavedRegisters (descriptor gen)) sC)
    as (s1 & Hex1 & Hsp1 & Hr1 & Hd1 & Hm1 & Hl1).
  { rewrite Ec. fold ns. lia. }
  { lia. }
  { rewrite Ec. exact Hnsp. }
  rewrite Ec in Hsp1, Hl1. fold ns in Hsp1.
  assert (Hexp : exec [] (frame_sequence gen ++ save_sequence gen) s0 = Next s1).
  { rewrite (exec_app _ _ _ _ HexB). unfold save_sequence.
    rewrite (exec_app _ _ _ _ HexC). exact Hex1. }
  (* the body *)
  destruct (Hbody s1 Hexp) as (Hsp2 & Hfp2 & Hm2 & Hlink2).
  set (s2 := body s1) in *.
  (* the return *)
  destruct (multi_pop_spec (CalleeSavedRegisters (descriptor gen)) s2)
    as (sD & HexD & HspD & HrD & HdD & HmD & HlD).
  { rewrite Ec. fold ns. lia. }
  { rewrite Ec. exact Hnsp. }
  rewrite Ec in HspD, HrD, HlD. fold ns in HspD.
  destruct (multi_pop_doubles_spec (CalleeSavedFPRegisters (descriptor gen)) sD)
    as (sE & HexE & HspE & HrE & HdE & HmE & HlE).
  { rewrite Edc. fold nd. lia. }
  rewrite Edc in HspE, HdE, HlE. fold nd in HspE.
  assert (Hexr : forall post,
             exec [] (rev (map restoring_call (save_sequence gen)) ++ post) s2
             = exec [] post sE).
  { intro post. rewrite restore_sequence, <- app_assoc.
    rewrite (exec_app _ _ _ _ HexD). now rewrite (exec_app _ _ _ _ HexE). }
  (* what the registers and the slots hold when the frame is left *)
  assert (Hregs : forall c, In c (saved_registers gen) -> reg sE (Reg c) = reg s0 (Reg c)).
  { intros c Hc. destruct (Hsaves c Hc) as (_ & H11 & _ & H15).
    destruct (In_nth_error _ _ Hc) as [j Hj].
    pose proof (nth_error_lt _ _ _ Hj) as Hlt.
    assert (Hnotsp : is_r sp (Reg c) = false)
      by (rewrite is_r_sp; cbn [reg_code]; apply Nat.eqb_neq; congruence).
    assert (Hnotfp : is_r fp (Reg c) = false)
      by (rewrite is_r_fp; cbn [reg_code]; apply Nat.eqb_neq; congruence).
    rewrite HrE by exact Hnotsp.
    rewrite (HlD j c Hj), Hsp2.
    rewrite (load_bytes_ext _ _ (mem s1)).
    - rewrite (Hl1 j c Hj), HrC, HrB by assumption. reflexivity.
    - intros x Hx. rewrite pointer_bytes_size in Hx. apply Hm2.
      unfold save_area_size. fold nd ns. unfold ns. fold PS in Hx |- *. nia. }
  assert (Hdregs : forall c, In c (saved_doubles gen) -> dreg sE (DReg c) = dreg s0 (DReg c)).
  { intros c Hc.
    destruct (In_nth_error _ _ Hc) as [j Hj].
    pose proof (nth_error_lt _ _ _ Hj) as Hlt.
    rewrite (HlE j c Hj), HmD, HspD, Hsp2.
    rewrite (load_bytes_ext _ _ (mem s1)).
    - rewrite (load_bytes_ext _ _ (mem sC)).
      + replace (reg s1 sp + ns) with (reg sC sp) by lia.
        rewrite (HlC j c Hj). apply HdB.
      + intros x Hx. apply Hm1. unfold nd, kDoubleSize in *. lia.
    - intros x Hx. apply Hm2.
      unfold save_area_size. fold nd ns. unfold nd, kDoubleSize in *. lia. }
  assert (HspE' : reg sE sp = reg sB sp) by lia.
  assert (HfpE : reg sE fp = reg sB fp).
  { assert (Hfpsp : is_r sp fp = false) by reflexivity.
    rewrite HrE by exact Hfpsp.
    rewrite HrD; [| exact Hfpsp
                  | cbn [reg_code fp]; intro Hin;
                    destruct (Hsaves _ Hin) as (_ & E & _); now apply E].
    fold s2 in Hfp2. rewrite Hfp2, Hr1 by exact Hfpsp. now apply HrC. }
  assert (Hother : forall r, In (reg_code r) (saved_registers gen) -> 
                     is_r sp r = false /\ is_r fp r = false /\ is_r r14 r = false
                     /\ is_r r1 r = false).
  { intros r Hin. destruct (Hsaves _ Hin) as (E1 & E11 & E14 & E15).
    unfold is_r. cbn [reg_code sp fp r14 r1].
    repeat split; apply Nat.eqb_neq; congruence. }
  destruct (builds_frame gen) eqn:Ebuilt.
  - (* a frame: the frame pointer finds the caller's registers *)
    specialize (Hfixed2 eq_refl). destruct (HlB eq_refl) as (Hl14 & Hlfp).
    destruct (exec_leave_frame (StackParameterCount (descriptor gen) * kPointerSize) sE)
      as (s3 & Hex3 & Hsp3 & Hfp3 & Hr14 & Hr3 & Hd3).
    { fold PS. nia. }
    { rewrite HfpE, HfpB. fold PS. lia. }
    assert (Hframe_mem : forall x, reg s0 sp - 2 * PS <= x < reg s0 sp ->
                                   mem sE x = mem sB x).
    { intros x Hx. rewrite HmE, HmD. fold s2. rewrite (Hlink2 eq_refl x Hx).
      rewrite Hm1 by lia. apply HmC. lia. }
    exists s1, s3.
    split; [exact Hexp|].
    split.
    { rewrite Hexr. unfold leave_sequence. rewrite Hframe.
      destruct (IsCFunctionCall (descriptor gen)); exact Hex3. }
    split; [rewrite Hsp3, HfpE, HfpB; fold PS; lia|].
    split.
    { rewrite Hfp3, HfpE, HfpB, <- Hlfp. apply load_bytes_ext.
      intros x Hx. rewrite pointer_bytes_size in Hx. apply Hframe_mem. fold PS in Hx. lia. }
    split.
    { intros c Hc. destruct (Hother (Reg c) Hc) as (E1 & E2 & E3 & E4).
      rewrite Hr3 by assumption. now apply Hregs. }
    intros c Hc. rewrite Hd3. now apply Hdregs.
  - (* no frame: the stack pointer is back where it was *)
    specialize (Hfixed0 eq_refl). specialize (Hnospill eq_refl).
    destruct (exec_drop (StackParameterCount (descriptor gen)) sE)
      as (s3 & Hex3 & Hsp3 & Hr3 & Hd3).
    { exact Hpop. }
    { fold PS. lia. }
    exists s1, s3.
    split; [exact Hexp|].
    split.
    { rewrite Hexr. unfold leave_sequence. rewrite Hframe. exact Hex3. }
    split; [fold PS in Hsp3; lia|].
    split; [rewrite Hr3 by reflexivity; rewrite HfpE; exact HfpB|].
    split.
    { intros c Hc. destruct (Hother (Reg c) Hc) as (E1 & _).
      rewrite Hr3 by assumption. now apply Hregs. }
    intros c Hc. rewrite Hd3. now apply Hdregs.
Qed.

(** The round trip of the example C frame, whose body overwrites the
    saved registers. *)
Lemma prologue_return_round_trip_witness :
  exists pcode rcode s1 s3,
    emitted (AssemblePrologue (arch := true) (frame_constants := example_frame_constants)
               c_frame_generator) = Some pcode /\
    emitted (AssembleReturn (arch := true) c_frame_generator) = Some rcode /\
    exec (arch := true) (fops := example_float_ops) (layout := example_layout)
         [] pcode entry_machine = Next s1 /\
    exec (arch := true) (fops := example_float_ops) (layout := example_layout)
         [] rcode (clobbering_body (arch := true) s1)
      = Returned (reg (arch := true) s3 r14) s3 /\
    reg (arch := true) s3 sp = 4096 /\
    reg (arch := true) s3 fp = 8192 /\
    reg (arch := true) s3 r6 = 66 /\
    reg (arch := true) s3 r7 = 77 /\
    dreg s3 (DReg 8) = 88.
Proof.
  destruct (prologue_return_round_trip (arch := true) (fops := example_float_ops)
              (layout := example_layout) (frame_constants := example_frame_constants)
              c_frame_generator
              (clobbering_body (arch := true)) entry_machine
              (frame_sequence (arch := true) c_frame_generator
               ++ save_sequence c_frame_generator)
              (rev (map restoring_call (save_sequence c_frame_generator))
               ++ leave_sequence (arch := true) c_frame_generator))
    as [_ (s1 & s3 & Hp & Hr & Hsp & Hfp & Hregs & Hdregs)].
  - reflexivity.
  - now apply prologue_emission.
  - apply return_emission.
  - vm_compute. discriminate.
  - vm_compute. reflexivity.
  - intros c [<-|[]]. vm_compute. split; [discriminate | reflexivity].
  - intros s1 _. unfold preserves_frame, clobbering_body.
    split; [now autorewrite with state|].
    split; [now autorewrite with state|].
    split; intros; now autorewrite with state.
  - exists (frame_sequence (arch := true) c_frame_generator
             ++ save_sequence c_frame_generator),
           (rev (map restoring_call (save_sequence c_frame_generator))
             ++ leave_sequence (arch := true) c_frame_generator), s1, s3.
    split; [now apply prologue_emission|]. split; [apply return_emission|].
    split; [exact Hp|]. split; [exact Hr|].
    split; [rewrite Hsp; vm_compute; reflexivity|].
    split; [rewrite Hfp; vm_compute; reflexivity|].
    split; [change r6 with (Reg 6);
            rewrite (Hregs 6%nat) by (vm_compute; auto); vm_compute; reflexivity|].
    split; [change r7 with (Reg 7);
            rewrite (Hregs 7%nat) by (vm_compute; auto); vm_compute; reflexivity|].
    rewrite (Hdregs 8%nat) by (vm_compute; auto). vm_compute. reflexivity.
Defined.

(** ** C6: a 32-bit add that overflows *)

(** C6.  The code emitted for [kS390_AddWithOverflow32], run with
    0x7FFFFFFF in the first input and 1 as the second operand, leaves
    0x80000000 in the low 32 bits of the output register and a condition
    code under which the condition [FlagsConditionToCondition] selects for
    [kOverflow] holds; the code [AssembleArchBoolean] emits for [kOverflow],
    run next, writes 1 to the last output register. *)
Theorem add_with_overflow32_scenario
    {arch : TargetArch} {fops : FloatOps} {layout : Layout}
    (gen : CodeGenerator) (instr : Instruction)
    (in0 out flag : Register) (op1 : InstructionOperand) (s : Machine) :
  arch_opcode instr = kS390_AddWithOverflow32 ->
  inputs instr = [RegisterOperand in0; op1] ->
  outputs instr = [RegisterOperand out; RegisterOperand flag] ->
  is_r out r0 = false ->
  reg s in0 = 0x7FFFFFFF ->
  operand_value s op1 = Some 1 ->
  exists code s1 cond ccv code2 s2,
    emitted (AssembleArchInstruction gen instr) = Some code /\
    exec [] code s = Next s1 /\
    lo32 (reg s1 out) = 0x80000000 /\
    FlagsConditionToCondition kOverflow (arch_opcode instr) = Some cond /\
    cc s1 = Some ccv /\ cond_holds cond ccv = true /\
    emitted (AssembleArchBoolean instr kOverflow) = Some code2 /\
    exec [] code2 s1 = Next s2 /\
    reg s2 flag = 1.
Proof.
  intros Hop Hin Hout Hr0 Hx Hy.
  destruct instr as [opc am fm fc ins outs]. simpl in *. subst opc ins outs.
  assert (Hr0' : is_r r0 out = false) by (now rewrite is_r_sym).
  destruct arch;
    destruct op1 as [in1 | | | | [v|v| | | | |]]; simpl in Hy; try discriminate;
      injection Hy as Hy;
      (do 6 eexists; split; [emit_compute; reflexivity|];
       split; [exec_compute; reflexivity|];
       cbn [opnd2 alu_sem cmp_sem];
       autorewrite with state; rewrite ?Hr0', ?Hx, ?Hy).
  all: split; [vm_compute; reflexivity|].
  all: split; [reflexivity|].
  all: split; [reflexivity|].
  all: split; [vm_compute; reflexivity|].
  all: split; [emit_compute; reflexivity|].
  all: split; [exec_compute; autorewrite with state; reflexivity|].
  all: autorewrite with state; reflexivity.
Qed.

(** The scenario with the second operand an immediate, in the 64-bit
    build. *)
Lemma add_with_overflow32_scenario_witness :
  let instr := mkInstruction kS390_AddWithOverflow32 kMode_None kFlags_set kOverflow
                 [RegisterOperand r3; ImmediateOperand (kInt32 1)]
                 [RegisterOperand r2; RegisterOperand r4] in
  let s := machine_with r3 0x7FFFFFFF in
  exists code s1 cond ccv code2 s2,
    emitted (AssembleArchInstruction (arch := true) example_generator instr) = Some code /\
    exec (arch := true) (fops := example_float_ops) (layout := example_layout)
         [] code s = Next s1 /\
    lo32 (reg (arch := true) s1 r2) = 0x80000000 /\
    FlagsConditionToCondition (arch := true) kOverflow (arch_opcode instr) = Some cond /\
    cc s1 = Some ccv /\ cond_holds cond ccv = true /\
    emitted (AssembleArchBoolean (arch := true) instr kOverflow) = Some code2 /\
    exec (arch := true) (fops := example_float_ops) (layout := example_layout)
         [] code2 s1 = Next s2 /\
    reg (arch := true) s2 r4 = 1.
Proof.
  intros instr s.
  apply (add_with_overflow32_scenario (arch := true) (fops := example_float_ops)
           (layout := example_layout) example_generator instr r3 r2 r4
           (ImmediateOperand (kInt32 1)) s);
    [reflexivity | reflexivity | reflexivity | reflexivity
    | vm_compute; reflexivity | reflexivity].
Defined.

(** ** C7: 32-bit shifts by a register *)

(** C7.  For the three 32-bit shift opcodes with the count in a register:
    when the output register is the count register the rule first copies
    the count to [kScratchReg] and shifts by that register, otherwise it
    shifts by the count register itself; either way the code, when run,
    leaves in the low word of the output the first input shifted by the
    count taken modulo the register width, the count being the value the
    count register held before the code ran. *)
Theorem shift32_count_in_register
    {arch : TargetArch} {fops : FloatOps} {layout : Layout}
    (gen : CodeGenerator) (instr : Instruction) (sop : ShiftOp)
    (in0 in1 out : Register) (s : Machine) :
  shift_opcode (arch_opcode instr) = Some sop ->
  inputs instr = [RegisterOperand in0; RegisterOperand in1] ->
  outputs instr = [RegisterOperand out] ->
  is_r out kScratchReg = false ->
  is_r in0 kScratchReg = false ->
  let code :=
    if is_r out in1
    then [LoadRR kScratchReg in1; Shift sop out in0 (R kScratchReg)]
    else [Shift sop out in0 (R in1)] in
  emitted (AssembleArchInstruction gen instr) = Some code /\
  exists s',
    exec [] code s = Next s' /\
    lo32 (reg s' out)
      = lo32 (shift_sem sop (reg s in0) (reg s in1 mod kBitsPerPointer)).
Proof.
  intros Hop Hin Hout Hos His code. subst code.
  destruct instr as [opc am fm fc ins outs]. simpl in *. subst ins outs.
  assert (Hso : is_r kScratchReg out = false) by (now rewrite is_r_sym).
  assert (Hsi : is_r kScratchReg in0 = false) by (now rewrite is_r_sym).
  split.
  - destruct opc; try discriminate Hop; injection Hop as <-;
      emit_compute; destruct (is_r out in1); reflexivity.
  - destruct (is_r out in1) eqn:Ealias.
    + (* the count is in the output register: it is read from the copy *)
      apply is_r_eq in Ealias. subst in1.
      eexists. split; [exec_compute; reflexivity|].
      cbn [opnd2]. unfold shift_count.
      destruct (is_r out in0) eqn:Eo0.
      * apply is_r_eq in Eo0. subst in0.
        autorewrite with state. rewrite ?Hso, ?Hsi, ?Hos, ?His.
        autorewrite with state. rewrite ?Hso, ?Hsi, ?Hos, ?His.
        rewrite lo32_wrapP, lo32_merge32, ?reg_wrapP. reflexivity.
      * autorewrite with state. rewrite ?Hso, ?Hsi, ?Hos, ?His.
        autorewrite with state. rewrite ?Hso, ?Hsi, ?Hos, ?His.
        rewrite lo32_wrapP, lo32_merge32, ?reg_wrapP, shift_sem_low_word.
        reflexivity.
    + eexists. split; [exec_compute; reflexivity|].
      cbn [opnd2]. unfold shift_count.
      destruct (is_r out in0) eqn:Eo0.
      * apply is_r_eq in Eo0. subst in0.
        autorewrite with state. rewrite ?Ealias.
        rewrite lo32_wrapP, lo32_merge32. reflexivity.
      * autorewrite with state. rewrite ?Ealias.
        autorewrite with state.
        rewrite lo32_wrapP, lo32_merge32, shift_sem_low_word.
        reflexivity.
Qed.

(** A left shift whose output register is the count register. *)
Lemma shift32_count_in_register_witness :
  let instr := mkInstruction kS390_ShiftLeft32 kMode_None kFlags_none kEqual
                 [RegisterOperand r3; RegisterOperand r2] [RegisterOperand r2] in
  let s := machine_with r2 4 in
  let code :=
    if is_r r2 r2
    then [LoadRR kScratchReg r2; Shift OpShiftLeft r2 r3 (R kScratchReg)]
    else [Shift OpShiftLeft r2 r3 (R r2)] in
  emitted (AssembleArchInstruction (arch := true) example_generator instr) = Some code /\
  exists s',
    exec (arch := true) (fops := example_float_ops) (layout := example_layout)
         [] code s = Next s' /\
    lo32 (reg (arch := true) s' r2)
      = lo32 (shift_sem OpShiftLeft (reg (arch := true) s r3)
                (reg (arch := true) s r2 mod kBitsPerPointer (arch := true))).
Proof.
  intros instr s.
  apply (shift32_count_in_register (arch := true) (fops := example_float_ops)
           (layout := example_layout) example_generator instr OpShiftLeft r3 r2 r2 s);
    reflexivity.
Defined.

(** ** C8: space for lazy deoptimization *)

(** C8, the claim as stated fails: the nops are two bytes each, but their
    number need not be even.  With the last lazy-deopt site recorded at 8,
    a patch size of 6 and the code offset at 12, the padding is two bytes
    and [EnsureSpaceForLazyDeopt] emits one nop. *)
Lemma lazy_deopt_odd_nop_count :
  let st := LazyDeopt.mkState 12 8 0 in
  let st' := LazyDeopt.EnsureSpaceForLazyDeopt true 6 st in
  LazyDeopt.pc_offset st' = 14 /\
  LazyDeopt.last_lazy_deopt_pc_ st + 6 <= LazyDeopt.pc_offset st' /\
  (LazyDeopt.nops st' - LazyDeopt.nops st = 1)%nat /\
  Nat.even (LazyDeopt.nops st' - LazyDeopt.nops st) = false.
Proof.
  intros st st'.
  assert (E : st' = LazyDeopt.mkState 14 8 1).
  { unfold st', st, LazyDeopt.EnsureSpaceForLazyDeopt.
    cbn [negb LazyDeopt.pc_offset LazyDeopt.last_lazy_deopt_pc_].
    change (12 <? 8 + 6) with true. cbv iota.
    change (8 + 6 - 12) with 2.
    rewrite LazyDeopt.pad_equation. change (0 <? 2) with true. cbv iota.
    rewrite LazyDeopt.pad_equation. reflexivity. }
  rewrite E. cbn [LazyDeopt.pc_offset LazyDeopt.last_lazy_deopt_pc_ LazyDeopt.nops st].
  repeat split; reflexivity || lia.
Qed.

(** C8, amended.  With space assurance enabled, after
    [EnsureSpaceForLazyDeopt] the code offset is at least
    [last_lazy_deopt_pc_] plus the patch size; [last_lazy_deopt_pc_] is
    unchanged; the nops emitted are half the missing bytes, rounded up, in
    number (an even or an odd number of them), and the offset advanced by
    two bytes for each, an even number of bytes.  So the call of a
    lazy-deopt call site starts at least the patch size after the position
    recorded for the site before it, whatever code lies between, and the
    positions recorded for consecutive sites are at least the patch size
    apart. *)
Theorem lazy_deopt_space_ensured (patch_size : Z) (st : LazyDeopt.State)
    (call_size code_size next_call_size : nat) :
  let st' := LazyDeopt.EnsureSpaceForLazyDeopt true patch_size st in
  let padding_size :=
    Z.max 0 (LazyDeopt.last_lazy_deopt_pc_ st + patch_size - LazyDeopt.pc_offset st) in
  LazyDeopt.last_lazy_deopt_pc_ st + patch_size <= LazyDeopt.pc_offset st' /\
  LazyDeopt.last_lazy_deopt_pc_ st' = LazyDeopt.last_lazy_deopt_pc_ st /\
  Z.of_nat (LazyDeopt.nops st' - LazyDeopt.nops st) = (padding_size + 1) / 2 /\
  LazyDeopt.pc_offset st' = LazyDeopt.pc_offset st + LazyDeopt.kNopSize * Z.of_nat (LazyDeopt.nops st' - LazyDeopt.nops st) /\
  let site := LazyDeopt.call_site true patch_size call_size st in
  let next_site :=
    LazyDeopt.call_site true patch_size next_call_size (LazyDeopt.emit_code code_size site) in
  LazyDeopt.last_lazy_deopt_pc_ site + patch_size
    <= LazyDeopt.pc_offset (LazyDeopt.EnsureSpaceForLazyDeopt true patch_size (LazyDeopt.emit_code code_size site)) /\
  LazyDeopt.last_lazy_deopt_pc_ site + patch_size <= LazyDeopt.last_lazy_deopt_pc_ next_site.
Proof.
  assert (Hensure : forall st0,
    let st' := LazyDeopt.EnsureSpaceForLazyDeopt true patch_size st0 in
    LazyDeopt.last_lazy_deopt_pc_ st0 + patch_size <= LazyDeopt.pc_offset st' /\
    LazyDeopt.last_lazy_deopt_pc_ st' = LazyDeopt.last_lazy_deopt_pc_ st0 /\
    Z.of_nat (LazyDeopt.nops st' - LazyDeopt.nops st0)
      = (Z.max 0 (LazyDeopt.last_lazy_deopt_pc_ st0 + patch_size - LazyDeopt.pc_offset st0) + 1) / 2 /\
    LazyDeopt.pc_offset st' = LazyDeopt.pc_offset st0 + LazyDeopt.kNopSize * Z.of_nat (LazyDeopt.nops st' - LazyDeopt.nops st0)).
  { intros st0. unfold LazyDeopt.EnsureSpaceForLazyDeopt. cbn [negb].
    destruct (Z.ltb_spec (LazyDeopt.pc_offset st0) (LazyDeopt.last_lazy_deopt_pc_ st0 + patch_size)).
    - pose proof (pad_spec (LazyDeopt.last_lazy_deopt_pc_ st0 + patch_size - LazyDeopt.pc_offset st0) st0)
        as (H1 & H2 & H3 & H4 & H5).
      pose proof (pad_count (LazyDeopt.last_lazy_deopt_pc_ st0 + patch_size - LazyDeopt.pc_offset st0) st0)
        as H6.
      repeat split; try lia.
    - rewrite Nat.sub_diag. unfold LazyDeopt.kNopSize.
      rewrite Z.max_l by lia. change ((0 + 1) / 2) with 0.
      repeat split; lia. }
  intros st' padding_size. destruct (Hensure st) as (H1 & H2 & H3 & H4).
  split; [exact H1|]. split; [exact H2|]. split; [exact H3|]. split; [exact H4|].
  intros site next_site.
  pose proof (Hensure (LazyDeopt.emit_code code_size site)) as (K1 & _ & _).
  change (LazyDeopt.last_lazy_deopt_pc_ (LazyDeopt.emit_code code_size site))
    with (LazyDeopt.last_lazy_deopt_pc_ site) in K1.
  split; [exact K1|].
  unfold next_site, LazyDeopt.call_site at 1, LazyDeopt.RecordCallPosition at 1.
  cbn [LazyDeopt.last_lazy_deopt_pc_].
  change (LazyDeopt.pc_offset (LazyDeopt.emit_code next_call_size ?x))
    with (LazyDeopt.pc_offset x + Z.of_nat next_call_size). lia.
Qed.

(** ** C9: signed and unsigned compares *)

(** C9.  [FlagsConditionToCondition] gives a signed condition and its
    unsigned variant the same native condition; [CompareLogical] is true
    exactly for the unsigned conditions, and the compare rule then emits the
    logical compare, the arithmetic one otherwise; and for every ordering
    condition the native condition, read on the condition code the emitted
    compare leaves, is the requested signed or unsigned relation between the
    first input and the second operand. *)
Theorem compare_and_branch_relation
    {arch : TargetArch} {fops : FloatOps} {layout : Layout}
    (gen : CodeGenerator) (instr : Instruction)
    (in0 : Register) (op1 : InstructionOperand) (y : Z) (s : Machine) :
  arch_opcode instr = kS390_Cmp32 \/
    (arch_opcode instr = kS390_Cmp64 /\ V8_TARGET_ARCH_S390X = true) ->
  is_ordering (flags_condition instr) = true ->
  inputs instr = [RegisterOperand in0; op1] ->
  operand_value s op1 = Some y ->
  let c := flags_condition instr in
  let op := arch_opcode instr in
  FlagsConditionToCondition c op = FlagsConditionToCondition (signed_variant c) op /\
  CompareLogical instr = is_unsigned c /\
  exists cond v ccv,
    FlagsConditionToCondition c op = Some cond /\
    emitted (AssembleArchInstruction gen instr) = Some [Cmp (compare_call op c) in0 v] /\
    exec [] [Cmp (compare_call op c) in0 v] s = Next (set_cc s (Some ccv)) /\
    cond_holds cond ccv = requested_relation (compare_width op) c (reg s in0) y.
Proof.
  intros Hop Hord Hin Hy c op. subst c op.
  destruct instr as [opc am fm fc ins outs]. simpl in *. subst ins.
  split; [destruct fc; reflexivity|].
  split; [destruct fc; reflexivity|].
  destruct Hop as [Hop | [Hop Harch]]; subst opc.
  - destruct op1 as [r | | | | [v|v| | | | |]]; simpl in Hy; try discriminate;
      [ | | destruct arch; try discriminate Hy ];
      injection Hy as <-;
      destruct fc; try discriminate Hord;
      (eexists _, _, _; split; [reflexivity|]; split; [reflexivity|];
       split; [reflexivity|]);
      cbn [opnd2 cmp_sem requested_relation compare_width compare_call is_unsigned];
      rewrite ?sext32_wrapP, ?lo32_wrapP;
      first [apply holds_eq | apply holds_ne | apply holds_lt | apply holds_ge
            | apply holds_le | apply holds_gt].
  - unfold V8_TARGET_ARCH_S390X in Harch. subst arch.
    destruct op1 as [r | | | | [v|v| | | | |]]; simpl in Hy; try discriminate;
      injection Hy as <-;
      destruct fc; try discriminate Hord;
      (eexists _, _, _; split; [reflexivity|]; split; [reflexivity|];
       split; [reflexivity|]);
      cbn [opnd2 cmp_sem requested_relation compare_width compare_call is_unsigned];
      rewrite ?signedP_wrapP, ?wrapP_wrapP, ?reg_wrapP;
      change (signedP (arch := true)) with (signed 64);
      change (wrapP (arch := true)) with (wrap 64);
      try (change (reg s in0) with (wrap 64 (gpr s in0)); rewrite ?wrap_wrap);
      try (change (reg s r) with (wrap 64 (gpr s r)); rewrite ?wrap_wrap);
      first [apply holds_eq | apply holds_ne | apply holds_lt | apply holds_ge
            | apply holds_le | apply holds_gt].
Qed.

(** An unsigned compare of 0xFFFFFFFF with 7 in the 64-bit build. *)
Lemma compare_and_branch_relation_witness :
  let instr := mkInstruction kS390_Cmp32 kMode_None kFlags_branch kUnsignedLessThan
                 [RegisterOperand r2; ImmediateOperand (kInt32 7)] [] in
  let s := machine_with r2 (2 ^ 32 - 1) in
  exists cond v ccv,
    FlagsConditionToCondition (arch := true) kUnsignedLessThan kS390_Cmp32 = Some cond /\
    emitted (AssembleArchInstruction (arch := true) example_generator instr)
      = Some [Cmp (compare_call kS390_Cmp32 kUnsignedLessThan) r2 v] /\
    exec (arch := true) (fops := example_float_ops) (layout := example_layout)
         [] [Cmp (compare_call kS390_Cmp32 kUnsignedLessThan) r2 v] s
      = Next (set_cc s (Some ccv)) /\
    cond_holds cond ccv
      = requested_relation (compare_width kS390_Cmp32) kUnsignedLessThan
          (reg (arch := true) s r2) 7.
Proof.
  intros instr s.
  apply (compare_and_branch_relation (arch := true) (fops := example_float_ops)
           (layout := example_layout) example_generator instr r2
           (ImmediateOperand (kInt32 7)) 7 s);
    [left; reflexivity | reflexivity | reflexivity | reflexivity].
Defined.

(** ** C10: subtract-with-overflow of an immediate *)

(** C10, the claim as stated fails in the 64-bit build: there
    [kS390_SubWithOverflow32] with an immediate is lowered to a subtraction
    ([SubP]) followed by [TestIfInt32], not to [AddAndCheckForOverflow] of
    the negated immediate. *)
Lemma sub_with_overflow32_immediate_on_s390x :
  let instr := mkInstruction kS390_SubWithOverflow32 kMode_None kFlags_set kOverflow
                 [RegisterOperand r3; ImmediateOperand (kInt32 1)]
                 [RegisterOperand r2; RegisterOperand r4] in
  emitted (AssembleArchInstruction (arch := true) example_generator instr)
    = Some [SubP r2 r3 (I 1); TestIfInt32 r2 r0] /\
  emitted (AssembleArchInstruction (arch := true) example_generator instr)
    <> Some [AddAndCheckForOverflow r2 r3 (I (neg_int32 1)) kScratchReg r0].
Proof. split; [reflexivity | discriminate]. Qed.

(** C10, amended.  For every subtraction lowered through
    [ASSEMBLE_SUB_WITH_OVERFLOW] whose second operand is an immediate other
    than -2^31, the emitted code is one [AddAndCheckForOverflow] of the
    first input and the negated immediate; run, it leaves the difference of
    the first input and the immediate in the output register, and the
    condition selected for [kOverflow] holds exactly when that difference
    is not a signed integer of the register width. *)
Theorem sub_with_overflow_immediate
    {arch : TargetArch} {fops : FloatOps} {layout : Layout}
    (gen : CodeGenerator) (instr : Instruction)
    (in0 out : Register) (outs : list InstructionOperand) (imm : Z) (s : Machine) :
  uses_ASSEMBLE_SUB_WITH_OVERFLOW instr = true ->
  inputs instr = [RegisterOperand in0; ImmediateOperand (kInt32 imm)] ->
  outputs instr = RegisterOperand out :: outs ->
  - 2 ^ 31 < imm < 2 ^ 31 ->
  let code := [AddAndCheckForOverflow out in0 (I (neg_int32 imm)) kScratchReg r0] in
  emitted (AssembleArchInstruction gen instr) = Some code /\
  neg_int32 imm = - imm /\
  exists s' cond ccv,
    exec [] code s = Next s' /\
    reg s' out = wrapP (reg s in0 - imm) /\
    FlagsConditionToCondition kOverflow (arch_opcode instr) = Some cond /\
    cc s' = Some ccv /\
    cond_holds cond ccv = negb (fits_pointer (signedP (reg s in0) - imm)).
Proof.
  intros Hpath Hin Hout Himm code. subst code.
  destruct instr as [opc am fm fc ins os]. simpl in *. subst ins os.
  assert (Hneg : neg_int32 imm = - imm).
  { unfold neg_int32. apply signed_fits; lia. }
  assert (HW : 0 < kBitsPerPointer)
    by (destruct kBitsPerPointer_cases as [H|H]; rewrite H; lia).
  assert (Hs : signedP (wrapP (- imm)) = - imm).
  { rewrite signedP_wrapP. apply signed_fits; [assumption|].
    destruct kBitsPerPointer_cases as [H|H]; rewrite H; simpl; lia. }
  split; [|split; [exact Hneg|]].
  - unfold uses_ASSEMBLE_SUB_WITH_OVERFLOW in Hpath. simpl in Hpath.
    destruct opc; try discriminate Hpath; destruct arch; try discriminate Hpath;
      [destruct fm; try discriminate Hpath | ];
      emit_compute; reflexivity.
  - rewrite Hneg.
    do 3 eexists. split; [exec_compute; reflexivity|].
    cbn [opnd2]. autorewrite with state.
    split; [rewrite wrapP_wrapP|].
    + unfold wrapP, wrap.
      rewrite Zplus_mod_idemp_r. reflexivity.
    + assert (Hc : exists cond, FlagsConditionToCondition kOverflow opc = Some cond
                     /\ cond = Cond.lt).
      { unfold uses_ASSEMBLE_SUB_WITH_OVERFLOW in Hpath. simpl in Hpath.
        destruct opc; try discriminate Hpath; destruct arch; try discriminate Hpath;
          eexists; split; reflexivity. }
      destruct Hc as [cond [Hc ->]].
      split; [exact Hc|]. split; [reflexivity|].
      rewrite holds_lt. unfold fits_pointer, signedP, wrapP in *.
      rewrite (add_overflow_sign kBitsPerPointer (reg s in0) _ HW).
      rewrite Hs. reflexivity.
Qed.

(** [kS390_SubWithOverflow32] of 2^31 and 1 in the 31-bit build. *)
Lemma sub_with_overflow_immediate_witness :
  let instr := mkInstruction kS390_SubWithOverflow32 kMode_None kFlags_set kOverflow
                 [RegisterOperand r3; ImmediateOperand (kInt32 1)]
                 [RegisterOperand r2; RegisterOperand r4] in
  let s := machine_with r3 (2 ^ 31) in
  let code := [AddAndCheckForOverflow r2 r3 (I (neg_int32 1)) kScratchReg r0] in
  emitted (AssembleArchInstruction (arch := false) example_generator instr) = Some code /\
  neg_int32 1 = - 1 /\
  exists s' cond ccv,
    exec (arch := false) (fops := example_float_ops) (layout := example_layout)
         [] code s = Next s' /\
    reg (arch := false) s' r2 = wrapP (arch := false) (reg (arch := false) s r3 - 1) /\
    FlagsConditionToCondition (arch := false) kOverflow (arch_opcode instr) = Some cond /\
    cc s' = Some ccv /\
    cond_holds cond ccv
      = negb (fits_pointer (arch := false)
                (signedP (arch := false) (reg (arch := false) s r3) - 1)).
Proof.
  intros instr s.
  apply (sub_with_overflow_immediate (arch := false) (fops := example_float_ops)
           (layout := example_layout) example_generator instr r3 r2
           [RegisterOperand r4] 1 s);
    [reflexivity | reflexivity | reflexivity | lia].
Defined.

(* ===================================================================== *)
(** * Further properties of the emitted code *)
(* ===================================================================== *)

(** ** Compares followed by a branch or a materialized condition *)

(** X3.  An integer compare followed by the branch [AssembleArchBranch]
    assembles for an ordering condition of the compare's signedness leaves
    by the branch to the true label exactly when the requested relation
    holds between the first input and the second operand; otherwise it
    falls through when the false block is next in assembly order, and
    leaves by the branch to the false label when it is not. *)
Theorem compare_then_branch
    {arch : TargetArch} {fops : FloatOps} {layout : Layout}
    (gen : CodeGenerator) (instr : Instruction) (branch : BranchInfo)
    (in0 : Register) (op1 : InstructionOperand) (y : Z) (s : Machine) :
  is_integer_compare (arch_opcode instr) = true ->
  is_ordering (condition branch) = true ->
  is_unsigned (flags_condition instr) = is_unsigned (condition branch) ->
  inputs instr = [RegisterOperand in0; op1] ->
  operand_value s op1 = Some y ->
  exists code ccv,
    emitted (AssembleArchInstruction gen instr ;; AssembleArchBranch instr branch)
      = Some code /\
    exec [] code s
      = branch_outcome branch
          (requested_relation (compare_width (arch_opcode instr)) (condition branch)
                              (reg s in0) y)
          (set_cc s (Some ccv)).
Proof.
  intros Hop Hord Hsign Hin Hy.
  destruct (compare_operand_value s op1 y Hy) as (v & Hv & Hval).
  destruct (compare_relation (arch_opcode instr) (flags_condition instr)
              (condition branch) (reg s in0) y Hop Hord Hsign)
    as (cond & Hcond & Hal & _ & Hrel).
  assert (Hd : opcode_eqb_CmpDouble (arch_opcode instr) = false)
    by (destruct (arch_opcode instr); try discriminate Hop; reflexivity).
  do 2 eexists. split.
  - rewrite (emitted_bind _ _ tt _ (compare_emission gen instr in0 op1 v _ Hop Hin Hv)).
    rewrite (branch_emission instr branch cond _ Hcond Hd). reflexivity.
  - cbn [buffer emit_all empty_assembler app].
    erewrite exec_cons by (cbn [step]; reflexivity).
    rewrite (exec_branch branch cond _ _ Hal (cc_set_cc _ _)).
    rewrite <- Hrel. f_equal. f_equal.
    destruct Hval as [-> | (r & -> & <-)]; cbn [opnd2];
      [apply cmp_sem_wrapP_r | reflexivity].
Qed.

(** An unsigned less-than branch on 0xFFFFFFFF and 7 in the 64-bit build:
    the relation does not hold and the code leaves to the false label. *)
Lemma compare_then_branch_witness :
  let instr := mkInstruction kS390_Cmp32 kMode_None kFlags_branch kUnsignedLessThan
                 [RegisterOperand r2; ImmediateOperand (kInt32 7)] [] in
  let branch := mkBranchInfo kUnsignedLessThan (BlockLabel 1) (BlockLabel 2) false in
  let s := machine_with r2 (2 ^ 32 - 1) in
  exists code ccv,
    emitted (AssembleArchInstruction (arch := true) example_generator instr ;;
             AssembleArchBranch (arch := true) instr branch) = Some code /\
    exec (arch := true) (fops := example_float_ops) (layout := example_layout)
         [] code s
      = branch_outcome branch
          (requested_relation (compare_width kS390_Cmp32) kUnsignedLessThan
                              (reg (arch := true) s r2) 7)
          (set_cc s (Some ccv)).
Proof.
  intros instr branch s.
  apply (compare_then_branch (arch := true) (fops := example_float_ops)
           (layout := example_layout) example_generator instr branch r2
           (ImmediateOperand (kInt32 7)) 7 s);
    [reflexivity | reflexivity | reflexivity | reflexivity | reflexivity].
Defined.

(** X4.  An integer compare followed by the code [AssembleArchBoolean]
    assembles for an ordering condition of the compare's signedness runs to
    its end and leaves 1 in the last output register when the requested
    relation holds between the first input and the second operand, 0 when
    it does not; no other register, no floating register and no memory
    changes. *)
Theorem compare_then_boolean
    {arch : TargetArch} {fops : FloatOps} {layout : Layout}
    (gen : CodeGenerator) (instr : Instruction) (c : FlagsCondition)
    (in0 out : Register) (op1 : InstructionOperand) (y : Z) (s : Machine) :
  is_integer_compare (arch_opcode instr) = true ->
  is_ordering c = true ->
  is_unsigned (flags_condition instr) = is_unsigned c ->
  inputs instr = [RegisterOperand in0; op1] ->
  OutputAt instr (OutputCount instr - 1) = Some (RegisterOperand out) ->
  operand_value s op1 = Some y ->
  exists code s',
    emitted (AssembleArchInstruction gen instr ;; AssembleArchBoolean instr c)
      = Some code /\
    exec [] code s = Next s' /\
    reg s' out
      = (if requested_relation (compare_width (arch_opcode instr)) c (reg s in0) y
         then 1 else 0) /\
    (forall r, is_r out r = false -> reg s' r = reg s r) /\
    (forall d, dreg s' d = dreg s d) /\
    mem s' = mem s.
Proof.
  intros Hop Hord Hsign Hin Hout Hy.
  destruct (compare_operand_value s op1 y Hy) as (v & Hv & Hval).
  destruct (compare_relation (arch_opcode instr) (flags_condition instr)
              c (reg s in0) y Hop Hord Hsign)
    as (cond & Hcond & Hal & Hcases & Hrel).
  assert (Hd : opcode_eqb_CmpDouble (arch_opcode instr) = false)
    by (destruct (arch_opcode instr); try discriminate Hop; reflexivity).
  set (cop := compare_call (arch_opcode instr) (flags_condition instr)) in *.
  assert (Hcmp : cmp_sem cop (reg s in0) (opnd2 s v) = cmp_sem cop (reg s in0) y).
  { destruct Hval as [-> | (r & -> & <-)]; cbn [opnd2];
      [apply cmp_sem_wrapP_r | reflexivity]. }
  destruct (boolean_spec instr c out cond (emit_all [Cmp cop in0 v] empty_assembler)
              (set_cc s (Some (cmp_sem cop (reg s in0) y))) _ Hd Hcond Hcases Hout
              (cc_set_cc _ _) (cmp_sem_ordered _ _ _))
    as (code & s' & Hgen & Hexec & Hres & Hregs & Hdregs & Hmem).
  exists (Cmp cop in0 v :: code), s'.
  split.
  { rewrite (emitted_bind _ _ tt _ (compare_emission gen instr in0 op1 v _ Hop Hin Hv)).
    fold cop. rewrite Hgen. reflexivity. }
  split.
  { erewrite exec_cons by (cbn [step]; reflexivity). rewrite Hcmp. exact Hexec. }
  split; [rewrite <- Hrel; exact Hres|].
  split; [intros r Hr; rewrite (Hregs r Hr); now autorewrite with state|].
  split; [intro d; rewrite Hdregs; now autorewrite with state|].
  rewrite Hmem. now autorewrite with state.
Qed.

(** A signed less-than of -1 and 7 as 32-bit values, materialized in
    [r4]. *)
Lemma compare_then_boolean_witness :
  let instr := mkInstruction kS390_Cmp32 kMode_None kFlags_set kSignedLessThan
                 [RegisterOperand r2; ImmediateOperand (kInt32 7)]
                 [RegisterOperand r4] in
  let s := machine_with r2 (2 ^ 32 - 1) in
  exists code s',
    emitted (AssembleArchInstruction (arch := true) example_generator instr ;;
             AssembleArchBoolean (arch := true) instr kSignedLessThan) = Some code /\
    exec (arch := true) (fops := example_float_ops) (layout := example_layout)
         [] code s = Next s' /\
    reg (arch := true) s' r4
      = (if requested_relation (compare_width kS390_Cmp32) kSignedLessThan
              (reg (arch := true) s r2) 7
         then 1 else 0) /\
    (forall r, is_r r4 r = false -> reg (arch := true) s' r = reg (arch := true) s r) /\
    (forall d, dreg s' d = dreg s d) /\
    mem s' = mem s.
Proof.
  intros instr s.
  apply (compare_then_boolean (arch := true) (fops := example_float_ops)
           (layout := example_layout) example_generator instr kSignedLessThan r2 r4
           (ImmediateOperand (kInt32 7)) 7 s);
    [reflexivity | reflexivity | reflexivity | reflexivity | reflexivity | reflexivity].
Defined.

(** X5.  A [kS390_CmpDouble] of two operands neither of which is a NaN,
    followed by the branch assembled for an ordering condition, leaves by
    the branch to the true label exactly when the operands are in the
    order the condition names, and by the false side otherwise. *)
Theorem double_compare_then_branch
    {arch : TargetArch} {fops : FloatOps} {layout : Layout}
    (gen : CodeGenerator) (instr : Instruction) (branch : BranchInfo)
    (in0 in1 : DoubleRegister) (s : Machine) :
  arch_opcode instr = kS390_CmpDouble ->
  inputs instr = [DoubleRegisterOperand in0; DoubleRegisterOperand in1] ->
  is_ordering (condition branch) = true ->
  is_nan (dreg s in0) || is_nan (dreg s in1) = false ->
  exists code,
    emitted (AssembleArchInstruction gen instr ;; AssembleArchBranch instr branch)
      = Some code /\
    exec [] code s
      = branch_outcome branch
          (double_order (condition branch) (dreg s in0) (dreg s in1))
          (set_cc s (Some (f64_compare (dreg s in0) (dreg s in1)))).
Proof.
  intros Hop Hin Hord Hnn.
  destruct (double_order_holds (condition branch) (dreg s in0) (dreg s in1) Hord)
    as (cond & Hcond & Hal & Hrel).
  rewrite <- Hrel. rewrite <- (f64_compare_ordered _ _ Hnn).
  assert (Hu : cond_holds Cond.unordered (f64_compare (dreg s in0) (dreg s in1)) = false)
    by (rewrite (f64_compare_ordered _ _ Hnn); apply holds_unordered_compare).
  clear Hrel.
  destruct instr as [opc am fm fc ins outs]. simpl in *. subst opc ins.
  destruct branch as [c tl fl ft]. simpl in *.
  destruct c; try discriminate Hord; injection Hcond as <-; destruct ft;
    (eexists; split; [cbv; reflexivity|]);
    (erewrite exec_cons by (cbn [step]; reflexivity));
    (erewrite exec_b by (first [reflexivity | apply cc_set_cc]));
    rewrite Hu;
    (erewrite exec_b by (first [reflexivity | apply cc_set_cc]));
    unfold branch_outcome; cbn [true_label false_label fallthru];
    destruct (cond_holds _ _); reflexivity.
Qed.

(** A less-than branch on the doubles with the patterns 10 and 3. *)
Lemma double_compare_then_branch_witness :
  let instr := mkInstruction kS390_CmpDouble kMode_None kFlags_branch kSignedLessThan
                 [DoubleRegisterOperand d1; DoubleRegisterOperand d2] [] in
  let branch := mkBranchInfo kSignedLessThan (BlockLabel 1) (BlockLabel 2) false in
  let s := doubles_machine in
  exists code,
    emitted (AssembleArchInstruction (arch := true) example_generator instr ;;
             AssembleArchBranch (arch := true) instr branch) = Some code /\
    exec (arch := true) (fops := example_float_ops) (layout := example_layout)
         [] code s
      = branch_outcome branch
          (double_order kSignedLessThan (dreg s d1) (dreg s d2))
          (set_cc s (Some (f64_compare (dreg s d1) (dreg s d2)))).
Proof.
  intros instr branch s.
  apply (double_compare_then_branch (arch := true) (fops := example_float_ops)
           (layout := example_layout) example_generator instr branch d1 d2 s);
    [reflexivity | reflexivity | reflexivity | vm_compute; reflexivity].
Defined.

(** X6.  A [kS390_CmpDouble] followed by the code [AssembleArchBoolean]
    assembles for an ordering condition, with an output other than
    [kScratchReg], runs to its end and leaves in the last output register
    1 or 0: when an operand is a NaN, 0 for equal, less-than and
    less-than-or-equal and 1 for their negations; otherwise 1 exactly when
    the operands are in the order the condition names.  Only the output
    and [kScratchReg] change. *)
Theorem double_compare_then_boolean
    {arch : TargetArch} {fops : FloatOps} {layout : Layout}
    (gen : CodeGenerator) (instr : Instruction) (c : FlagsCondition)
    (in0 in1 : DoubleRegister) (out : Register) (s : Machine) :
  arch_opcode instr = kS390_CmpDouble ->
  inputs instr = [DoubleRegisterOperand in0; DoubleRegisterOperand in1] ->
  OutputAt instr (OutputCount instr - 1) = Some (RegisterOperand out) ->
  is_ordering c = true ->
  is_r out kScratchReg = false ->
  exists code s',
    emitted (AssembleArchInstruction gen instr ;; AssembleArchBoolean instr c)
      = Some code /\
    exec [] code s = Next s' /\
    reg s' out = (if double_relation c (dreg s in0) (dreg s in1) then 1 else 0) /\
    (forall r, is_r out r = false -> is_r kScratchReg r = false -> reg s' r = reg s r) /\
    (forall d, dreg s' d = dreg s d) /\
    mem s' = mem s.
Proof.
  intros Hop Hin Hout Hord Hscratch.
  assert (Hscratch' : is_r kScratchReg out = false) by (now rewrite is_r_sym).
  destruct instr as [opc am fm fc ins outs]. simpl in *. subst opc ins.
  unfold double_relation.
  assert (Hcc : exists ccv,
             f64_compare (dreg s in0) (dreg s in1) = ccv /\
             (ccv = CC3 /\ is_nan (dreg s in0) || is_nan (dreg s in1) = true
              \/ ccv <> CC3 /\ is_nan (dreg s in0) || is_nan (dreg s in1) = false
                 /\ ccv = cc_compare (f64_key (dreg s in0)) (f64_key (dreg s in1)))).
  { unfold f64_compare.
    destruct (is_nan (dreg s in0) || is_nan (dreg s in1)).
    - eexists; split; [reflexivity|]. left. now split.
    - eexists; split; [reflexivity|]. right.
      split; [|split; reflexivity].
      unfold cc_compare. destruct (_ =? _); [discriminate|].
      destruct (_ <? _); discriminate. }
  destruct Hcc as (ccv & Hccv & Hkind).
  assert (Hrel : forall cond,
             FlagsConditionToCondition c kS390_CmpDouble = Some cond ->
             ccv <> CC3 ->
             cond_holds cond ccv = double_order c (dreg s in0) (dreg s in1)).
  { intros cond Hcond Hnot.
    destruct Hkind as [[E _]|(_ & _ & ->)]; [contradiction|].
    destruct (double_order_holds c (dreg s in0) (dreg s in1) Hord)
      as (cond' & Hcond' & _ & Hh).
    congruence. }
  unfold OutputAt, OutputCount in Hout. cbn [outputs] in Hout.
  destruct c; try discriminate Hord.
  all: specialize (Hrel _ eq_refl).
  all: assert (Hnan : is_nan (dreg s in0) || is_nan (dreg s in1)
                      = match ccv with CC3 => true | _ => false end)
         by (destruct Hkind as [[-> ->]|(Hn & -> & _)];
             [reflexivity | destruct ccv; try reflexivity; now contradiction Hn]).
  all: rewrite Hnan; clear Hnan Hkind.
  all: destruct ccv.
  all: try (rewrite <- Hrel by discriminate).
  all: clear Hrel.
  all: do 2 eexists.
  all: split;
    [unfold emitted, gbind, AssembleArchInstruction, AssembleArchBoolean,
       InputDoubleRegister, OutputRegister, InputAt, OutputAt, OutputCount,
       new_label, lift, gret, emit;
     cbn [arch_opcode inputs outputs nth_error next_label empty_assembler buffer];
     rewrite Hout; cbn; reflexivity|].
  all: erewrite exec_cons by (cbn [step]; reflexivity).
  all: rewrite Hccv.
  all: do 2 (erewrite exec_cons by (cbn [step]; reflexivity)); unfold bunordered.
  all: erewrite exec_b by (first [reflexivity | autorewrite with state; reflexivity]).
  all: eval_cond_holds; cbv iota.
  all: try (erewrite exec_b by (first [reflexivity | autorewrite with state; reflexivity]);
            eval_cond_holds; cbv iota).
  all: unfold exec; cbn [exec_from step label_eqb Nat.eqb unordered_value].
  all: split; [reflexivity|].
  all: autorewrite with state;
       rewrite ?is_r_refl, ?Hscratch, ?Hscratch', ?wrapP_0, ?wrapP_1, ?wrapP_wrapP.
  all: split; [reflexivity|].
  all: split; [intros r Hr Hr'; autorewrite with state; now rewrite ?Hr, ?Hr'|].
  all: split; [intro d|]; autorewrite with state; reflexivity.
Qed.

(** A greater-than-or-equal of two NaNs, materialized in [r4]. *)
Lemma double_compare_then_boolean_witness :
  let instr := mkInstruction kS390_CmpDouble kMode_None kFlags_set
                 kSignedGreaterThanOrEqual
                 [DoubleRegisterOperand d1; DoubleRegisterOperand d2]
                 [RegisterOperand r4] in
  let s := nan_machine in
  exists code s',
    emitted (AssembleArchInstruction (arch := true) example_generator instr ;;
             AssembleArchBoolean (arch := true) instr kSignedGreaterThanOrEqual)
      = Some code /\
    exec (arch := true) (fops := example_float_ops) (layout := example_layout)
         [] code s = Next s' /\
    reg (arch := true) s' r4
      = (if double_relation kSignedGreaterThanOrEqual (dreg s d1) (dreg s d2)
         then 1 else 0) /\
    (forall r, is_r r4 r = false -> is_r kScratchReg r = false ->
               reg (arch := true) s' r = reg (arch := true) s r) /\
    (forall d, dreg s' d = dreg s d) /\
    mem s' = mem s.
Proof.
  intros instr s.
  apply (double_compare_then_boolean (arch := true) (fops := example_float_ops)
           (layout := example_layout) example_generator instr
           kSignedGreaterThanOrEqual d1 d2 r4 s);
    [reflexivity | reflexivity | reflexivity | reflexivity | reflexivity].
Defined.

(** ** Additions and subtractions that report overflow *)

Section OverflowExact.
Context {arch : TargetArch} {fops : FloatOps} {layout : Layout}.

(** X7.  For [kS390_AddWithOverflow32] and [kS390_SubWithOverflow32], and in
    the 64-bit build for [kS390_Add] and [kS390_Sub] with a flags mode: when
    the operands hold integers of the width the instruction reports
    overflow at (32 bits, the register width for the latter two), the
    output is not [r0] and a subtraction lowered through
    [ASSEMBLE_SUB_WITH_OVERFLOW] does not subtract the immediate -2^31, the
    emitted code leaves the low bits of the sum or difference in the
    output, the condition selected for [kOverflow] holds exactly when the
    sum or difference is not an integer of that width, and the condition
    selected for [kNotOverflow] exactly when it is. *)
Theorem overflow_exact
    (gen : CodeGenerator) (instr : Instruction) (w : Z)
    (in0 out : Register) (outs : list InstructionOperand) (op1 : InstructionOperand)
    (x y : Z) (s : Machine) :
  overflow_width instr = Some w ->
  inputs instr = [RegisterOperand in0; op1] ->
  outputs instr = RegisterOperand out :: outs ->
  is_r out r0 = false ->
  int_operand w s (RegisterOperand in0) x ->
  int_operand w s op1 y ->
  (uses_ASSEMBLE_SUB_WITH_OVERFLOW instr = true ->
   op1 <> ImmediateOperand (kInt32 (- 2 ^ 31))) ->
  let v := overflow_operation (arch_opcode instr) x y in
  exists code s' cond ncond ccv,
    emitted (AssembleArchInstruction gen instr) = Some code /\
    exec [] code s = Next s' /\
    signed w (reg s' out) = signed w v /\
    cc s' = Some ccv /\
    FlagsConditionToCondition kOverflow (arch_opcode instr) = Some cond /\
    cond_holds cond ccv = negb (fits_signed w v) /\
    FlagsConditionToCondition kNotOverflow (arch_opcode instr) = Some ncond /\
    cond_holds ncond ccv = fits_signed w v.
Proof.
  intros Hw Hin Hout Hr0 [Hx Hfx] Hy Himm v. subst v.
  destruct instr as [opc am fm fc ins os]. simpl in *. subst ins os.
  assert (Hr0' : is_r r0 out = false) by (now rewrite is_r_sym).
  destruct op1 as [in1 | | | | [i|i| | | | |]]; simpl in Hy; try contradiction.
  all: destruct Hy as [Hy Hfy].
  1: pose proof Hy as Hy'.
  2: assert (Hy' : signedP (wrapP i) = y) by (subst y; now apply signedP_immediate).
  2: assert (Hn : uses_ASSEMBLE_SUB_WITH_OVERFLOW (mkInstruction opc am fm fc
                    [RegisterOperand in0; ImmediateOperand (kInt32 i)]
                    (RegisterOperand out :: outs)) = true
                  -> signedP (wrapP (neg_int32 i)) = - y)
       by (intro U; subst y; apply signedP_negated_immediate;
           [assumption | intro E; apply (Himm U); now rewrite E]).
  all: clear Himm.
  all: unfold overflow_width, uses_ASSEMBLE_SUB_WITH_OVERFLOW in *; simpl in *.
  all: destruct opc; try discriminate Hw; destruct arch; try discriminate Hw.
  all: try (destruct fm; try discriminate Hw; [idtac | idtac]).
  all: injection Hw as <-.
  all: try specialize (Hn eq_refl).
  all: do 5 eexists; split; [emit_compute; reflexivity|].
  all: split; [exec_compute; reflexivity|].
  all: cbn [opnd2 alu_sem cmp_sem overflow_operation]; autorewrite with state; rewrite ?Hr0'.
  all: rewrite ?wrapP_wrapP.
  all: split;
    [ first
        [ apply add_result_signed; [width_ok | assumption | assumption]
        | apply sub_result_signed; [width_ok | assumption | assumption]
        | replace (x - y) with (x + - y) by lia;
          apply add_result_signed; [width_ok | assumption | assumption] ] |].
  all: split; [reflexivity|].
  all: split; [reflexivity|].
  all: match goal with |- ?A /\ _ =>
         assert (Ho : A);
         [ first
             [ exact (proj1 (add_check_sign _ _ x y Hx Hy'))
             | exact (proj1 (sub_check_sign _ _ x y Hx Hy'))
             | replace (x - y) with (x + - y) by lia;
               exact (proj1 (add_check_sign _ _ x (- y) Hx Hn))
             | exact (test_if_int32_sign (arch := true) _ _
                        (proj1 (wide_sum (arch := true) _ _ x y eq_refl Hx Hy' Hfx Hfy)))
             | exact (test_if_int32_sign (arch := true) _ _
                        (proj2 (wide_sum (arch := true) _ _ x y eq_refl Hx Hy' Hfx Hfy))) ]
         | ]
       end.
  all: split; [exact Ho|].
  all: split; [reflexivity|].
  all: first [rewrite holds_ge_lt by apply cc_compare_ordered | rewrite holds_eq_ne].
  all: rewrite Ho; apply negb_involutive.
Qed.

End OverflowExact.

(** The difference of -2^31 and 1 in the 31-bit build: it overflows. *)
Lemma overflow_exact_witness :
  let instr := mkInstruction kS390_SubWithOverflow32 kMode_None kFlags_set kOverflow
                 [RegisterOperand r3; RegisterOperand r2]
                 [RegisterOperand r4; RegisterOperand r5] in
  let s := overflow_machine in
  let v := overflow_operation kS390_SubWithOverflow32 (- 2 ^ 31) 1 in
  exists code s' cond ncond ccv,
    emitted (AssembleArchInstruction (arch := false) example_generator instr) = Some code /\
    exec (arch := false) (fops := example_float_ops) (layout := example_layout)
         [] code s = Next s' /\
    signed 32 (reg (arch := false) s' r4) = signed 32 v /\
    cc s' = Some ccv /\
    FlagsConditionToCondition (arch := false) kOverflow kS390_SubWithOverflow32
      = Some cond /\
    cond_holds cond ccv = negb (fits_signed 32 v) /\
    FlagsConditionToCondition (arch := false) kNotOverflow kS390_SubWithOverflow32
      = Some ncond /\
    cond_holds ncond ccv = fits_signed 32 v.
Proof.
  intros instr s v.
  apply (overflow_exact (arch := false) (fops := example_float_ops)
           (layout := example_layout) example_generator instr 32 r3 r4
           [RegisterOperand r5] (RegisterOperand r2) (- 2 ^ 31) 1 s);
    [reflexivity | reflexivity | reflexivity | reflexivity
    | split; vm_compute; reflexivity | split; vm_compute; reflexivity
    | intros _; discriminate].
Defined.

(** ** A store followed by a load of the same address *)

Section StoreLoad.
Context {arch : TargetArch} {fops : FloatOps} {layout : Layout}.

(** X8.  The code of an integer store followed by the code of an integer
    load of the same width, with the same addressing mode and the same
    address operands, leaves in the load's output the low bits of the
    stored register, zero-extended for [kS390_LoadWordU8] and
    [kS390_LoadWordU16] and sign-extended for [kS390_LoadWordS8],
    [kS390_LoadWordS16] and [kS390_LoadWordS32]; no other register and no
    floating register changes. *)
Theorem store_then_load
    (gen : CodeGenerator) (st ld : Instruction) (addr : list InstructionOperand)
    (value out : Register) (outs : list InstructionOperand) (f : Z -> Z) (s : Machine) :
  read_back (arch_opcode st) (arch_opcode ld) = Some f ->
  addressing_mode ld = addressing_mode st ->
  is_address (addressing_mode st) addr = true ->
  inputs st = addr ++ [RegisterOperand value] ->
  inputs ld = addr ->
  outputs ld = RegisterOperand out :: outs ->
  exists code1 code2 s1 s2,
    emitted (AssembleArchInstruction gen st) = Some code1 /\
    emitted (AssembleArchInstruction gen ld) = Some code2 /\
    exec [] code1 s = Next s1 /\
    exec [] code2 s1 = Next s2 /\
    reg s2 out = wrapP (f (reg s value)) /\
    (forall r, is_r out r = false -> reg s2 r = reg s r) /\
    (forall d, dreg s2 d = dreg s d).
Proof.
  intros Hf Ham Haddr Hst Hld Hout.
  destruct st as [sop sam sfm sfc sins souts], ld as [lop lam lfm lfc lins louts].
  simpl in *. subst lam sins lins louts.
  destruct sam, addr as [|[a0| | | |] [|[a1| | | | [i|i| | | | |]] [|]]];
    try discriminate Haddr; clear Haddr.
  all: destruct sop; try discriminate Hf; destruct lop; try discriminate Hf.
  all: destruct arch; try discriminate Hf.
  all: injection Hf as <-.
  all: do 4 eexists; split; [emit_compute; reflexivity|].
  all: split; [emit_compute; reflexivity|].
  all: split; [exec_compute; reflexivity|].
  all: split; [exec_compute; reflexivity|].
  all: cbn [load_sem store_width]; autorewrite with state.
  all: rewrite !load_store_bytes_mod.
  all: split; [| split; [intros r Hr; autorewrite with state; rewrite ?Hr; autorewrite with state; reflexivity
                        | intros d; autorewrite with state; reflexivity]].
  all: repeat match goal with
              | |- context [?v mod 256 ^ Z.of_nat 1] =>
                  change (v mod 256 ^ Z.of_nat 1) with (wrap 8 v)
              | |- context [?v mod 256 ^ Z.of_nat 2] =>
                  change (v mod 256 ^ Z.of_nat 2) with (wrap 16 v)
              | |- context [?v mod 256 ^ Z.of_nat 4] =>
                  change (v mod 256 ^ Z.of_nat 4) with (wrap 32 v)
              end.
  all: try match goal with
           | |- wrapP (merge32 ?o ?x) = ?R =>
               change (lo32 (merge32 o x) = R); rewrite lo32_merge32
           end.
  all: rewrite ?signed_wrapP_bytes by lia.
  all: unfold sext32; rewrite ?signed_signed_wrap by lia.
  all: reflexivity.
Qed.

End StoreLoad.

(** A byte store of 0x1FF read back sign-extended: -1. *)
Lemma store_then_load_witness :
  let st := mkInstruction kS390_StoreWord8 kMode_MRI kFlags_none kEqual
              [RegisterOperand r3; ImmediateOperand (kInt32 16); RegisterOperand r2] [] in
  let ld := mkInstruction kS390_LoadWordS8 kMode_MRI kFlags_none kEqual
              [RegisterOperand r3; ImmediateOperand (kInt32 16)] [RegisterOperand r4] in
  let s := machine_with r2 511 in
  exists code1 code2 s1 s2,
    emitted (AssembleArchInstruction (arch := true) example_generator st) = Some code1 /\
    emitted (AssembleArchInstruction (arch := true) example_generator ld) = Some code2 /\
    exec (arch := true) (fops := example_float_ops) (layout := example_layout)
         [] code1 s = Next s1 /\
    exec (arch := true) (fops := example_float_ops) (layout := example_layout)
         [] code2 s1 = Next s2 /\
    reg (arch := true) s2 r4 = wrapP (arch := true) (signed 8 (reg (arch := true) s r2)) /\
    (forall r, is_r r4 r = false -> reg (arch := true) s2 r = reg (arch := true) s r) /\
    (forall d, dreg s2 d = dreg s d).
Proof.
  intros st ld s.
  apply (store_then_load (arch := true) (fops := example_float_ops)
           (layout := example_layout) example_generator st ld
           [RegisterOperand r3; ImmediateOperand (kInt32 16)] r2 r4 [] (signed 8) s);
    [reflexivity | reflexivity | reflexivity | reflexivity | reflexivity | reflexivity].
Defined.

(** ** The padding before a lazy-deopt site *)

(** X9.  When the padding [EnsureSpaceForLazyDeopt] computes is even (what
    its [DCHECK] asks), the function leaves the code offset at the larger of
    the offset it found and [last_lazy_deopt_pc_] plus the patch size, and at
    the offset it found when space assurance is off: it never pads more
    than is needed.  The offset advanced by two bytes per nop emitted;
    nothing changes when the space is there already; and a second call
    right after changes nothing. *)
Theorem lazy_deopt_padding_exact (should_ensure : bool) (patch_size : Z)
    (st : LazyDeopt.State) :
  (LazyDeopt.last_lazy_deopt_pc_ st + patch_size - LazyDeopt.pc_offset st) mod 2 = 0 ->
  let st' := LazyDeopt.EnsureSpaceForLazyDeopt should_ensure patch_size st in
  LazyDeopt.pc_offset st'
    = (if should_ensure
       then Z.max (LazyDeopt.pc_offset st) (LazyDeopt.last_lazy_deopt_pc_ st + patch_size)
       else LazyDeopt.pc_offset st) /\
  LazyDeopt.kNopSize * Z.of_nat (LazyDeopt.nops st' - LazyDeopt.nops st)
    = LazyDeopt.pc_offset st' - LazyDeopt.pc_offset st /\
  (LazyDeopt.last_lazy_deopt_pc_ st + patch_size <= LazyDeopt.pc_offset st -> st' = st) /\
  LazyDeopt.EnsureSpaceForLazyDeopt should_ensure patch_size st' = st'.
Proof.
  intros Heven st'. subst st'.
  unfold LazyDeopt.EnsureSpaceForLazyDeopt.
  destruct should_ensure; cbn [negb].
  2: { rewrite Nat.sub_diag. unfold LazyDeopt.kNopSize. repeat split; lia. }
  destruct (Z.ltb_spec (LazyDeopt.pc_offset st)
                       (LazyDeopt.last_lazy_deopt_pc_ st + patch_size)) as [Hlt|Hge].
  - pose proof (pad_spec (LazyDeopt.last_lazy_deopt_pc_ st + patch_size
                          - LazyDeopt.pc_offset st) st) as (_ & _ & Hlast & _ & Hn).
    pose proof (pad_exact _ st Heven) as Hpc.
    rewrite Hlast.
    split; [lia|]. split; [lia|]. split; [lia|].
    destruct (Z.ltb_spec (LazyDeopt.pc_offset (LazyDeopt.pad
                (LazyDeopt.last_lazy_deopt_pc_ st + patch_size - LazyDeopt.pc_offset st) st))
                (LazyDeopt.last_lazy_deopt_pc_ st + patch_size)); [lia | reflexivity].
  - rewrite Nat.sub_diag. unfold LazyDeopt.kNopSize.
    split; [lia|]. split; [lia|]. split; [reflexivity|].
    destruct (Z.ltb_spec (LazyDeopt.pc_offset st)
                         (LazyDeopt.last_lazy_deopt_pc_ st + patch_size)); [lia | reflexivity].
Qed.

(** A site at offset 10, four bytes short of the patch size 6 after the
    site recorded at 8. *)
Lemma lazy_deopt_padding_exact_witness :
  let st := LazyDeopt.mkState 10 8 0 in
  let st' := LazyDeopt.EnsureSpaceForLazyDeopt true 6 st in
  LazyDeopt.pc_offset st' = Z.max 10 (8 + 6) /\
  LazyDeopt.kNopSize * Z.of_nat (LazyDeopt.nops st' - 0) = LazyDeopt.pc_offset st' - 10 /\
  (8 + 6 <= 10 -> st' = st) /\
  LazyDeopt.EnsureSpaceForLazyDeopt true 6 st' = st'.
Proof.
  intros st st'.
  apply (lazy_deopt_padding_exact true 6 st). reflexivity.
Defined.

(** ** Return sites *)

Section ReturnSitesCanonical.
Context {arch : TargetArch} {fops : FloatOps} {layout : Layout}.

(** X10.  In a function with a frame that is not a C function, the first
    return [AssembleReturn] assembles restores the callee-saved registers,
    binds the return label and tears the frame down; every later return
    restores the callee-saved registers and branches to the return label,
    and emits no teardown of its own.  Run from the same state, a later
    return leaves for the return label in the very state in which the
    first one reaches its teardown. *)
Theorem return_sites_canonical (gen : CodeGenerator) (s : Machine) :
  IsCFunctionCall (descriptor gen) = false ->
  needs_frame gen = true ->
  let teardown := [LeaveFrame (StackParameterCount (descriptor gen) * kPointerSize); Ret] in
  let first := restore_calls gen ++ bind ReturnLabel :: teardown in
  let later := restore_calls gen ++ [b_always ReturnLabel] in
  (forall a, return_label_bound a = false ->
     exists a', AssembleReturn gen a = Some (tt, a') /\
                buffer a' = buffer a ++ first /\ return_label_bound a' = true) /\
  (forall a, return_label_bound a = true ->
     AssembleReturn gen a = Some (tt, emit_all later a)) /\
  forallb (fun i => negb (is_teardown i)) later = true /\
  exists s',
    exec [] (restore_calls gen) s = Next s' /\
    exec [] later s = Taken ReturnLabel s' /\
    exec [] first s = exec [] teardown s'.
Proof.
  intros Hc Hf teardown first later.
  split; [|split; [|split]].
  - intros a Hb. destruct a as [buf n os jt rb cs]. cbn in Hb. subst rb.
    unfold AssembleReturn, first, teardown, restore_calls. rewrite Hc, Hf.
    destruct (CalleeSavedRegisters (descriptor gen) =? 0),
             (CalleeSavedFPRegisters (descriptor gen) =? 0);
      (eexists; split; [cbn; unfold gbind, bind_return_label, emit; cbn; reflexivity|]);
      cbn; rewrite <- ?app_assoc; cbn [app]; split; reflexivity.
  - intros a Hb. destruct a as [buf n os jt rb cs]. cbn in Hb. subst rb.
    unfold AssembleReturn, later, restore_calls, emit_all. rewrite Hc, Hf.
    destruct (CalleeSavedRegisters (descriptor gen) =? 0),
             (CalleeSavedFPRegisters (descriptor gen) =? 0);
      cbn; unfold emit; cbn; rewrite <- ?app_assoc; cbn [app]; reflexivity.
  - unfold later. rewrite forallb_app, restore_calls_keep_frame. reflexivity.
  - destruct (exec_restore_calls gen s) as [s' Hs']. exists s'.
    split; [exact Hs'|]. split.
    + unfold later. rewrite (exec_app _ _ _ _ Hs'). reflexivity.
    + unfold first. rewrite (exec_app _ _ _ _ Hs'). reflexivity.
Qed.

End ReturnSitesCanonical.

(** The returns of the example JavaScript frame. *)
Lemma return_sites_canonical_witness :
  let gen := js_frame_generator in
  let later := restore_calls gen ++ [b_always ReturnLabel] in
  (forall a, return_label_bound a = true ->
     AssembleReturn (arch := true) gen a = Some (tt, emit_all later a)) /\
  forallb (fun i => negb (is_teardown i)) later = true.
Proof.
  intros gen later.
  pose proof (return_sites_canonical (arch := true) (fops := example_float_ops)
                (layout := example_layout) js_frame_generator entry_machine
                eq_refl eq_refl) as H.
  exact (conj (proj1 (proj2 H)) (proj1 (proj2 (proj2 H)))).
Defined.

(** ** Entering a function compiled for on-stack replacement *)

Section OsrEntry.
Context {arch : TargetArch} {fops : FloatOps} {layout : Layout}.
Context {frame_constants : FrameConstants}.

(** X11.  The prologue of a function compiled for on-stack replacement is
    the calls that build the frame, then the [Abort], then the reload of
    the function into [r3] (the on-stack-replacement entry), then the
    stack adjustment and the register saves: the reload comes right after
    the [Abort] and not before it.  Run from its start, the prologue
    builds the frame and ends in the [Abort], whatever the frame kind and
    the state. *)
Theorem osr_prologue_aborts (gen : CodeGenerator) (s : Machine) :
  is_osr gen = true ->
  let code :=
    frame_entry gen ++ Abort :: osr_reload :: stack_adjust gen ++ save_sequence gen in
  emitted (AssemblePrologue gen) = Some code /\
  ~ In osr_reload (frame_entry gen) /\
  ~ In Abort (frame_entry gen) /\
  (exists s1, exec [] (frame_entry gen) s = Next s1) /\
  exec [] code s = Aborted.
Proof.
  destruct gen as [[k pc saves dsaves] nf slots align osr uslots].
  cbn [is_osr]. intros ->. cbv zeta.
  unfold emitted, AssemblePrologue, frame_entry, stack_adjust, save_sequence,
    osr_reload, IsCFunctionCall, IsJSFunctionCall.
  cbn [descriptor kind CalleeSavedFPRegisters CalleeSavedRegisters needs_frame is_osr].
  generalize (stack_shrink_slots
                (mkCodeGenerator (mkCallDescriptor k pc saves dsaves)
                                 nf slots align true uslots)).
  intro shrink.
  destruct k, nf, (0 <? shrink), (dsaves =? 0), (saves =? 0);
    (split; [emit_compute; reflexivity|]);
    (split; [cbn [In]; intuition discriminate|]);
    (split; [cbn [In]; intuition discriminate|]);
    (split; [eexists; exec_compute; reflexivity|]);
    exec_compute; reflexivity.
Qed.

End OsrEntry.

(** The prologue of a JavaScript function compiled for on-stack
    replacement. *)
Lemma osr_prologue_aborts_witness :
  let code :=
    frame_entry osr_generator
    ++ Abort :: osr_reload (arch := true)
    :: stack_adjust (arch := true) osr_generator ++ save_sequence osr_generator in
  emitted (AssemblePrologue (arch := true) (frame_constants := example_frame_constants)
             osr_generator) = Some code /\
  ~ In (osr_reload (arch := true)) (frame_entry osr_generator) /\
  ~ In Abort (frame_entry osr_generator) /\
  (exists s1,
     exec (arch := true) (fops := example_float_ops) (layout := example_layout)
          [] (frame_entry osr_generator) entry_machine = Next s1) /\
  exec (arch := true) (fops := example_float_ops) (layout := example_layout)
       [] code entry_machine = Aborted.
Proof.
  apply (osr_prologue_aborts (arch := true) (fops := example_float_ops)
           (layout := example_layout) (frame_constants := example_frame_constants)
           osr_generator entry_machine).
  reflexivity.
Defined.

(** ** The slots of the callee-saved registers *)



(** ** Lookup switches *)

Section LookupSwitchDispatch.
Context {arch : TargetArch} {fops : FloatOps} {layout : Layout}.
Variable IsNextInAssemblyOrder : nat -> bool.

(** X13.  The code of a lookup switch compares the input register with the
    value of each case in turn, as numbers of the register width, and
    leaves by the branch to the block of the first case that is equal;
    when no case is equal it falls through if the default block is next in
    assembly order and leaves by a branch to the default block if it is
    not.  Only the condition code changes. *)
Theorem lookup_switch_dispatch (instr : Instruction) (input : Register)
    (default : nat) (cases : list (Z * nat)) (s : Machine) :
  inputs instr = lookup_switch_inputs input default cases ->
  exists code ccv,
    emitted (AssembleArchLookupSwitch IsNextInAssemblyOrder instr) = Some code /\
    exec [] code s
    = lookup_switch_outcome IsNextInAssemblyOrder (reg s input) default cases
        (set_cc s ccv).
Proof.
  intro Hin.
  destruct (exec_lookup_switch IsNextInAssemblyOrder input default cases s) as (ccv & H).
  eexists. exists ccv. split.
  - exact (lookup_switch_emission IsNextInAssemblyOrder instr input default cases Hin).
  - exact H.
Qed.

End LookupSwitchDispatch.

(** A switch on 7 with the cases 5 and 7 (the opcode of the instruction is
    not looked at by [AssembleArchLookupSwitch]). *)
Lemma lookup_switch_dispatch_witness :
  let next := fun rpo => Nat.eqb rpo 9 in
  let cases := [(5, 3%nat); (7, 4%nat)] in
  let instr := mkInstruction kArchNop kMode_None kFlags_none kEqual
                 (lookup_switch_inputs r2 9 cases) [] in
  let s := machine_with r2 7 in
  exists code ccv,
    emitted (AssembleArchLookupSwitch next instr) = Some code /\
    exec (arch := true) (fops := example_float_ops) (layout := example_layout)
         [] code s
    = lookup_switch_outcome (arch := true) next (reg (arch := true) s r2) 9 cases
        (set_cc s ccv).
Proof.
  intros next cases instr s.
  apply (lookup_switch_dispatch (arch := true) (fops := example_float_ops)
           (layout := example_layout) next instr r2 9 cases s).
  reflexivity.
Defined.

(** ** Gap moves *)

Section Swap.
Import Gap.
Context {arch : TargetArch} {fops : FloatOps} {layout : Layout}.
Variable GetFrameOffset : Z -> FrameOffset.

(** X14.  For two general registers, a general register and a stack slot,
    two stack slots, two floating registers, a floating register and a
    double stack slot, or two double stack slots, with allocatable
    registers and slots that are the same or do not overlap, the code of
    [AssembleSwap] runs to its end and leaves in each operand what the
    other one held; apart from the scratch registers ([kScratchReg], [r0],
    [kScratchDoubleReg], [d0]) no other register and no other memory
    changes. *)
Theorem swap_exchanges (source destination : MoveOperand) (s : Machine) :
  swappable GetFrameOffset s source destination ->
  exchanged GetFrameOffset source destination s.
Proof.
  intro Hsw.
  destruct source as [[src| dsrc | i | i | c] | c]; try contradiction;
    destruct destination as [[dst | ddst | j | j | c'] | c']; try contradiction.
  - now apply swap_rr.
  - now apply swap_rs.
  - now apply swap_dd.
  - now apply swap_ds.
  - now apply swap_ss.
  - now apply swap_tt.
Qed.

End Swap.

(** The register [r6] and the second slot below the frame pointer. *)
Lemma swap_exchanges_witness :
  exchanged (arch := true) (fops := example_float_ops) (layout := example_layout)
            example_frame_offsets
            (Gap.Operand (RegisterOperand r6)) (Gap.Operand (StackSlotOperand 1)) entry_machine.
Proof.
  apply (swap_exchanges (arch := true) (fops := example_float_ops)
           (layout := example_layout) example_frame_offsets
           (Gap.Operand (RegisterOperand r6)) (Gap.Operand (StackSlotOperand 1)) entry_machine).
  reflexivity.
Defined.

Section Move.
Import Gap.
Context {arch : TargetArch} {fops : FloatOps} {layout : Layout}.
Variable GetFrameOffset : Z -> FrameOffset.
Variable LoadHeapConstant : Register -> Constant -> list MInstr.

(** X15.  For a move between general registers and stack slots, between
    floating registers and double stack slots, of an integer constant to a
    general register or a stack slot, or of a floating constant to a
    floating register or a double stack slot, the code of [AssembleMove]
    runs to its end and leaves in the destination what the source held, or
    the constant (a [float] constant converted to a [double], a NaN coming
    out quiet); apart from the destination and the scratch registers
    ([kScratchReg], [r0], [kScratchDoubleReg]) no register and no memory
    changes. *)
Theorem move_copies (source destination : MoveOperand) (s : Machine) :
  movable s source destination ->
  exists code s',
    emitted (AssembleMove GetFrameOffset LoadHeapConstant source destination)
      = Some code /\
    exec [] code s = Next s' /\
    content GetFrameOffset s' destination = moved_value GetFrameOffset s source /\
    (forall r, is_r kScratchReg r = false -> is_r r0 r = false ->
               names_register destination r = false -> reg s' r = reg s r) /\
    (forall d, is_d kScratchDoubleReg d = false ->
               names_double destination d = false -> dreg s' d = dreg s d) /\
    (forall x, ~ covers GetFrameOffset s destination x -> mem s' x = mem s x).
Proof.
  intro Hm.
  destruct source as [[src| dsrc | i | i | c] | [v|v|bits|bits| | |]]; try contradiction;
    destruct destination as [[dst | ddst | j | j | c'] | c']; try contradiction.
  all: do 2 eexists; split; [move_compute; reflexivity|].
  all: fold_slot_operands GetFrameOffset.
  all: cbn [content moved_value names_register names_double covers].
  all: split; [repeat move_step GetFrameOffset; reflexivity|].
  all: slot_addresses GetFrameOffset; state_facts.
  all: slot_addresses GetFrameOffset.
  all: split;
    [first [ reflexivity
           | rewrite reg_wrapP; reflexivity
           | rewrite load_store_bytes by (rewrite double_word; exact Hm); reflexivity ]|].
  all: split; [intros r Hr1 Hr2 Hr3; state_facts; reflexivity|].
  all: split; [intros d Hd1 Hd2; state_facts; reflexivity|].
  all: intros x Hx; state_facts.
  all: slot_addresses GetFrameOffset.
  all: first [ reflexivity
             | apply store_bytes_other; rewrite ?pointer_bytes_size;
               unfold kDoubleSize in *; cbn [Z.of_nat]; lia ].
Qed.

End Move.

(** A [float] constant that is a signalling NaN, to a floating register:
    the register receives the quiet NaN of the same payload. *)
Lemma move_copies_witness :
  let source := Gap.ConstantOperand (kFloat32 0x7FA00000) in
  let destination := Gap.Operand (DoubleRegisterOperand d1) in
  let s := entry_machine in
  moved_value (arch := true) example_frame_offsets s source
    = Some 0x7FFC000000000000 /\
  exists code s',
    emitted (Gap.AssembleMove example_frame_offsets (fun _ _ => [])
                          source destination) = Some code /\
    exec (arch := true) (fops := example_float_ops) (layout := example_layout)
         [] code s = Next s' /\
    content (arch := true) example_frame_offsets s' destination
      = moved_value (arch := true) example_frame_offsets s source /\
    (forall r, is_r kScratchReg r = false -> is_r r0 r = false ->
               names_register destination r = false ->
               reg (arch := true) s' r = reg (arch := true) s r) /\
    (forall d, is_d kScratchDoubleReg d = false ->
               names_double destination d = false -> dreg s' d = dreg s d) /\
    (forall x, ~ covers (arch := true) example_frame_offsets s destination x ->
               mem s' x = mem s x).
Proof.
  intros source destination s.
  split; [reflexivity|].
  apply (move_copies (arch := true) (fops := example_float_ops)
           (layout := example_layout) example_frame_offsets (fun _ _ => [])
           source destination s).
  simpl. exact Logic.I.
Defined.

(** ** Tail calls *)

Section TailCallRun.
Context {arch : TargetArch} {fops : FloatOps} {layout : Layout}.
Variable FrameAccessState : Type.
Variable SetFrameAccessToDefault : FrameAccessState -> FrameAccessState.
Variable SetFrameAccessToSP : FrameAccessState -> FrameAccessState.
Variable IncreaseSPDelta : Z -> FrameAccessState -> FrameAccessState.
Variable TailCallFrameStackSlotDelta : Z -> Z.

(** X16.  The code of [AssemblePrepareTailCall] followed by the code of
    [AssembleDeconstructActivationRecord] for the same stack parameter
    delta moves the stack pointer by the slot delta of the tail call times
    the pointer size, whatever its sign (the first adjusts it when the
    delta is negative, the second when it is positive), and in a function
    with a frame leaves in [r14] and [fp] the return address and the frame
    pointer of the caller, read from the frame; nothing else changes. *)
Theorem tail_call_frame (gen : CodeGenerator) (stack_param_delta : Z)
    (fas : FrameAccessState) (s : Machine) :
  let delta := TailCallFrameStackSlotDelta stack_param_delta in
  exists code s',
    emitted (fas' <- AssemblePrepareTailCall FrameAccessState SetFrameAccessToSP
                       IncreaseSPDelta TailCallFrameStackSlotDelta
                       gen stack_param_delta fas ;;
             AssembleDeconstructActivationRecord FrameAccessState
               SetFrameAccessToDefault TailCallFrameStackSlotDelta
               stack_param_delta fas') = Some code /\
    exec [] code s = Next s' /\
    reg s' sp = wrapP (reg s sp + delta * kPointerSize) /\
    reg s' r14 = (if needs_frame gen then loadP s fp kCallerPCOffset else reg s r14) /\
    reg s' fp = (if needs_frame gen then loadP s fp kCallerFPOffset else reg s fp) /\
    (forall r, is_r sp r = false -> is_r fp r = false -> is_r r14 r = false ->
               reg s' r = reg s r) /\
    (forall d, dreg s' d = dreg s d) /\
    mem s' = mem s.
Proof.
  intro delta.
  assert (K1 : is_r sp r14 = false) by reflexivity.
  assert (K2 : is_r sp fp = false) by reflexivity.
  assert (K3 : is_r r14 fp = false) by reflexivity.
  assert (K4 : is_r r14 sp = false) by reflexivity.
  assert (K5 : is_r fp sp = false) by reflexivity.
  assert (K6 : is_r fp r14 = false) by reflexivity.
  unfold emitted, AssemblePrepareTailCall, AssembleDeconstructActivationRecord, gbind, when.
  fold delta.
  destruct (Z.ltb_spec delta 0) as [Hneg|Hnn];
    destruct (Z.ltb_spec 0 delta) as [Hpos|Hnp]; try lia;
    destruct (needs_frame gen);
    (do 2 eexists; split; [reflexivity|]);
    cbn [buffer empty_assembler app];
    (split; [exec_compute; reflexivity|]).
  all: cbn [alu_sem opnd2 load_sem]; rewrite ?ea_ri by reflexivity; unfold loadP.
  all: state_facts; rewrite ?wrapP_add_wrapP_r, ?reg_wrapP.
  all: split;
    [first [ reflexivity
           | assert (E : delta = 0) by lia;
             rewrite E, Z.mul_0_l, Z.add_0_r, reg_wrapP; reflexivity ]|].
  all: split; [reflexivity|].
  all: split; [reflexivity|].
  all: split; [intros r Hr1 Hr2 Hr3; state_facts; reflexivity|].
  all: split; [intro d; state_facts; reflexivity|].
  all: reflexivity.
Qed.

End TailCallRun.

(** ** Load elimination *)

Section LoadEliminationSound.
Import LoadElimination.
Context {FieldAccess V : Type}.
Variable access_eqb : FieldAccess -> FieldAccess -> bool.
Variable graph : Graph FieldAccess.

(** X17.  A replacement found by [Reduce] computes what the load
    computes: in every run of the graph that follows the meaning of the
    operators (a load of a field reads the heap and leaves it as it is, a
    store of a field writes its value input to the field of its object and
    leaves the other fields as they are, region markers, stores to
    buffers and elements and operators with [kNoWrite] and one effect
    input leave the fields as they are, the end of a region has the value
    of its input, an allocation leaves the fields of the values of the
    other nodes as they are), the node [Reduce] replaces a load of a field
    by has the value of the load. *)
Theorem load_elimination_sound
    (value : nat -> V) (heap : nat -> V -> FieldAccess -> V)
    (steps node v : nat)
    (Haccess : forall a c, access_eqb a c = true <-> a = c)
    (Hrun : follows graph value heap)
    (Hreduce : Reduce access_eqb graph steps node = Returns (Replace v)) :
  value v = value node.
Proof.
  unfold Reduce in Hreduce.
  destruct (opcode (graph node)) eqn:Eop; try discriminate.
  unfold ReduceLoadField in Hreduce.
  destruct (GetValueInput graph node 0) as [object|] eqn:E0; [|discriminate].
  destruct (GetEffectInput graph node) as [effect|] eqn:Ee; [|discriminate].
  rewrite (load_reads _ _ _ Hrun node object Eop E0).
  rewrite (load_keeps _ _ _ Hrun node effect _ _ Eop Ee).
  eapply walk_sound; eassumption.
Qed.

(** X18.  [Reduce] returns: in a graph whose nodes have the inputs of
    their operators and whose effect chains have no cycle but through
    nodes with several effect inputs, the walk of [ReduceLoadField] ends
    within as many rounds as the rank of the node, in a reduction (no
    check of an input index fails), and more rounds give the same
    reduction. *)
Theorem load_elimination_returns
    (rank : nat -> nat) (steps node : nat)
    (Harity : forall n, arity_ok graph n = true)
    (Hrank : descends graph rank)
    (Hsteps : (rank node <= steps)%nat) :
  exists r, forall steps', (steps <= steps')%nat ->
    Reduce access_eqb graph steps' node = Returns r.
Proof.
  assert (R : exists r, Reduce access_eqb graph steps node = Returns r).
  { unfold Reduce. destruct (opcode (graph node)) eqn:Eop; eauto.
    unfold ReduceLoadField.
    pose proof (Harity node) as Hn. unfold arity_ok in Hn. rewrite Eop in Hn.
    apply andb_prop in Hn as [H1 H2]. apply Nat.leb_le in H1, H2.
    unfold GetValueInput, GetEffectInput.
    destruct (value_inputs (graph node)) as [|object ?] eqn:Ev; [cbn in H1; lia|].
    destruct (effect_inputs (graph node)) as [|effect ?] eqn:Ee; [cbn in H2; lia|].
    cbn [nth_error].
    apply (walk_returns access_eqb graph rank); try assumption.
    assert (rank effect < rank node)%nat; [|lia].
    apply Hrank; [rewrite Eop; discriminate|].
    unfold GetEffectInput. rewrite Ee. reflexivity. }
  destruct R as [r R]. exists r. intros steps' Hle.
  rewrite <- R. unfold Reduce in *.
  destruct (opcode (graph node)); try reflexivity.
  unfold ReduceLoadField in *.
  destruct (GetValueInput graph node 0); [|reflexivity].
  destruct (GetEffectInput graph node); [|reflexivity].
  apply walk_more; [rewrite R; discriminate | assumption].
Qed.

End LoadEliminationSound.

Lemma load_elimination_sound_witness :
  LoadElimination.Reduce Z.eqb example_graph 8 7 =
    LoadElimination.Returns (LoadElimination.Replace 1) /\
  example_value 1 = example_value 7.
Proof.
  split; [reflexivity|].
  apply (load_elimination_sound Z.eqb example_graph example_value example_heap
           8 7 1 Z.eqb_eq example_follows).
  reflexivity.
Defined.

Lemma load_elimination_returns_witness :
  exists r, forall steps', (7 <= steps')%nat ->
    LoadElimination.Reduce Z.eqb example_graph steps' 7 = LoadElimination.Returns r.
Proof.
  apply (load_elimination_returns Z.eqb example_graph (fun n => n) 7 7
           example_arity example_descends).
  lia.
Defined.
